(** * Powers Explorer: the scale and distance computation core

    A shallow embedding of the numeric and selection logic of the
    repository (ScaleCalculator, DataManager, StateManager, ObjectSelector,
    LightSpeedTraveler, and the layout computed by ScaleDisplay,
    DistanceAnimator and ObjectOverlay) together with the properties its
    specification states about them and further properties of the code.

    Numbers.  A JavaScript number is modelled by [number]: a finite value
    carries a rational, and the three special values Infinity, -Infinity
    and NaN are kept with the arithmetic IEEE 754 gives them (x/0,
    Infinity*0, NaN propagation, comparisons with NaN); the only zero is
    +0.  Two arithmetics are given.  The layout and the timing are
    studied with exact operations ([mul], [div], [add]): the results are
    those of the program up to the rounding of binary64, and their order
    and their bounds are kept by it.  Where a quotient is printed
    ([formatScale], [formatTime], the ratio of [displayObjects]) the
    digits depend on the rounding itself, and the functions are embedded
    a second time, in [Binary64], with the division that rounds to the
    nearest binary64 value, ties to even ([binary64]).

    Strings.  [toFixed] and the conversion of a number to a string follow
    ECMA-262 (Number.prototype.toFixed, Number::toString): fixed notation
    below 10^21, the general conversion, with the fewest digits that
    identify the binary64 value, from 10^21 on and for the special
    values.

    [Math.log1p], [Math.log10] and [Math.pow], whose values ECMA-262
    leaves to the implementation, are parameters of the functions that
    call them; the exact [formatScale] takes the decade and the power of
    ten themselves.

    JSON.  What [validateData] inspects is a parsed JSON value of any
    shape ([json]), tested as JavaScript tests it.

    Objects.  A method that updates [this] is a function from the fields
    it reads to the fields it writes.  For the two selection classes the
    result also records the value of the call and, in order, what it
    logs, emits and asks of the cards; elsewhere console output is left
    out.  Where it matters that an array is shared (the payload of
    ['selectionComplete']) the arrays live in a heap and are passed by
    reference.  What a component draws is kept as the coordinates and
    texts it hands to the scene; colours, fonts and the scene itself are
    left out. *)

From Stdlib Require Import ZArith QArith Qabs Qround Qpower Qminmax String Ascii List Lia Lqa Bool.
From Stdlib Require Import DecimalString DecimalN DecimalPos DecimalFacts.
From stdpp Require Import gmap strings.

Local Open Scope Z_scope.
Local Open Scope Q_scope.

(* ================================================================== *)
(** * The embedding *)

(** ** Decimal digit strings *)

Module Text.
Local Open Scope string_scope.

(** The decimal digits of a natural number, most significant first. *)
Definition dec (n : N) : string := NilZero.string_of_uint (N.to_uint n).

Definition is_digit (c : ascii) : bool :=
  match c with
  | "0" | "1" | "2" | "3" | "4" | "5" | "6" | "7" | "8" | "9" => true
  | _ => false
  end%char.

Fixpoint all_digits (s : string) : bool :=
  match s with
  | EmptyString => true
  | String c r => is_digit c && all_digits r
  end.

Fixpoint zeros (n : nat) : string :=
  match n with
  | O => ""
  | S k => String "0" (zeros k)
  end.

Fixpoint str_take (n : nat) (s : string) : string :=
  match n, s with
  | S k, String c r => String c (str_take k r)
  | _, _ => ""
  end.

Fixpoint str_drop (n : nat) (s : string) : string :=
  match n, s with
  | S k, String _ r => str_drop k r
  | _, _ => s
  end.

(** The longest prefix of digits, and what follows it. *)
Fixpoint span_digits (s : string) : string * string :=
  match s with
  | EmptyString => ("", "")
  | String c r =>
      if is_digit c then let (d, t) := span_digits r in (String c d, t)
      else ("", s)
  end.

(** The number a non-empty digit string denotes. *)
Definition value (ds : string) : option N :=
  option_map N.of_uint (NilZero.uint_of_string ds).

(** [s] without its prefix [p], when it has it. *)
Fixpoint strip_prefix (p s : string) : option string :=
  match p, s with
  | EmptyString, _ => Some s
  | String a p', String b s' => if Ascii.eqb a b then strip_prefix p' s' else None
  | _, _ => None
  end.

(** A digit string without its trailing zeros. *)
Fixpoint strip_zeros (s : string) : string :=
  match s with
  | EmptyString => ""
  | String c r =>
      match strip_zeros r with
      | EmptyString => if Ascii.eqb c "0" then "" else String c ""
      | t => String c t
      end
  end.

End Text.

(* ================================================================== *)
(** ** JavaScript numbers *)

Module JS.

Inductive number : Type :=
| Fin (q : Q)
| PosInf
| NegInf
| NaN.

Definition Qltb (x y : Q) : bool := negb (Qle_bool y x).

Definition Qsign (q : Q) : comparison := (Qnum q ?= 0)%Z.

(** SameValue on numbers: finite values up to equality of the rationals. *)
Definition same (x y : number) : Prop :=
  match x, y with
  | Fin p, Fin q => p == q
  | PosInf, PosInf | NegInf, NegInf | NaN, NaN => True
  | _, _ => False
  end.

Definition is_finite (x : number) : bool :=
  match x with Fin _ => true | _ => false end.

(** [x === y] *)
Definition strict_eq (x y : number) : bool :=
  match x, y with
  | Fin p, Fin q => Qeq_bool p q
  | PosInf, PosInf | NegInf, NegInf => true
  | _, _ => false
  end.

(** [x < y]: false as soon as an operand is NaN. *)
Definition lt (x y : number) : bool :=
  match x, y with
  | NaN, _ | _, NaN => false
  | Fin p, Fin q => Qltb p q
  | NegInf, NegInf => false
  | NegInf, _ => true
  | _, PosInf => negb (strict_eq x PosInf)
  | _, _ => false
  end.

(** [x <= y] *)
Definition le (x y : number) : bool :=
  match x, y with
  | NaN, _ | _, NaN => false
  | _, _ => lt x y || strict_eq x y
  end.

(** [x > y] *)
Definition gt (x y : number) : bool := lt y x.

(** The infinity whose sign is the product of two signs. *)
Definition signed_inf (s t : comparison) : number :=
  match s, t with
  | Eq, _ | _, Eq => NaN
  | Gt, Gt | Lt, Lt => PosInf
  | _, _ => NegInf
  end.

Definition sign_of (x : number) : comparison :=
  match x with
  | Fin q => Qsign q
  | PosInf => Gt
  | NegInf => Lt
  | NaN => Eq
  end.

(** [x * y] *)
Definition mul (x y : number) : number :=
  match x, y with
  | NaN, _ | _, NaN => NaN
  | Fin p, Fin q => Fin (Qred (p * q))
  | _, _ => signed_inf (sign_of x) (sign_of y)
  end.

(** [x / y]; a zero divisor is +0. *)
Definition div (x y : number) : number :=
  match x, y with
  | NaN, _ | _, NaN => NaN
  | Fin p, Fin q =>
      if Qeq_bool q 0 then signed_inf (Qsign p) Gt else Fin (Qred (p / q))
  | Fin _, _ => Fin 0
  | _, Fin q => signed_inf (sign_of x) (match Qsign q with Eq => Gt | s => s end)
  | _, _ => NaN
  end.

(** [Math.max(x, y)] and [Math.min(x, y)]: NaN if either argument is. *)
Definition Math_max (x y : number) : number :=
  match x, y with
  | NaN, _ | _, NaN => NaN
  | _, _ => if lt x y then y else x
  end.

Definition Math_min (x y : number) : number :=
  match x, y with
  | NaN, _ | _, NaN => NaN
  | _, _ => if lt y x then y else x
  end.

(** [Math.abs(x)] *)
Definition Math_abs (x : number) : number :=
  match x with
  | Fin q => Fin (Qabs q)
  | PosInf | NegInf => PosInf
  | NaN => NaN
  end.

(** [x + y], [- x] and [x - y] *)
Definition add (x y : number) : number :=
  match x, y with
  | NaN, _ | _, NaN => NaN
  | Fin p, Fin q => Fin (Qred (p + q))
  | PosInf, NegInf | NegInf, PosInf => NaN
  | PosInf, _ | _, PosInf => PosInf
  | _, _ => NegInf
  end.

Definition neg (x : number) : number :=
  match x with
  | Fin q => Fin (- q)
  | PosInf => NegInf
  | NegInf => PosInf
  | NaN => NaN
  end.

Definition sub (x y : number) : number := add x (neg y).

(** [10^e] for an integer [e]: [Math.pow(10, e)]. *)
Definition pow10 (e : Z) : Q := (10 # 1) ^ e.

(** The integer [e] with [10^e <= q < 10^(e+1)], for [q > 0]: the search
    climbs from 0 when [q >= 1] and descends from -1 otherwise; the binary
    size of the numerator (resp. denominator) bounds the steps. *)
Fixpoint log10_up (fuel : nat) (q : Q) (e : Z) : Z :=
  match fuel with
  | O => e
  | S f => if Qle_bool (pow10 (e + 1)) q then log10_up f q (e + 1) else e
  end.

Fixpoint log10_down (fuel : nat) (q : Q) (e : Z) : Z :=
  match fuel with
  | O => e
  | S f => if Qle_bool (pow10 e) q then e else log10_down f q (e - 1)
  end.

Definition ilog10 (q : Q) : Z :=
  if Qle_bool 1 q
  then log10_up (S (Z.to_nat (Z.log2 (Qnum q)))) q 0
  else log10_down (S (Z.to_nat (Z.log2 (Zpos (Qden q))))) q (-1).

(** [Math.floor(Math.log10(x))], taken together: the logarithm itself is
    not a rational, its integer part is. *)
Definition Math_floor_log10 (x : number) : number :=
  match x with
  | NaN | NegInf => NaN
  | PosInf => PosInf
  | Fin q =>
      match Qsign q with
      | Lt => NaN
      | Eq => NegInf
      | Gt => Fin (inject_Z (ilog10 q))
      end
  end.

(** [Math.pow(10, x)] for the integral [x] that [Math.floor] returns. *)
Definition Math_pow10 (x : number) : number :=
  match x with
  | NaN => NaN
  | PosInf => PosInf
  | NegInf => Fin 0
  | Fin q => Fin (pow10 (Qfloor q))
  end.

(** The integer nearest to [q >= 0], the larger one on a tie. *)
Definition round_half_up (q : Q) : N := Z.to_N (Qfloor (q + (1 # 2))).

(** ** Binary64 *)

Definition pow2 (e : Z) : Q := (2 # 1) ^ e.

(** The integer [e] with [2^e <= q < 2^(e+1)], for [q > 0]. *)
Definition ilog2 (q : Q) : Z :=
  let e := (Z.log2 (Qnum q) - Z.log2 (Zpos (Qden q)))%Z in
  if Qle_bool (pow2 e) q then e else (e - 1)%Z.

(** The integer nearest to [q], the even one on a tie. *)
Definition round_half_even (q : Q) : Z :=
  let f := Qfloor q in
  match Qcompare (q - inject_Z f) (1 # 2) with
  | Lt => f
  | Gt => (f + 1)%Z
  | Eq => if Z.even f then f else (f + 1)%Z
  end.

(** The spacing of the binary64 values around [q > 0]: 53 significant
    bits from 2^-1022 on, the multiples of 2^-1074 below. *)
Definition ulp (q : Q) : Q := pow2 (Z.max (ilog2 q - 52) (-1074)).

(** The multiple of the spacing nearest to [q > 0], the one with an even
    significand on a tie. *)
Definition nearest (q : Q) : Q := inject_Z (round_half_even (q / ulp q)) * ulp q.

(** The binary64 value nearest to a rational, the Number value for it in
    ECMA-262: an infinity when the nearest multiple reaches 2^1024.  A
    result that rounds to zero is +0. *)
Definition binary64 (q : Q) : number :=
  match Qsign q with
  | Eq => Fin 0
  | s =>
      let r := nearest (Qabs q) in
      if Qle_bool (pow2 1024) r
      then match s with Gt => PosInf | _ => NegInf end
      else Fin (Qred (match s with Gt => r | _ => - r end))
  end.

(** A number that is a binary64 value. *)
Definition is_binary64 (x : number) : bool :=
  match x with
  | Fin q => strict_eq (binary64 q) x
  | _ => true
  end.

(** [Math.floor(x)] *)
Definition Math_floor (x : number) : number :=
  match x with
  | Fin q => Fin (inject_Z (Qfloor q))
  | _ => x
  end.

Section ToString.
Local Open Scope string_scope.
Import Text.

Definition is_integer (q : Q) : bool := Qeq_bool (inject_Z (Qfloor q)) q.

(** [c * 10^j] is read as the binary64 value of [q]. *)
Definition identifies (q : Q) (c j : Z) : bool :=
  strict_eq (binary64 (inject_Z c * pow10 j)) (binary64 q).

(** Number::toString takes the digits [s], as few as possible, and the
    exponent such that [s * 10^j] is read as the value itself; with [k]
    digits ([e] being the decade of [q]) the candidates are the two
    multiples of [10^j] around [q], [j = e + 1 - k], and of two that do
    the nearer is taken, the even one on a tie.  Seventeen digits always
    identify a binary64 value. *)
Fixpoint shortest (fuel : nat) (k : Z) (q : Q) (e : Z) : Z * Z :=
  let j := (e + 1 - k)%Z in
  let lo := Qfloor (q / pow10 j) in
  let hi := (lo + 1)%Z in
  match fuel with
  | O => (round_half_even (q / pow10 j), j)
  | S f =>
      match identifies q lo j, identifies q hi j with
      | true, true =>
          match Qcompare (q - inject_Z lo * pow10 j) (inject_Z hi * pow10 j - q) with
          | Lt => (lo, j)
          | Gt => (hi, j)
          | Eq => (if Z.even lo then lo else hi, j)
          end
      | true, false => (lo, j)
      | false, true => (hi, j)
      | false, false => shortest f (k + 1) q e
      end
  end.

(** The significant decimal digits of [q > 0], without trailing zeros,
    and the exponent [n] such that [q] prints as [0.d1d2...dk * 10^n]. *)
Definition sig_digits (q : Q) : string * Z :=
  let (c, j) := shortest 16 1 q (ilog10 q) in
  let ds := dec (Z.to_N c) in
  (strip_zeros ds, j + Z.of_nat (String.length ds))%Z.

Definition exponent_part (n : Z) : string :=
  "e" ++ (if (n <? 0)%Z then "-" else "+") ++ dec (Z.abs_N n).

(** Number::toString on a positive finite value, from its digits. *)
Definition digits_toString (ds : string) (n : Z) : string :=
  let k := Z.of_nat (String.length ds) in
  if ((k <=? n) && (n <=? 21))%Z then ds ++ zeros (Z.to_nat (n - k))
  else if ((0 <? n) && (n <=? 21))%Z
       then str_take (Z.to_nat n) ds ++ "." ++ str_drop (Z.to_nat n) ds
  else if ((-6 <? n) && (n <=? 0))%Z then "0." ++ zeros (Z.to_nat (- n)) ++ ds
  else if (k =? 1)%Z then ds ++ exponent_part (n - 1)
  else str_take 1 ds ++ "." ++ str_drop 1 ds ++ exponent_part (n - 1).

(** An integer below 2^53 is a binary64 value and no fewer digits than
    its own identify it, so that it prints all its digits; the general
    case goes through [sig_digits]. *)
Definition positive_toString (q : Q) : string :=
  if is_integer q && Qltb q (pow2 53) then dec (Z.to_N (Qfloor q))
  else let (ds, n) := sig_digits q in digits_toString ds n.

(** Number::toString(x), as a template literal applies it. *)
Definition Number_toString (x : number) : string :=
  match x with
  | NaN => "NaN"
  | PosInf => "Infinity"
  | NegInf => "-Infinity"
  | Fin q =>
      match Qsign q with
      | Eq => "0"
      | Lt => "-" ++ positive_toString (- q)
      | Gt => positive_toString q
      end
  end.

(** Fixed notation with [f] fractional digits, for a magnitude [q >= 0]
    below 10^21: the digits of the nearest integer to [q * 10^f], padded
    with zeros to [f + 1] digits, the point before the last [f]. *)
Definition fixed_digits (f : nat) (q : Q) : string :=
  let m := dec (round_half_up (q * pow10 (Z.of_nat f))) in
  match f with
  | O => m
  | _ =>
      let m := if (String.length m <=? f)%nat then zeros (f + 1 - String.length m) ++ m else m in
      let k := String.length m in
      str_take (k - f) m ++ "." ++ str_drop (k - f) m
  end.

(** [x.toFixed(f)]: the sign, then the magnitude, in fixed notation
    below 10^21 and as Number::toString prints it from there on; NaN and
    the infinities print as Number::toString prints them. *)
Definition toFixed (f : nat) (x : number) : string :=
  match x with
  | Fin q =>
      let s := if Qltb q 0 then "-" else "" in
      let a := Qabs q in
      if Qle_bool (pow10 21) a then s ++ Number_toString (Fin a)
      else s ++ fixed_digits f a
  | _ => Number_toString x
  end.

End ToString.

End JS.

Import JS Text.
Local Open Scope string_scope.

(** How a call ends: with a value, or by throwing. *)
Inductive completion (A : Type) : Type :=
| Normal (a : A)
| Throw (message : string).
Arguments Normal {A} a.
Arguments Throw {A} message.

(** The value a call evaluates to, for the methods below. *)
Inductive jsvalue : Type :=
| JSUndefined
| JSString (s : string).

(* ================================================================== *)
(** ** src/utils/Constants.js *)

Module Constants.

Record ANIMATION_DURATION_t := { DISTANCE : number; LIGHT_MAX : number }.
Definition ANIMATION_DURATION : ANIMATION_DURATION_t :=
  {| DISTANCE := Fin 2000; LIGHT_MAX := Fin 10000 |}.

Definition MAX_SELECTIONS : nat := 2.

Record SCALE_DISPLAY_t := { MIN_SIZE : number; MAX_SCREEN_RATIO : number }.
Definition SCALE_DISPLAY : SCALE_DISPLAY_t :=
  {| MIN_SIZE := Fin 10; MAX_SCREEN_RATIO := Fin 0.4 |}.

Module PROPORTIONAL_SIZING.
Definition MIN_SIZE : number := Fin 1.
Definition OVERLAY_SIZE : number := Fin 60.
Definition OVERLAY_OFFSET_Y : number := Fin 120.
Definition CONNECTOR_COLOR : number := Fin 11184810.
End PROPORTIONAL_SIZING.

End Constants.

(* ================================================================== *)
(** ** ScaleCalculator *)

Module ScaleCalculator.
Import Constants.

Definition calculateScreenDiameter (realDiameter screenWidth referenceSize : number)
  : number :=
  let maxScreenSize := mul screenWidth (MAX_SCREEN_RATIO SCALE_DISPLAY) in
  let minScreenSize := MIN_SIZE SCALE_DISPLAY in
  let ratio := div realDiameter referenceSize in
  let screenSize := mul maxScreenSize ratio in
  Math_max minScreenSize (Math_min screenSize maxScreenSize).

Definition formatScale (meters : number) : string :=
  if strict_eq meters (Fin 0) then "0 m"
  else if lt (Math_abs meters) (Fin (1 / 10 ^ 100)) then "~0 m"
  else
    let sign := if lt meters (Fin 0) then "-" else "" in
    let absMeters := Math_abs meters in
    let exponent := Math_floor_log10 absMeters in
    let mantissa := div absMeters (Math_pow10 exponent) in
    sign ++ toFixed 2 mantissa ++ " × 10^" ++ Number_toString exponent ++ " m".

Definition calculateSizeRatio (diameter1 diameter2 : number) : number :=
  let larger := Math_max diameter1 diameter2 in
  let smaller := Math_min diameter1 diameter2 in
  if strict_eq smaller (Fin 0) then PosInf
  else div larger smaller.

Definition formatTime (seconds : number) : string :=
  if lt seconds (Fin 60) then toFixed 3 seconds ++ " seconds"
  else if lt seconds (Fin 3600) then toFixed 2 (div seconds (Fin 60)) ++ " minutes"
  else if lt seconds (Fin 86400) then toFixed 2 (div seconds (Fin 3600)) ++ " hours"
  else if lt seconds (Fin 31536000)
       then toFixed 2 (div seconds (Fin 86400)) ++ " days"
  else toFixed 2 (div seconds (Fin 31536000)) ++ " years".

Section Logarithm.

(** [Math.log1p].  Its values are not rationals, and ECMA-262 leaves them
    to the implementation: the two functions that call it take it as a
    parameter. *)
Variable Math_log1p : number -> number.

Definition realToScreen (realDistance maxRealDistance screenWidth : number) : number :=
  if le realDistance (Fin 0) then Fin 0
  else if le maxRealDistance (Fin 0) then Fin 0
  else
    let logReal := Math_log1p realDistance in
    let logMax := Math_log1p maxRealDistance in
    mul (div logReal logMax) screenWidth.


End Logarithm.

End ScaleCalculator.

(* ================================================================== *)
(** ** ScaleCalculator where a quotient is printed *)

(** [formatScale], [formatTime] and [calculateSizeRatio] hand a quotient
    to [toFixed], and the digits that come out depend on how binary64
    rounds the quotient: 3618 / 3600 is below 1.005 and prints as 1.00,
    41 / 40 is below 1.025 and prints as 1.02.  Here the three functions
    are embedded with the division of binary64.  [Math.log10] and
    [Math.pow], which ECMA-262 leaves to the implementation, are
    parameters of [formatScale]. *)
Module Binary64.

(** [x / y]: the quotient, rounded. *)
Definition div (x y : number) : number :=
  match JS.div x y with
  | Fin q => binary64 q
  | z => z
  end.

(** The literal [1e-100]. *)
Definition literal_1e_100 : number := Eval vm_compute in binary64 (1 / 10 ^ 100).

Module ScaleCalculator.

Section Builtins.

Variable Math_log10 : number -> number.
Variable Math_pow : number -> number -> number.

Definition formatScale (meters : number) : string :=
  if strict_eq meters (Fin 0) then "0 m"
  else if lt (Math_abs meters) literal_1e_100 then "~0 m"
  else
    let sign := if lt meters (Fin 0) then "-" else "" in
    let absMeters := Math_abs meters in
    let exponent := Math_floor (Math_log10 absMeters) in
    let mantissa := div absMeters (Math_pow (Fin 10) exponent) in
    sign ++ toFixed 2 mantissa ++ " × 10^" ++ Number_toString exponent ++ " m".

End Builtins.

Definition calculateSizeRatio (diameter1 diameter2 : number) : number :=
  let larger := Math_max diameter1 diameter2 in
  let smaller := Math_min diameter1 diameter2 in
  if strict_eq smaller (Fin 0) then PosInf
  else div larger smaller.

Definition formatTime (seconds : number) : string :=
  if lt seconds (Fin 60) then toFixed 3 seconds ++ " seconds"
  else if lt seconds (Fin 3600) then toFixed 2 (div seconds (Fin 60)) ++ " minutes"
  else if lt seconds (Fin 86400) then toFixed 2 (div seconds (Fin 3600)) ++ " hours"
  else if lt seconds (Fin 31536000)
       then toFixed 2 (div seconds (Fin 86400)) ++ " days"
  else toFixed 2 (div seconds (Fin 31536000)) ++ " years".

End ScaleCalculator.

End Binary64.

(* ================================================================== *)
(** ** components/comparison/LightSpeedTraveler.js *)

Module LightSpeedTraveler.
Import Constants.

(** The fields the constructor computes; the scene, the two end points and
    the sprites it keeps besides play no part in the timing. *)
Record t := {
  realDistance : number;
  speedOfLight : number;
  travelTime : number;
  animationDuration : number;
  isTimeLapsed : bool;
  speedMultiplier : number
}.

(** [calculateAnimationDuration()] reads [this.travelTime] and assigns
    [animationDuration], [isTimeLapsed] and [speedMultiplier]; the cap is
    the constant [ANIMATION_DURATION.LIGHT_MAX], here the first argument. *)
Definition calculateAnimationDuration (LIGHT_MAX travelTime : number)
  : number * bool * number :=
  let realTimeMs := mul travelTime (Fin 1000) in
  let animationDuration := Math_min realTimeMs LIGHT_MAX in
  if gt realTimeMs LIGHT_MAX
  then (animationDuration, true, div realTimeMs LIGHT_MAX)
  else (animationDuration, false, Fin 1).

(** [new LightSpeedTraveler(scene, startPoint, endPoint, realDistance)],
    [speedOfLight] being the [constants.speedOfLight.value] it reads from
    the initialised DataManager.  The constructor has no [throw] and no
    test of its arguments: it divides, calls [calculateAnimationDuration]
    and returns. *)
Definition new_with (LIGHT_MAX speedOfLight realDistance : number) : completion t :=
  let travelTime := div realDistance speedOfLight in
  let '(animationDuration, isTimeLapsed, speedMultiplier) :=
    calculateAnimationDuration LIGHT_MAX travelTime in
  Normal {| realDistance := realDistance;
            speedOfLight := speedOfLight;
            travelTime := travelTime;
            animationDuration := animationDuration;
            isTimeLapsed := isTimeLapsed;
            speedMultiplier := speedMultiplier |}.

Definition new : number -> number -> completion t :=
  new_with (LIGHT_MAX ANIMATION_DURATION).





End LightSpeedTraveler.

(* ================================================================== *)
(** ** managers/DataManager.js *)

Module DataManager.

Record CosmicObject := {
  id : string;
  name : string;
  diameter : number
}.

Record DistanceData := {
  from : string;
  to : string;
  distance : number;
  lightTravelTime : number
}.

Record CosmicObjects := {
  objects : list CosmicObject;
  distances : list DistanceData
}.

Record t := {
  cosmicObjects : CosmicObjects;
  objectsById : gmap string CosmicObject;
  distanceCache : gmap string DistanceData
}.

(** The template literal [`${a}-${b}`]. *)
Definition key (a b : string) : string := a ++ "-" ++ b.

(** [buildIndexes()]: both maps are cleared, then filled in array order,
    a later [set] replacing an earlier one under the same key. *)
Definition buildIndexes (self : t) : t :=
  {| cosmicObjects := cosmicObjects self;
     objectsById :=
       foldl (fun m obj => <[id obj := obj]> m) ∅ (objects (cosmicObjects self));
     distanceCache :=
       foldl (fun m dist => <[key (from dist) (to dist) := dist]> m) ∅
             (distances (cosmicObjects self)) |}.

(** [getDistance(fromId, toId)]: a record is an object, hence truthy, so
    [get(key1) || get(key2)] is the first of the two that is present;
    [None] is [undefined] (the warning logged with it is left out). *)
Definition getDistance (self : t) (fromId toId : string) : option DistanceData :=
  let key1 := key fromId toId in
  let key2 := key toId fromId in
  match distanceCache self !! key1 with
  | Some distance => Some distance
  | None => distanceCache self !! key2
  end.

(** A manager as [loadAllData] leaves it, from the parsed JSON. *)
Definition load (data : CosmicObjects) : t :=
  buildIndexes {| cosmicObjects := data; objectsById := ∅; distanceCache := ∅ |}.

(** [getObjectById(id)]: [None] is [undefined]. *)
Definition getObjectById (self : t) (objectId : string) : option CosmicObject :=
  objectsById self !! objectId.

(** [getAllObjects()] *)
Definition getAllObjects (self : t) : list CosmicObject :=
  objects (cosmicObjects self).

(** A value of a parsed JSON file. *)
#[warnings="-register-all"] Inductive json : Type :=
| JNull
| JBool (b : bool)
| JNumber (n : number)
| JString (s : string)
| JArray (items : list json)
| JObject (members : list (string * json)).

(** What [validateData] throws: [new Error(message)], or the TypeError
    of the engine (reading a property of null, calling what is not a
    function), whose message is the engine's. *)
Inductive exception : Type :=
| Error (message : string)
| TypeError.

Inductive outcome : Type :=
| Returns
| Throws (e : exception).

(** The test [!v] fails: [undefined] ([None]), null, false, 0, NaN and
    the empty string are the values that are not truthy. *)
Definition truthy (v : option json) : bool :=
  match v with
  | None | Some JNull => false
  | Some (JBool b) => b
  | Some (JNumber (Fin q)) => negb (Qeq_bool q 0)
  | Some (JNumber NaN) => false
  | Some (JNumber _) => true
  | Some (JString EmptyString) => false
  | Some (JString _) => true
  | Some (JArray _) | Some (JObject _) => true
  end.

(** [v.k] for a value that is not null, [k] being one of the six names
    [validateData] reads, which no prototype defines: the member of an
    object, the last one of that name as [JSON.parse] keeps it, and
    [undefined] on any other value. *)
Definition member (k : string) (v : json) : option json :=
  match v with
  | JObject members =>
      fold_left (fun found '(k', x) => if String.eqb k' k then Some x else found)
                members None
  | _ => None
  end.

(** The [forEach] of [validateData]: reading a property of a null entry
    throws a TypeError; the first entry that fails the test throws, with
    its index. *)
Fixpoint validateObjects (index : nat) (items : list json) : outcome :=
  match items with
  | [] => Returns
  | JNull :: _ => Throws TypeError
  | obj :: rest =>
      if negb (truthy (member "id" obj)) || negb (truthy (member "name" obj))
         || match member "diameter" obj with None => true | Some _ => false end
      then Throws (Error ("Invalid object at index " ++ dec (N.of_nat index)
                          ++ ": missing required fields (id, name, diameter)"))
      else validateObjects (S index) rest
  end.

(** [validateData()] on [this.cosmicObjects] and [this.constants], each
    [undefined] ([None]) or a parsed file.  A property is only read from
    a truthy value.  [forEach] is a method of arrays only. *)
Definition validateData (cosmicObjects constants : option json) : outcome :=
  if negb (truthy cosmicObjects) || negb (truthy (cosmicObjects ≫= member "objects"))
  then Throws (Error "Invalid cosmic-objects.json: missing objects array")
  else if negb (truthy (cosmicObjects ≫= member "distances"))
  then Throws (Error "Invalid cosmic-objects.json: missing distances array")
  else if negb (truthy constants) || negb (truthy (constants ≫= member "speedOfLight"))
  then Throws (Error "Invalid physical-constants.json: missing speedOfLight")
  else
    match cosmicObjects ≫= member "objects" with
    | Some (JArray items) => validateObjects 0 items
    | _ => Throws TypeError
    end.

End DataManager.

(* ================================================================== *)
(** ** The selection: StateManager and ObjectSelector *)

(** What a method does besides updating the selection. *)
Inductive effect : Type :=
| ConsoleLog (message : string) (args : list string)
| Emit (event : string) (payload : list string)
| DeselectCard (objectId : string)
| SelectCard (objectId : string).

(** The outcome of a method call: the selection it leaves, the value the
    call evaluates to, and its effects in order. *)
Record call := {
  selection : list string;
  returned : jsvalue;
  effects : list effect
}.

(** [Array.prototype.shift]: the first element, if any, and the rest. *)
Definition shift (a : list string) : option string * list string :=
  match a with
  | [] => (None, [])
  | x :: r => (Some x, r)
  end.

(** How a template literal prints what [shift] returned. *)
Definition show (x : option string) : string :=
  match x with
  | Some s => s
  | None => "undefined"
  end.

Module StateManager.
Import Constants.
Local Open Scope list_scope.

(** [selectObject(objectId)] on [state.comparison.selectedObjects]. *)
Definition selectObject (objectId : string) (selectedObjects : list string) : call :=
  let '(selectedObjects, log1) :=
    if (MAX_SELECTIONS <=? length selectedObjects)%nat
    then let (removed, rest) := shift selectedObjects in
         (rest,
          [ConsoleLog ("[StateManager] Max selections reached. Removed: " ++ show removed)%string []])
    else (selectedObjects, []) in
  let selectedObjects := selectedObjects ++ [objectId] in
  {| selection := selectedObjects;
     returned := JSUndefined;
     effects :=
       log1 ++
       [ConsoleLog ("[StateManager] Object selected: " ++ objectId)%string [];
        ConsoleLog "[StateManager] Selected objects:" selectedObjects;
        Emit "objectSelected" [objectId]] ++
       (if (length selectedObjects =? MAX_SELECTIONS)%nat
        then [Emit "selectionComplete" selectedObjects]
        else []) |}.

(** [clearSelection()] *)
Definition clearSelection (selectedObjects : list string) : call :=
  {| selection := [];
     returned := JSUndefined;
     effects := [ConsoleLog "[StateManager] Selection cleared" [];
                 Emit "selectionCleared" []] |}.

(** The whole of [this.state], as the constructor lays it out. *)
Record app_t := {
  currentMode : option string;
  isAnimating : bool;
  isPaused : bool
}.

Record comparison_t := {
  selectedObjects : list string;
  animationPhase : string
}.

Record powersOfTen_t := {
  currentExponent : number;
  currentLevel : option string;
  zoomVelocity : number;
  visibleObjects : list string
}.

Record ui_t := {
  infoPanelOpen : bool;
  selectedInfoObject : option string;
  helpVisible : bool
}.

Record state := {
  app : app_t;
  comparison : comparison_t;
  powersOfTen : powersOfTen_t;
  ui : ui_t
}.

(** What [emit] is called with by the methods below. *)
Inductive argument : Type :=
| ABool (b : bool)
| AString (s : string)
| ANumber (x : number)
| ANull.

Record emitted := {
  event : string;
  args : list argument
}.

(** The state the constructor builds. *)
Definition new : state :=
  {| app := {| currentMode := None; isAnimating := false; isPaused := false |};
     comparison := {| selectedObjects := []; animationPhase := "selection" |};
     powersOfTen := {| currentExponent := Fin 0; currentLevel := None;
                       zoomVelocity := Fin 0; visibleObjects := [] |};
     ui := {| infoPanelOpen := false; selectedInfoObject := None;
              helpVisible := false |} |}.

(** [setAnimating(isAnimating)]: nothing is written and nothing emitted
    when the value is the one already there. *)
Definition setAnimating (value : bool) (s : state) : state * list emitted :=
  if negb (Bool.eqb (isAnimating (app s)) value)
  then ({| app := {| currentMode := currentMode (app s);
                     isAnimating := value;
                     isPaused := isPaused (app s) |};
           comparison := comparison s;
           powersOfTen := powersOfTen s;
           ui := ui s |},
        [{| event := "animationStateChanged"; args := [ABool value] |}])
  else (s, []).

(** [toggleHelp()] *)
Definition toggleHelp (s : state) : state * list emitted :=
  let visible := negb (helpVisible (ui s)) in
  ({| app := app s;
      comparison := comparison s;
      powersOfTen := powersOfTen s;
      ui := {| infoPanelOpen := infoPanelOpen (ui s);
               selectedInfoObject := selectedInfoObject (ui s);
               helpVisible := visible |} |},
   [{| event := "helpVisibilityChanged"; args := [ABool visible] |}]).

End StateManager.

Module ObjectSelector.
Import Constants.
Local Open Scope list_scope.

(** [selectObject(objectId)] on [this.selectedIds], [maxSelections] being
    the field the constructor sets to [MAX_SELECTIONS]. *)
Definition selectObject_with (maxSelections : nat) (objectId : string)
  (selectedIds : list string) : call :=
  let log0 := ConsoleLog ("[ObjectSelector] Selecting object: " ++ objectId)%string [] in
  let '(selectedIds, fx1) :=
    if (maxSelections <=? length selectedIds)%nat
    then let (removedId, rest) := shift selectedIds in
         (rest,
          [ConsoleLog ("[ObjectSelector] Max selections reached. Removed: " ++ show removedId)%string []]
          ++ match removedId with
             | Some r => [DeselectCard r]
             | None => []
             end)
    else (selectedIds, []) in
  let selectedIds := selectedIds ++ [objectId] in
  {| selection := selectedIds;
     returned := JSUndefined;
     effects :=
       [log0] ++ fx1 ++
       [SelectCard objectId;
        ConsoleLog "[ObjectSelector] Current selection:" selectedIds;
        Emit "objectSelected" [objectId]] ++
       (if (length selectedIds =? maxSelections)%nat
        then [ConsoleLog "[ObjectSelector] Selection complete:" selectedIds;
              Emit "selectionComplete" selectedIds]
        else []) |}.

Definition selectObject : string -> list string -> call :=
  selectObject_with MAX_SELECTIONS.

(** [clearSelection()] *)
Definition clearSelection (selectedIds : list string) : call :=
  {| selection := [];
     returned := JSUndefined;
     effects :=
       [ConsoleLog "[ObjectSelector] Clearing selection" []] ++
       map DeselectCard selectedIds ++
       [Emit "selectionCleared" []] |}.

(** [objectCards], from an object id to the [isSelected] flag of its
    card, as [create()] fills it from [this.objects]. *)
Definition createCards (objects : list DataManager.CosmicObject) : gmap string bool :=
  foldl (fun m obj => <[DataManager.id obj := false]> m) ∅ objects.

(** [this.objects.find(o => o.id === objectId)] *)
Definition findObject (objects : list DataManager.CosmicObject) (objectId : string)
  : option DataManager.CosmicObject :=
  List.find (fun o => String.eqb (DataManager.id o) objectId) objects.

(** [selectCard(objectId)] and [deselectCard(objectId)]: nothing happens
    without a card or without an object of that id. *)
Definition setCard (isSelected : bool) (objects : list DataManager.CosmicObject)
  (objectId : string) (objectCards : gmap string bool) : gmap string bool :=
  match objectCards !! objectId with
  | None => objectCards
  | Some _ =>
      match findObject objects objectId with
      | None => objectCards
      | Some _ => <[objectId := isSelected]> objectCards
      end
  end.

Definition selectCard := setCard true.
Definition deselectCard := setCard false.

(** The cards after a call, from the card calls the method makes. *)
Definition card_effect (objects : list DataManager.CosmicObject)
  (objectCards : gmap string bool) (e : effect) : gmap string bool :=
  match e with
  | SelectCard objectId => selectCard objects objectId objectCards
  | DeselectCard objectId => deselectCard objects objectId objectCards
  | _ => objectCards
  end.

Definition cards_after (objects : list DataManager.CosmicObject) (c : call)
  (objectCards : gmap string bool) : gmap string bool :=
  fold_left (card_effect objects) (effects c) objectCards.

End ObjectSelector.

(* ================================================================== *)
(** ** The singletons: DataManager and StateManager *)

(** Both classes keep a static [instance], a [getInstance()] that fills
    it, and a constructor that throws once it is filled.  Objects are
    told apart by the order they were made in; [className] is
    ["DataManager"] or ["StateManager"]. *)
Module Singleton.

Record statics := {
  instance : option nat;
  constructed : nat
}.

(** [static instance = null], no object made yet. *)
Definition initial : statics := {| instance := None; constructed := 0 |}.

(** [new DataManager()]: the new object, and the statics, which the
    constructor reads and does not write. *)
Definition construct (className : string) (st : statics) : completion (nat * statics) :=
  match instance st with
  | Some _ => Throw (className ++ " already instantiated. Use getInstance()")
  | None =>
      Normal (constructed st,
              {| instance := instance st; constructed := S (constructed st) |})
  end.

(** [DataManager.getInstance()] *)
Definition getInstance (className : string) (st : statics) : completion (nat * statics) :=
  match instance st with
  | Some object => Normal (object, st)
  | None =>
      match construct className st with
      | Normal (object, st') =>
          Normal (object, {| instance := Some object; constructed := constructed st' |})
      | Throw message => Throw message
      end
  end.

End Singleton.

(* ================================================================== *)
(** ** The selection as a shared array *)

(** In the two selection classes above a method is a function of the
    selection.  Here the selection is what it is in the program: an array
    that the object refers to, that [shift] and [push] update in place and
    that a listener may keep.  The heap holds the arrays allocated so far,
    a reference is an address in it; [this] is the reference the object
    holds before the call, the first component of the result the one it
    holds after it.  Console output is left out. *)
Module SharedArrays.
Import Constants.
Local Open Scope list_scope.

Definition ref := nat.
Definition heap := list (list string).

Definition read (h : heap) (r : ref) : list string := default [] (h !! r).
Definition write (h : heap) (r : ref) (a : list string) : heap := <[r := a]> h.
Definition alloc (h : heap) (a : list string) : ref * heap := (length h, h ++ [a]).

(** What [emit] is called with. *)
Inductive argument : Type :=
| AString (s : string)
| AArray (r : ref).

Record emitted := {
  event : string;
  args : list argument
}.

(** [a.shift()] and [a.push(x)] *)
Definition shift_in_place (h : heap) (a : ref) : heap :=
  write h a (snd (shift (read h a))).

Definition push (h : heap) (a : ref) (x : string) : heap :=
  write h a (read h a ++ [x]).

(** [StateManager.selectObject(objectId)]: ['selectionComplete'] carries
    [this.state.comparison.selectedObjects] itself. *)
Definition StateManager_selectObject (objectId : string) (this : ref) (h : heap)
  : ref * heap * list emitted :=
  let h := if (MAX_SELECTIONS <=? length (read h this))%nat
           then shift_in_place h this else h in
  let h := push h this objectId in
  (this, h,
   {| event := "objectSelected"; args := [AString objectId] |} ::
   (if (length (read h this) =? MAX_SELECTIONS)%nat
    then [{| event := "selectionComplete"; args := [AArray this] |}]
    else [])).

(** [StateManager.clearSelection()]: a new empty array takes the place of
    the old one. *)
Definition StateManager_clearSelection (this : ref) (h : heap)
  : ref * heap * list emitted :=
  let (empty, h) := alloc h [] in
  (empty, h, [{| event := "selectionCleared"; args := [] |}]).

(** [StateManager.getSelectedObjects()]: a copy, [[...selectedObjects]]. *)
Definition StateManager_getSelectedObjects (this : ref) (h : heap) : ref * heap :=
  alloc h (read h this).

(** [ObjectSelector.selectObject(objectId)]: ['selectionComplete'] carries
    a copy, [[...this.selectedIds]]. *)
Definition ObjectSelector_selectObject (objectId : string) (this : ref) (h : heap)
  : ref * heap * list emitted :=
  let h := if (MAX_SELECTIONS <=? length (read h this))%nat
           then shift_in_place h this else h in
  let h := push h this objectId in
  if (length (read h this) =? MAX_SELECTIONS)%nat
  then let (copy, h) := alloc h (read h this) in
       (this, h,
        [{| event := "objectSelected"; args := [AString objectId] |};
         {| event := "selectionComplete"; args := [AArray copy] |}])
  else (this, h, [{| event := "objectSelected"; args := [AString objectId] |}]).

(** [ObjectSelector.clearSelection()] *)
Definition ObjectSelector_clearSelection (this : ref) (h : heap)
  : ref * heap * list emitted :=
  let (empty, h) := alloc h [] in
  (empty, h, [{| event := "selectionCleared"; args := [] |}]).

End SharedArrays.

(* ================================================================== *)
(** ** components/comparison/ScaleDisplay *)

Module ScaleDisplay.
Import ScaleCalculator DataManager.

(** A circle as [scene.add.circle(x, y, radius, colour)] makes it; the
    colour plays no part below. *)
Record circle := {
  x : number;
  y : number;
  radius : number
}.

Record t := {
  obj1Sprite : option circle;
  obj2Sprite : option circle;
  obj1Data : option CosmicObject;
  obj2Data : option CosmicObject;
  ratioText : option string
}.

Definition new : t :=
  {| obj1Sprite := None; obj2Sprite := None;
     obj1Data := None; obj2Data := None; ratioText := None |}.

(** [displayObjects(obj1Id, obj2Id)], the camera being [screenWidth] by
    [screenHeight]: without one of the objects it logs an error and
    returns.  The four labels of [createLabels] are not kept in a field. *)
Definition displayObjects (dataManager : DataManager.t)
  (screenWidth screenHeight : number) (obj1Id obj2Id : string) (self : t) : t :=
  match getObjectById dataManager obj1Id, getObjectById dataManager obj2Id with
  | Some obj1, Some obj2 =>
      let larger := if gt (diameter obj1) (diameter obj2) then obj1 else obj2 in
      let smaller := if gt (diameter obj1) (diameter obj2) then obj2 else obj1 in
      let largerSize :=
        calculateScreenDiameter (diameter larger) screenWidth (diameter larger) in
      let smallerSize :=
        calculateScreenDiameter (diameter smaller) screenWidth (diameter larger) in
      let ratio :=
        Binary64.ScaleCalculator.calculateSizeRatio (diameter larger) (diameter smaller) in
      {| obj1Data := Some larger;
         obj2Data := Some smaller;
         obj1Sprite := Some {| x := div screenWidth (Fin 3);
                               y := div screenHeight (Fin 2);
                               radius := div largerSize (Fin 2) |};
         obj2Sprite := Some {| x := div (mul (Fin 2) screenWidth) (Fin 3);
                               y := div screenHeight (Fin 2);
                               radius := div smallerSize (Fin 2) |};
         ratioText := Some (name larger ++ " is " ++ toFixed 2 ratio
                            ++ "× larger than " ++ name smaller) |}
  | _, _ => self
  end.

End ScaleDisplay.

(* ================================================================== *)
(** ** components/comparison/ObjectOverlay.js *)

Module ObjectOverlay.
Import Constants.

Record circle := {
  x : number;
  y : number;
  radius : number
}.

Record line := {
  x1 : number;
  y1 : number;
  x2 : number;
  y2 : number
}.

Record label := {
  label_x : number;
  label_y : number;
  text : string
}.

Record config_t := {
  config_overlaySize : option number;
  config_overlayOffsetY : option number;
  config_connectorColor : option number
}.

(** The six elements [create()] makes; they are [null] together before
    it and after [destroy()]. *)
Record elements := {
  actualSprite : circle;
  overlaySprite : circle;
  connectorLine : line;
  connectorArrow : number * number;
  actualLabel : label;
  overlayLabel : label
}.

Record t := {
  overlaySize : number;
  overlayOffsetY : number;
  connectorColor : number;
  created : option elements
}.

(** [v || d] for a number that may be missing: 0 and NaN are falsy. *)
Definition or_default (v : option number) (d : number) : number :=
  match v with
  | None | Some NaN => d
  | Some (Fin q) => if Qeq_bool q 0 then d else Fin q
  | Some x => x
  end.

(** [new ObjectOverlay(scene, config)] *)
Definition new (config : config_t) : t :=
  {| overlaySize := or_default (config_overlaySize config) PROPORTIONAL_SIZING.OVERLAY_SIZE;
     overlayOffsetY :=
       or_default (config_overlayOffsetY config) PROPORTIONAL_SIZING.OVERLAY_OFFSET_Y;
     connectorColor :=
       or_default (config_connectorColor config) PROPORTIONAL_SIZING.CONNECTOR_COLOR;
     created := None |}.

Definition no_config : config_t :=
  {| config_overlaySize := None; config_overlayOffsetY := None;
     config_connectorColor := None |}.

(** [create(actualSize, actualPosition, objectColor, objectName)], the
    position being [(px, py)]; the colour plays no part in the layout. *)
Definition create (actualSize px py : number) (objectName : string) (self : t) : t :=
  let overlayX := px in
  let overlayY := sub py (overlayOffsetY self) in
  let arrowSize := Fin 6 in
  let arrowX := overlayX in
  let arrowY := add (add overlayY (div (overlaySize self) (Fin 2))) (Fin 5) in
  {| overlaySize := overlaySize self;
     overlayOffsetY := overlayOffsetY self;
     connectorColor := connectorColor self;
     created := Some
       {| actualSprite := {| x := px; y := py; radius := div actualSize (Fin 2) |};
          overlaySprite :=
            {| x := overlayX; y := overlayY; radius := div (overlaySize self) (Fin 2) |};
          connectorLine :=
            {| x1 := px;
               y1 := sub (sub py (div actualSize (Fin 2))) (Fin 5);
               x2 := overlayX;
               y2 := add (add overlayY (div (overlaySize self) (Fin 2))) (Fin 5) |};
          connectorArrow := (arrowX, add arrowY arrowSize);
          actualLabel :=
            {| label_x := px;
               label_y := add (add py (div actualSize (Fin 2))) (Fin 20);
               text := "(" ++ toFixed 2 actualSize ++ "px)" |};
          overlayLabel :=
            {| label_x := overlayX;
               label_y := sub (sub overlayY (div (overlaySize self) (Fin 2))) (Fin 15);
               text := objectName |} |} |}.

(** [updatePosition(x, y)]: it returns at once before [create()]. *)
Definition updatePosition (px py : number) (self : t) : t :=
  match created self with
  | None => self
  | Some e =>
      let actualSize := mul (radius (actualSprite e)) (Fin 2) in
      let overlayX := px in
      let overlayY := sub py (overlayOffsetY self) in
      let arrowSize := Fin 6 in
      let arrowX := overlayX in
      let arrowY := add (add overlayY (div (overlaySize self) (Fin 2))) (Fin 5) in
      {| overlaySize := overlaySize self;
         overlayOffsetY := overlayOffsetY self;
         connectorColor := connectorColor self;
         created := Some
           {| actualSprite := {| x := px; y := py; radius := radius (actualSprite e) |};
              overlaySprite :=
                {| x := overlayX; y := overlayY; radius := radius (overlaySprite e) |};
              connectorLine :=
                {| x1 := px;
                   y1 := sub (sub py (div actualSize (Fin 2))) (Fin 5);
                   x2 := overlayX;
                   y2 := add (add overlayY (div (overlaySize self) (Fin 2))) (Fin 5) |};
              connectorArrow := (arrowX, add arrowY arrowSize);
              actualLabel :=
                {| label_x := px;
                   label_y := add (add py (div actualSize (Fin 2))) (Fin 20);
                   text := text (actualLabel e) |};
              overlayLabel :=
                {| label_x := overlayX;
                   label_y := sub (sub overlayY (div (overlaySize self) (Fin 2))) (Fin 15);
                   text := text (overlayLabel e) |} |} |}
  end.

End ObjectOverlay.

(* ================================================================== *)
(** ** components/comparison/DistanceAnimator *)

Module DistanceAnimator.
Import Constants ScaleCalculator DataManager.


Record t := {
  connectionLine : option ObjectOverlay.line;
  distanceText : option string;
  overlay1 : option ObjectOverlay.t;
  overlay2 : option ObjectOverlay.t;
  obj1Size : option number;
  obj2Size : option number
}.

Definition new : t :=
  {| connectionLine := None; distanceText := None;
     overlay1 := None; overlay2 := None; obj1Size := None; obj2Size := None |}.

Section Logarithm.
Variable Math_log1p : number -> number.


End Logarithm.

End DistanceAnimator.

(* ================================================================== *)
(** * The vocabulary of the statements *)

(** What does not start with a digit stops a span of digits. *)
Definition stops (t : string) : bool :=
  match t with
  | EmptyString => true
  | String c _ => negb (is_digit c)
  end.

(** ** Sequences of selections *)

(** A user action on the selection, and the selection a sequence of
    actions leaves when it starts from the empty one. *)
Inductive operation : Type :=
| Select (objectId : string)
| Clear.

Definition StateManager_step (s : list string) (o : operation) : list string :=
  match o with
  | Select objectId => selection (StateManager.selectObject objectId s)
  | Clear => selection (StateManager.clearSelection s)
  end.

Definition ObjectSelector_step (s : list string) (o : operation) : list string :=
  match o with
  | Select objectId => selection (ObjectSelector.selectObject objectId s)
  | Clear => selection (ObjectSelector.clearSelection s)
  end.

Definition StateManager_run (ops : list operation) : list string :=
  fold_left StateManager_step ops [].

Definition ObjectSelector_run (ops : list operation) : list string :=
  fold_left ObjectSelector_step ops [].

(** ** Record sets of the distance index *)

(** An id without the separator of the keys. *)
Fixpoint hyphen_free (s : string) : bool :=
  match s with
  | EmptyString => true
  | String c r => negb (Ascii.eqb c "-") && hyphen_free r
  end.

(** [r1] is [r2] the other way round, the two ends being different. *)
Definition reverse_of (r1 r2 : DataManager.DistanceData) : bool :=
  String.eqb (DataManager.from r1) (DataManager.to r2) &&
  String.eqb (DataManager.to r1) (DataManager.from r2) &&
  negb (String.eqb (DataManager.from r1) (DataManager.to r1)).

(** No unordered pair is stored in both directions. *)
Definition single_direction (ds : list DataManager.DistanceData) : bool :=
  forallb (fun r1 => forallb (fun r2 => negb (reverse_of r1 r2)) ds) ds.

(** The distance cache [buildIndexes] makes of a list of records. *)
Definition cache_of (ds : list DataManager.DistanceData)
  : gmap string DataManager.DistanceData :=
  foldl (fun m dist =>
           <[DataManager.key (DataManager.from dist) (DataManager.to dist) := dist]> m)
        ∅ ds.

(** Sample records: the pair of the documentation, two pairs whose keys
    cross, two pairs that share one key. *)
Definition earth_moon : DataManager.DistanceData :=
  {| DataManager.from := "earth"; DataManager.to := "moon";
     DataManager.distance := Fin 384400000;
     DataManager.lightTravelTime := Fin 1.282 |}.

Definition x_to_yx : DataManager.DistanceData :=
  {| DataManager.from := "x"; DataManager.to := "y-x";
     DataManager.distance := Fin 1; DataManager.lightTravelTime := Fin 1 |}.
Definition y_to_xx : DataManager.DistanceData :=
  {| DataManager.from := "y"; DataManager.to := "x-x";
     DataManager.distance := Fin 2; DataManager.lightTravelTime := Fin 2 |}.

Definition ab_to_c : DataManager.DistanceData :=
  {| DataManager.from := "a-b"; DataManager.to := "c";
     DataManager.distance := Fin 1; DataManager.lightTravelTime := Fin 1 |}.
Definition a_to_bc : DataManager.DistanceData :=
  {| DataManager.from := "a"; DataManager.to := "b-c";
     DataManager.distance := Fin 2; DataManager.lightTravelTime := Fin 2 |}.

(** ** Reading a formatted scale back *)

(** What a reader of ["<sign><mantissa> × 10^<exponent> m"] gets: the
    sign, the mantissa in hundredths, the exponent. *)
Record scale_reading := {
  negative : bool;
  hundredths : N;
  exponent10 : Z
}.

Definition mantissa_of (r : scale_reading) : Q :=
  inject_Z (Z.of_N (hundredths r)) / 100.

Definition strip_minus (s : string) : bool * string :=
  match strip_prefix "-" s with
  | Some r => (true, r)
  | None => (false, s)
  end.

(** An optional minus sign, digits, a point, two digits, [" × 10^"], an
    optional minus sign, digits, [" m"]. *)
Definition parseScale (s : string) : option scale_reading :=
  let (neg, s) := strip_minus s in
  let (ip, s) := span_digits s in
  match strip_prefix "." s with
  | None => None
  | Some s =>
      let (fp, s) := span_digits s in
      match strip_prefix " × 10^" s with
      | None => None
      | Some s =>
          let (eneg, s) := strip_minus s in
          let (ed, s) := span_digits s in
          if (0 <? String.length ip)%nat && (String.length fp =? 2)%nat
             && String.eqb s " m"
          then match value (ip ++ fp), value ed with
               | Some h, Some e =>
                   Some {| negative := neg;
                           hundredths := h;
                           exponent10 := if eneg then (- Z.of_N e)%Z else Z.of_N e |}
               | _, _ => None
               end
          else None
      end
  end.

(** ** Decimal places *)

(** [q] printed with [f] decimal places: the sign, the integer digits, a
    point and [f] digits of the nearest multiple of [10^-f]. *)
Definition decimal_places (f : nat) (q : Q) : string :=
  ((if Qltb q 0 then "-" else "") ++ fixed_digits f (Qabs q))%string.

(** ** Quotients in binary64 *)

(** The quotient of two finite numbers as binary64 gives it, when it is
    finite. *)
Definition quotient (p q : Q) : Q :=
  match Binary64.div (Fin p) (Fin q) with
  | Fin r => r
  | _ => 0
  end.

(** The greatest binary64 value below 31536000e21, the first number of
    seconds that is 10^21 years. *)
Definition last_fixed_years : Q := 31535999999999994600420802560.

(** ** What is asked of [Math.pow] *)

(** [Math.pow(10, k)] is a finite number within 2^-51 of [10^k],
    relatively: the binary64 value nearest to [10^k], or one next to
    it. *)
Definition pow_accurate (Math_pow : number -> number -> number) (k : Z) : Prop :=
  exists p : Q,
    Math_pow (Fin 10) (Fin (inject_Z k)) = Fin p /\
    Qabs (p - pow10 k) <= pow10 k * pow2 (-51).

(** A [Math.pow] that rounds the powers of ten to nearest. *)
Definition pow10_nearest (base exponent : number) : number :=
  match exponent with
  | Fin q => binary64 (pow10 (Qfloor q))
  | _ => NaN
  end.

(** ** Indexes and validation *)

(** The key [buildIndexes] stores a distance record under. *)
Definition key_of (r : DataManager.DistanceData) : string :=
  DataManager.key (DataManager.from r) (DataManager.to r).

Definition invalid_object_message (index : nat) : string :=
  "Invalid object at index " ++ dec (N.of_nat index)
  ++ ": missing required fields (id, name, diameter)".

(** The values of a JSON file that pass a test [if (v)]: all but null,
    false, 0 and the empty string. *)
Inductive is_truthy : DataManager.json -> Prop :=
| truthy_true : is_truthy (DataManager.JBool true)
| truthy_finite (q : Q) : ~ q == 0 -> is_truthy (DataManager.JNumber (Fin q))
| truthy_PosInf : is_truthy (DataManager.JNumber PosInf)
| truthy_NegInf : is_truthy (DataManager.JNumber NegInf)
| truthy_string (c : ascii) (s : string) : is_truthy (DataManager.JString (String c s))
| truthy_array (items : list DataManager.json) : is_truthy (DataManager.JArray items)
| truthy_object (members : list (string * DataManager.json)) :
    is_truthy (DataManager.JObject members).

(** An entry of the objects array with a truthy id, a truthy name and a
    diameter, whatever it is. *)
Definition has_required_fields (obj : DataManager.json) : Prop :=
  (exists x, DataManager.member "id" obj = Some x /\ is_truthy x) /\
  (exists x, DataManager.member "name" obj = Some x /\ is_truthy x) /\
  (exists x, DataManager.member "diameter" obj = Some x).

(** A file in which an object has a number for id, [true] for name and
    null for diameter, the distances are a number and the speed of light
    is a string. *)
Definition loosely_typed_objects : DataManager.json :=
  DataManager.JObject
    [("objects",
      DataManager.JArray
        [DataManager.JObject [("id", DataManager.JNumber (Fin 5));
                              ("name", DataManager.JBool true);
                              ("diameter", DataManager.JNull)]]);
     ("distances", DataManager.JNumber (Fin 1))].

Definition loosely_typed_constants : DataManager.json :=
  DataManager.JObject [("speedOfLight", DataManager.JString "fast")].

(** Sample objects and a second sample distance. *)
Definition earth : DataManager.CosmicObject :=
  {| DataManager.id := "earth"; DataManager.name := "Earth";
     DataManager.diameter := Fin 12742000 |}.
Definition moon : DataManager.CosmicObject :=
  {| DataManager.id := "moon"; DataManager.name := "Moon";
     DataManager.diameter := Fin 3474800 |}.
Definition sun : DataManager.CosmicObject :=
  {| DataManager.id := "sun"; DataManager.name := "Sun";
     DataManager.diameter := Fin 1392700000 |}.

Definition earth_sun : DataManager.DistanceData :=
  {| DataManager.from := "earth"; DataManager.to := "sun";
     DataManager.distance := Fin 149600000000;
     DataManager.lightTravelTime := Fin 499 |}.

Definition sample_data : DataManager.CosmicObjects :=
  {| DataManager.objects := [earth; moon; sun];
     DataManager.distances := [earth_moon; earth_sun] |}.

(** ** The selection in closed form *)

(** The ids selected since the last [Clear], in order. *)
Definition selected_since_clear (ops : list operation) : list string :=
  fold_left (fun acc o => match o with
                          | Select objectId => acc ++ [objectId]
                          | Clear => []
                          end)%list ops [].

(** The last two elements of a list, in order. *)
Definition last_two (l : list string) : list string := rev (firstn 2 (rev l)).

(** The payloads with which a call emits [event], in order. *)
Definition emitted_with (event : string) (c : call) : list (list string) :=
  flat_map (fun e => match e with
                     | Emit ev payload => if String.eqb ev event then [payload] else []
                     | _ => []
                     end) (effects c).

(** ** What is asked of [Math.log1p] *)

(** On a positive finite number [Math.log1p] is a positive finite number,
    and it does not decrease. *)
Definition log1p_positive (f : number -> number) : Prop :=
  forall q : Q, 0 < q -> exists r : Q, f (Fin q) = Fin r /\ 0 < r.

Definition log1p_monotone (f : number -> number) : Prop :=
  forall p q r s : Q,
    0 < p -> p <= q -> f (Fin p) = Fin r -> f (Fin q) = Fin s -> r <= s.

(** A function with these two properties: [x] itself, which bounds
    [log(1 + x)] from above. *)
Definition log1p_upper_bound (x : number) : number := x.

(** ** The cards of the selector *)

(** The selector after a sequence of actions, from the cards [create()]
    makes: its selection and its cards. *)
Definition ObjectSelector_step_cards (objects : list DataManager.CosmicObject)
  (st : list string * gmap string bool) (o : operation) : list string * gmap string bool :=
  let c := match o with
           | Select objectId => ObjectSelector.selectObject objectId (fst st)
           | Clear => ObjectSelector.clearSelection (fst st)
           end in
  (selection c, ObjectSelector.cards_after objects c (snd st)).

Definition ObjectSelector_run_cards (objects : list DataManager.CosmicObject)
  (ops : list operation) : list string * gmap string bool :=
  fold_left (ObjectSelector_step_cards objects) ops ([], ObjectSelector.createCards objects).

(** The card of [objectId] shows as selected. *)
Definition highlighted (objectCards : gmap string bool) (objectId : string) : bool :=
  match objectCards !! objectId with
  | Some true => true
  | _ => false
  end.

(** There is an object, hence a card, of that id. *)
Definition has_card (objects : list DataManager.CosmicObject) (objectId : string) : bool :=
  match ObjectSelector.findObject objects objectId with
  | Some _ => true
  | None => false
  end.

(** The cards are those of the objects. *)
Definition cards_of_objects (objects : list DataManager.CosmicObject)
  (objectCards : gmap string bool) : Prop :=
  forall i : string, is_Some (objectCards !! i) <-> has_card objects i = true.

(** No id is selected twice in a row (a [Clear] in between apart). *)
Fixpoint no_repeat_from (previous : option string) (ops : list operation) : bool :=
  match ops with
  | [] => true
  | Select objectId :: rest =>
      negb (match previous with
            | Some p => String.eqb p objectId
            | None => false
            end)
      && no_repeat_from (Some objectId) rest
  | Clear :: rest => no_repeat_from None rest
  end.

(** ** Sequences of [setAnimating] calls *)

Fixpoint setAnimating_run (values : list bool) (s : StateManager.state)
  : StateManager.state * list StateManager.emitted :=
  match values with
  | [] => (s, [])
  | value :: rest =>
      let (s1, e1) := StateManager.setAnimating value s in
      let (s2, e2) := setAnimating_run rest s1 in
      (s2, (e1 ++ e2)%list)
  end.

(** [n] calls of [toggleHelp] in a row. *)
Fixpoint toggleHelp_run (n : nat) (s : StateManager.state)
  : StateManager.state * list StateManager.emitted :=
  match n with
  | O => (s, [])
  | S k =>
      let (s1, e1) := StateManager.toggleHelp s in
      let (s2, e2) := toggleHelp_run k s1 in
      (s2, (e1 ++ e2)%list)
  end.

(** Each payload differs from the one before it, the first from
    [previous]. *)
Fixpoint alternating (previous : bool) (payloads : list bool) : bool :=
  match payloads with
  | [] => true
  | p :: rest => negb (Bool.eqb p previous) && alternating p rest
  end.

(** The boolean payloads of the events named [name]. *)
Definition payloads_of (name : string) (events : list StateManager.emitted) : list bool :=
  flat_map (fun e => if String.eqb (StateManager.event e) name
                     then match StateManager.args e with
                          | [StateManager.ABool b] => [b]
                          | _ => []
                          end
                     else []) events.

(** ** Sequences of actions on the shared arrays *)

Definition StateManager_step_shared (st : SharedArrays.ref * SharedArrays.heap)
  (o : operation) : SharedArrays.ref * SharedArrays.heap :=
  match o with
  | Select objectId =>
      fst (SharedArrays.StateManager_selectObject objectId (fst st) (snd st))
  | Clear => fst (SharedArrays.StateManager_clearSelection (fst st) (snd st))
  end.

Definition ObjectSelector_step_shared (st : SharedArrays.ref * SharedArrays.heap)
  (o : operation) : SharedArrays.ref * SharedArrays.heap :=
  match o with
  | Select objectId =>
      fst (SharedArrays.ObjectSelector_selectObject objectId (fst st) (snd st))
  | Clear => fst (SharedArrays.ObjectSelector_clearSelection (fst st) (snd st))
  end.

(** The event ['selectionComplete'] with the array [p]. *)
Definition selectionComplete_with (p : SharedArrays.ref) : SharedArrays.emitted :=
  {| SharedArrays.event := "selectionComplete";
     SharedArrays.args := [SharedArrays.AArray p] |}.

(** ** Overlays up to the value of their coordinates *)

Definition same_circle (a b : ObjectOverlay.circle) : Prop :=
  same (ObjectOverlay.x a) (ObjectOverlay.x b) /\
  same (ObjectOverlay.y a) (ObjectOverlay.y b) /\
  same (ObjectOverlay.radius a) (ObjectOverlay.radius b).

Definition same_line (a b : ObjectOverlay.line) : Prop :=
  same (ObjectOverlay.x1 a) (ObjectOverlay.x1 b) /\
  same (ObjectOverlay.y1 a) (ObjectOverlay.y1 b) /\
  same (ObjectOverlay.x2 a) (ObjectOverlay.x2 b) /\
  same (ObjectOverlay.y2 a) (ObjectOverlay.y2 b).

Definition same_label (a b : ObjectOverlay.label) : Prop :=
  same (ObjectOverlay.label_x a) (ObjectOverlay.label_x b) /\
  same (ObjectOverlay.label_y a) (ObjectOverlay.label_y b) /\
  ObjectOverlay.text a = ObjectOverlay.text b.

Definition same_elements (a b : ObjectOverlay.elements) : Prop :=
  same_circle (ObjectOverlay.actualSprite a) (ObjectOverlay.actualSprite b) /\
  same_circle (ObjectOverlay.overlaySprite a) (ObjectOverlay.overlaySprite b) /\
  same_line (ObjectOverlay.connectorLine a) (ObjectOverlay.connectorLine b) /\
  same (fst (ObjectOverlay.connectorArrow a)) (fst (ObjectOverlay.connectorArrow b)) /\
  same (snd (ObjectOverlay.connectorArrow a)) (snd (ObjectOverlay.connectorArrow b)) /\
  same_label (ObjectOverlay.actualLabel a) (ObjectOverlay.actualLabel b) /\
  same_label (ObjectOverlay.overlayLabel a) (ObjectOverlay.overlayLabel b).

(** ** Sequences of constructions *)

Inductive construction : Type :=
| New
| GetInstance.

(** The statics after a sequence of [new C()] and [C.getInstance()], a
    call that throws leaving them as they are. *)
Definition construction_step (className : string) (st : Singleton.statics)
  (c : construction) : Singleton.statics :=
  match (match c with
         | New => Singleton.construct className st
         | GetInstance => Singleton.getInstance className st
         end) with
  | Normal (_, st') => st'
  | Throw _ => st
  end.

Definition statics_after (className : string) (calls : list construction)
  : Singleton.statics :=
  fold_left (construction_step className) calls Singleton.initial.

(** The object a call evaluates to, when it does not throw. *)
Definition object_of (r : completion (nat * Singleton.statics)) : option nat :=
  match r with
  | Normal (object, _) => Some object
  | Throw _ => None
  end.

(* ================================================================== *)
(** * Properties *)

(** ** Strings *)

Section Strings.
Import Text.
Local Open Scope string_scope.

Lemma append_nil_l (s : string) : "" ++ s = s.
Proof. reflexivity. Qed.

Lemma append_cons (c : ascii) (s t : string) : String c s ++ t = String c (s ++ t).
Proof. reflexivity. Qed.

Lemma append_assoc (s t u : string) : (s ++ t) ++ u = s ++ t ++ u.
Proof. induction s as [|c s IH]; [reflexivity|]. now rewrite !append_cons, IH. Qed.

Lemma length_append (s t : string) :
  String.length (s ++ t) = (String.length s + String.length t)%nat.
Proof. induction s as [|c s IH]; [reflexivity|]. rewrite append_cons. cbn. now rewrite IH. Qed.

Lemma take_drop (n : nat) (s : string) : str_take n s ++ str_drop n s = s.
Proof.
  revert s. induction n as [|n IH]; intros [|c s]; try reflexivity.
  cbn [str_take str_drop]. now rewrite append_cons, IH.
Qed.

Lemma length_take (n : nat) (s : string) :
  (n <= String.length s)%nat -> String.length (str_take n s) = n.
Proof.
  revert s. induction n as [|n IH]; intros [|c s] H; cbn in *; try lia.
  rewrite IH; lia.
Qed.

Lemma length_drop (n : nat) (s : string) :
  String.length (str_drop n s) = (String.length s - n)%nat.
Proof.
  revert s. induction n as [|n IH]; intros [|c s]; cbn; try lia. apply IH.
Qed.

Lemma length_zeros (n : nat) : String.length (zeros n) = n.
Proof. induction n as [|n IH]; cbn; congruence. Qed.

Lemma all_digits_append (s t : string) :
  all_digits (s ++ t) = all_digits s && all_digits t.
Proof.
  induction s as [|c s IH]; [reflexivity|].
  rewrite append_cons. cbn. rewrite IH. now rewrite andb_assoc.
Qed.

Lemma all_digits_zeros (n : nat) : all_digits (zeros n) = true.
Proof. induction n as [|n IH]; [reflexivity|exact IH]. Qed.

Lemma all_digits_string_of_uint (d : Decimal.uint) :
  all_digits (NilEmpty.string_of_uint d) = true.
Proof. induction d; cbn; auto. Qed.

Lemma all_digits_dec (n : N) : all_digits (dec n) = true.
Proof.
  unfold dec, NilZero.string_of_uint.
  destruct (N.to_uint n); try reflexivity; apply all_digits_string_of_uint.
Qed.

Lemma dec_nonempty (n : N) : (1 <= String.length (dec n))%nat.
Proof.
  unfold dec, NilZero.string_of_uint.
  destruct (N.to_uint n); cbn; lia.
Qed.

Lemma span_digits_append (a t : string) :
  all_digits a = true -> stops t = true -> span_digits (a ++ t) = (a, t).
Proof.
  intros Ha Ht. induction a as [|c a IH].
  - rewrite append_nil_l. destruct t as [|c t]; [reflexivity|].
    cbn in *. destruct (is_digit c); [discriminate|reflexivity].
  - rewrite append_cons. cbn in *. apply andb_prop in Ha as [-> Ha].
    now rewrite (IH Ha).
Qed.

Lemma strip_prefix_append (p t : string) : strip_prefix p (p ++ t) = Some t.
Proof.
  induction p as [|c p IH]; [reflexivity|].
  rewrite append_cons. cbn. now rewrite Ascii.eqb_refl.
Qed.

(** Leading zeros do not change the value of a digit string. *)
Lemma uint_of_string_zeros_dec (j : nat) (n : N) :
  exists d : Decimal.uint,
    NilEmpty.uint_of_string (zeros j ++ dec n) = Some d /\ N.of_uint d = n.
Proof.
  induction j as [|j (d & Hd & Hn)].
  - rewrite append_nil_l. exists (N.to_uint n). split.
    + unfold dec, NilZero.string_of_uint.
      pose proof (NilEmpty.usu (N.to_uint n)) as H.
      destruct (N.to_uint n) eqn:E; try exact H.
      destruct n; cbn in E; [discriminate|].
      exfalso. exact (Unsigned.to_uint_nonnil _ E).
    + apply DecimalN.Unsigned.of_to.
  - exists (Decimal.D0 d). split.
    + cbn [zeros]. rewrite append_cons. cbn [NilEmpty.uint_of_string]. now rewrite Hd.
    + exact Hn.
Qed.

Lemma value_zeros_dec (j : nat) (n : N) : value (zeros j ++ dec n) = Some n.
Proof.
  destruct (uint_of_string_zeros_dec j n) as (d & Hd & Hn).
  unfold value, NilZero.uint_of_string. rewrite Hd.
  destruct (zeros j ++ dec n) eqn:E.
  - pose proof (dec_nonempty n) as L.
    assert (H : String.length (zeros j ++ dec n) = 0%nat) by now rewrite E.
    rewrite length_append in H. lia.
  - cbn. now rewrite Hn.
Qed.

Lemma value_dec (n : N) : value (dec n) = Some n.
Proof. exact (value_zeros_dec 0 n). Qed.

End Strings.

(** ** Comparisons and arithmetic on finite numbers *)

Section FiniteNumbers.
Local Open Scope Q_scope.

Lemma Qltb_spec (p q : Q) : reflect (p < q) (Qltb p q).
Proof.
  unfold Qltb. destruct (Qle_bool q p) eqn:E; constructor.
  - apply Qle_bool_iff in E. lra.
  - destruct (Qlt_le_dec p q) as [H|H]; [exact H|].
    apply Qle_bool_iff in H. congruence.
Qed.

Lemma Qleb_spec (p q : Q) : reflect (p <= q) (Qle_bool p q).
Proof.
  destruct (Qle_bool p q) eqn:E; constructor.
  - now apply Qle_bool_iff.
  - intro H. apply Qle_bool_iff in H. congruence.
Qed.

Lemma Qeqb_spec (p q : Q) : reflect (p == q) (Qeq_bool p q).
Proof.
  destruct (Qeq_bool p q) eqn:E; constructor.
  - now apply Qeq_bool_iff.
  - intro H. apply Qeq_bool_iff in H. congruence.
Qed.

Lemma Qsign_spec (q : Q) :
  match Qsign q with
  | Eq => q == 0
  | Lt => q < 0
  | Gt => 0 < q
  end.
Proof.
  unfold Qsign, Qeq, Qlt. destruct q as [n d]. simpl.
  destruct (Z.compare_spec n 0); lia.
Qed.

Lemma lt_Fin (p q : Q) : lt (Fin p) (Fin q) = true <-> p < q.
Proof. simpl. destruct (Qltb_spec p q); intuition congruence. Qed.

Lemma le_Fin (p q : Q) : le (Fin p) (Fin q) = true <-> p <= q.
Proof.
  simpl. destruct (Qltb_spec p q), (Qeqb_spec p q); simpl; split; intros; try lra;
    try reflexivity; try discriminate.
Qed.

Lemma same_refl (x : number) : same x x.
Proof. destruct x; simpl; auto. reflexivity. Qed.

End FiniteNumbers.

(** Case analysis on every rational test in the goal. *)
Ltac q_tests :=
  repeat match goal with
  | |- context [Qltb ?a ?b] => destruct (Qltb_spec a b)
  | |- context [Qeq_bool ?a ?b] => destruct (Qeqb_spec a b)
  | |- context [Qle_bool ?a ?b] => destruct (Qleb_spec a b)
  end.

(* ------------------------------------------------------------------ *)
(** ** ScaleCalculator.calculateScreenDiameter *)

Section ScreenDiameter.
Import Constants ScaleCalculator.
Local Open Scope Q_scope.

(** The diameter on finite arguments, the divisor not being zero. *)
Lemma calculateScreenDiameter_Fin (d w r : Q) :
  ~ r == 0 ->
  exists v : Q,
    calculateScreenDiameter (Fin d) (Fin w) (Fin r) = Fin v /\
    10 <= v /\
    (v <= w * 0.4 \/ v == 10) /\
    (w * 0.4 * (d / r) <= 10 -> v == 10).
Proof.
  intros Hr. unfold calculateScreenDiameter. cbn [MIN_SIZE MAX_SCREEN_RATIO SCALE_DISPLAY mul div].
  destruct (Qeqb_spec r 0) as [E|_]; [contradiction|].
  cbn [Math_min Math_max lt].
  set (m := Qred (w * 0.4)). set (s := Qred (m * Qred (d / r))).
  assert (Hm : m == w * 0.4) by apply Qred_correct.
  assert (Hs : s == w * 0.4 * (d / r)).
  { unfold s. rewrite !Qred_correct. now rewrite Hm. }
  q_tests; eexists; (split; [reflexivity|]); repeat split; intros; lra.
Qed.

(** On a screen narrower than 25 px the 40% ceiling is below the 10 px
    floor, and the floor wins: an object as large as the reference is
    drawn 10 px wide on a 20 px screen, above 20 * 0.4 = 8. *)
Lemma calculateScreenDiameter_above_ceiling :
  calculateScreenDiameter (Fin 100) (Fin 20) (Fin 100) = Fin 10 /\
  mul (Fin 20) (MAX_SCREEN_RATIO SCALE_DISPLAY) = Fin 8 /\
  le (calculateScreenDiameter (Fin 100) (Fin 20) (Fin 100))
     (mul (Fin 20) (MAX_SCREEN_RATIO SCALE_DISPLAY)) = false.
Proof. repeat split; vm_compute; reflexivity. Qed.

(** C1 (as amended).  For finite [realDiameter >= 0], [screenWidth > 0]
    and [referenceSize > 0] the result is at least [MIN_SIZE] = 10 and at
    most the larger of [MIN_SIZE] and [screenWidth * MAX_SCREEN_RATIO]; it
    lies in [[MIN_SIZE, screenWidth * MAX_SCREEN_RATIO]] as soon as that
    interval is not empty; and [realDiameter = 0] yields [MIN_SIZE]. *)
Theorem calculateScreenDiameter_clamped (realDiameter screenWidth referenceSize : Q) :
  0 <= realDiameter -> 0 < screenWidth -> 0 < referenceSize ->
  let result :=
    calculateScreenDiameter (Fin realDiameter) (Fin screenWidth) (Fin referenceSize) in
  let ceiling := mul (Fin screenWidth) (MAX_SCREEN_RATIO SCALE_DISPLAY) in
  le (MIN_SIZE SCALE_DISPLAY) result = true /\
  le result (Math_max (MIN_SIZE SCALE_DISPLAY) ceiling) = true /\
  (le (MIN_SIZE SCALE_DISPLAY) ceiling = true -> le result ceiling = true) /\
  (realDiameter == 0 -> same result (MIN_SIZE SCALE_DISPLAY)).
Proof.
  intros Hd Hw Hr result ceiling.
  destruct (calculateScreenDiameter_Fin realDiameter screenWidth referenceSize)
    as (v & Hv & Hlo & Hhi & Hzero); [lra|].
  subst result ceiling. rewrite Hv.
  cbn [MIN_SIZE MAX_SCREEN_RATIO SCALE_DISPLAY mul Math_max lt].
  assert (Hm : Qred (screenWidth * 0.4) == screenWidth * 0.4) by apply Qred_correct.
  repeat split.
  - apply le_Fin. lra.
  - destruct (Qltb_spec 10 (Qred (screenWidth * 0.4))); apply le_Fin; lra.
  - intros H. apply le_Fin in H. apply le_Fin. lra.
  - intros H0. simpl. apply Hzero. rewrite H0. unfold Qdiv. lra.
Qed.

Lemma calculateScreenDiameter_clamped_witness :
  let result := calculateScreenDiameter (Fin 0) (Fin 1280) (Fin 12742000) in
  let ceiling := mul (Fin 1280) (MAX_SCREEN_RATIO SCALE_DISPLAY) in
  le (MIN_SIZE SCALE_DISPLAY) result = true /\
  le result (Math_max (MIN_SIZE SCALE_DISPLAY) ceiling) = true /\
  (le (MIN_SIZE SCALE_DISPLAY) ceiling = true -> le result ceiling = true) /\
  (0 == 0 -> same result (MIN_SIZE SCALE_DISPLAY)).
Proof.
  apply (calculateScreenDiameter_clamped 0 1280 12742000).
  - unfold Qle. simpl. lia.
  - reflexivity.
  - reflexivity.
Defined.

End ScreenDiameter.

(* ------------------------------------------------------------------ *)
(** ** LightSpeedTraveler: travel time and animation duration *)

Section LightTravel.
Import Constants LightSpeedTraveler.
Local Open Scope Q_scope.

(** The three timing fields on a finite travel time and a positive cap. *)
Lemma calculateAnimationDuration_Fin (cap time : Q) :
  0 < cap ->
  let ms := time * 1000 in
  exists a m : Q,
    calculateAnimationDuration (Fin cap) (Fin time) = (Fin a, Qltb cap ms, Fin m) /\
    a == Qmin ms cap /\
    (cap < ms -> m == ms / cap) /\
    (ms <= cap -> m = 1).
Proof.
  intros Hcap ms. unfold calculateAnimationDuration, gt.
  cbn [mul Math_min lt div].
  assert (Hms : Qred (time * 1000) == ms) by apply Qred_correct.
  destruct (Qeqb_spec cap 0) as [E|_]; [lra|].
  destruct (Qltb_spec cap (Qred (time * 1000))) as [L|L];
    destruct (Qltb_spec cap ms) as [L'|L']; try lra;
    eexists; eexists; (split; [reflexivity|]); repeat split; intros; try lra.
  - rewrite Q.min_r; lra.
  - rewrite Qred_correct. now rewrite Hms.
  - rewrite Q.min_l; lra.
Qed.

(** C5.  For finite [distanceMeters > 0], [speedOfLight > 0] and
    [capMs > 0] the traveler is built, its [animationDuration] is
    [min(realTimeMs, capMs)] and so at most [capMs], its [speedMultiplier]
    is at least 1, it is 1 exactly when [isTimeLapsed] is false, and it is
    [realTimeMs / capMs] exactly when [realTimeMs > capMs], where
    [realTimeMs = distanceMeters / speedOfLight * 1000]. *)
Theorem light_travel_plan_capped (distanceMeters speedOfLight capMs : Q) :
  0 < distanceMeters -> 0 < speedOfLight -> 0 < capMs ->
  let realTimeMs := distanceMeters / speedOfLight * 1000 in
  exists plan : LightSpeedTraveler.t,
    new_with (Fin capMs) (Fin speedOfLight) (Fin distanceMeters) = Normal plan /\
    same (travelTime plan) (Fin (distanceMeters / speedOfLight)) /\
    same (animationDuration plan) (Fin (Qmin realTimeMs capMs)) /\
    le (animationDuration plan) (Fin capMs) = true /\
    le (Fin 1) (speedMultiplier plan) = true /\
    strict_eq (speedMultiplier plan) (Fin 1) = negb (isTimeLapsed plan) /\
    isTimeLapsed plan = gt (Fin realTimeMs) (Fin capMs) /\
    (capMs < realTimeMs -> same (speedMultiplier plan) (Fin (realTimeMs / capMs))).
Proof.
  intros Hd Hc Hcap realTimeMs. unfold new_with.
  cbn [div]. destruct (Qeqb_spec speedOfLight 0) as [E|_]; [lra|].
  set (time := Qred (distanceMeters / speedOfLight)).
  assert (Ht : time == distanceMeters / speedOfLight) by apply Qred_correct.
  destruct (calculateAnimationDuration_Fin capMs time Hcap) as (a & m & -> & Ha & Hm1 & Hm2).
  assert (Hms : time * 1000 == realTimeMs) by (unfold realTimeMs; now rewrite Ht).
  eexists. split; [reflexivity|]. cbn [travelTime animationDuration speedMultiplier isTimeLapsed].
  rewrite Hms in Ha, Hm1, Hm2.
  assert (Hlapsed : Qltb capMs (time * 1000) = Qltb capMs realTimeMs).
  { destruct (Qltb_spec capMs (time * 1000)), (Qltb_spec capMs realTimeMs); auto; lra. }
  rewrite Hlapsed. clear Hlapsed.
  repeat split.
  - exact Ht.
  - exact Ha.
  - apply le_Fin. rewrite Ha. apply Q.le_min_r.
  - apply le_Fin. destruct (Qlt_le_dec capMs realTimeMs) as [L|L].
    + rewrite (Hm1 L). apply Qle_shift_div_l; lra.
    + rewrite (Hm2 L). lra.
  - cbn [strict_eq]. destruct (Qltb_spec capMs realTimeMs) as [L|L]; cbn [negb].
    + destruct (Qeqb_spec m 1) as [E|_]; [|reflexivity].
      rewrite (Hm1 L) in E. exfalso.
      assert (H : realTimeMs == realTimeMs / capMs * capMs) by (field; lra).
      rewrite E in H. lra.
    + rewrite Hm2 by lra. reflexivity.
  - intros L. simpl. exact (Hm1 L).
Qed.

Lemma light_travel_plan_capped_witness :
  let realTimeMs := 149600000000 / 299792458 * 1000 in
  exists plan : LightSpeedTraveler.t,
    new_with (Fin 10000) (Fin 299792458) (Fin 149600000000) = Normal plan /\
    same (travelTime plan) (Fin (149600000000 / 299792458)) /\
    same (animationDuration plan) (Fin (Qmin realTimeMs 10000)) /\
    le (animationDuration plan) (Fin 10000) = true /\
    le (Fin 1) (speedMultiplier plan) = true /\
    strict_eq (speedMultiplier plan) (Fin 1) = negb (isTimeLapsed plan) /\
    isTimeLapsed plan = gt (Fin realTimeMs) (Fin 10000) /\
    (10000 < realTimeMs -> same (speedMultiplier plan) (Fin (realTimeMs / 10000))).
Proof.
  apply (light_travel_plan_capped 149600000000 299792458 10000); reflexivity.
Defined.

Lemma Qsign_pos (c : Q) : 0 < c -> Qsign c = Gt.
Proof. intros H. pose proof (Qsign_spec c). destruct (Qsign c); auto; lra. Qed.

Lemma Qdiv_nonpos (d c : Q) : d <= 0 -> 0 < c -> d / c <= 0.
Proof.
  intros Hd Hc. apply Qle_shift_div_r; lra.
Qed.

Lemma div_Fin_pos (c d : Q) : 0 < c -> div (Fin d) (Fin c) = Fin (Qred (d / c)).
Proof. intros H. cbn [div]. destruct (Qeqb_spec c 0); [lra|reflexivity]. Qed.

(** A travel time that is not positive is played as it is. *)
Lemma calculateAnimationDuration_nonpos (time : Q) :
  time <= 0 ->
  calculateAnimationDuration (LIGHT_MAX ANIMATION_DURATION) (Fin time) =
    (mul (Fin time) (Fin 1000), false, Fin 1).
Proof.
  intros Ht. unfold calculateAnimationDuration, gt.
  cbn [LIGHT_MAX ANIMATION_DURATION mul Math_min lt].
  assert (Hms : Qred (time * 1000) <= 0) by (rewrite Qred_correct; lra).
  destruct (Qltb_spec 10000 (Qred (time * 1000))); [lra|reflexivity].
Qed.

(** No guard rejects a distance or a speed that is zero or negative: the
    constructor returns the plan the arithmetic gives.  A zero distance
    yields the empty plan, a zero speed of light an infinite travel time. *)
Lemma light_travel_degenerate_plan_returned :
  LightSpeedTraveler.new (Fin 299792458) (Fin 0) =
    Normal {| realDistance := Fin 0; speedOfLight := Fin 299792458;
              travelTime := Fin 0; animationDuration := Fin 0;
              isTimeLapsed := false; speedMultiplier := Fin 1 |} /\
  LightSpeedTraveler.new (Fin 0) (Fin 384400000) =
    Normal {| realDistance := Fin 384400000; speedOfLight := Fin 0;
              travelTime := PosInf; animationDuration := Fin 10000;
              isTimeLapsed := true; speedMultiplier := PosInf |}.
Proof. split; vm_compute; reflexivity. Qed.

(** C2 (as amended).  When [distanceMeters <= 0] or [speedOfLight <= 0]
    the constructor does not throw: it returns the traveler whose
    [travelTime] is [distanceMeters / speedOfLight] and whose timing fields
    are those [calculateAnimationDuration] computes from it.  When moreover
    [distanceMeters <= 0] and [speedOfLight] is finite and positive the
    plan is the degenerate one: [travelTime <= 0], [animationDuration] is
    [1000 * travelTime], [isTimeLapsed] is false and [speedMultiplier]
    is 1. *)
Theorem light_travel_never_throws (speedOfLight distanceMeters : number) :
  le distanceMeters (Fin 0) = true \/ le speedOfLight (Fin 0) = true ->
  exists plan : LightSpeedTraveler.t,
    LightSpeedTraveler.new speedOfLight distanceMeters = Normal plan /\
    realDistance plan = distanceMeters /\
    travelTime plan = div distanceMeters speedOfLight /\
    (animationDuration plan, isTimeLapsed plan, speedMultiplier plan) =
      calculateAnimationDuration (LIGHT_MAX ANIMATION_DURATION) (travelTime plan) /\
    (le distanceMeters (Fin 0) = true ->
     lt (Fin 0) speedOfLight = true -> is_finite speedOfLight = true ->
     le (travelTime plan) (Fin 0) = true /\
     animationDuration plan = mul (travelTime plan) (Fin 1000) /\
     isTimeLapsed plan = false /\
     speedMultiplier plan = Fin 1).
Proof.
  intros _. unfold LightSpeedTraveler.new, new_with.
  destruct (calculateAnimationDuration _ _) as [[a l] m] eqn:E.
  eexists. split; [reflexivity|].
  cbn [realDistance travelTime animationDuration isTimeLapsed speedMultiplier].
  split; [reflexivity|]. split; [reflexivity|]. split; [now rewrite E|].
  intros Hd Hc Hf. destruct speedOfLight as [c| | |]; try discriminate.
  apply lt_Fin in Hc.
  destruct distanceMeters as [d| | |]; try discriminate.
  - apply le_Fin in Hd. rewrite (div_Fin_pos c d Hc) in E |- *.
    pose proof (Qdiv_nonpos d c Hd Hc) as Ht.
    rewrite <- (Qred_correct (d / c)) in Ht.
    rewrite (calculateAnimationDuration_nonpos _ Ht) in E.
    injection E as <- <- <-. repeat split. now apply le_Fin.
  - revert E. cbn [div sign_of]. rewrite (Qsign_pos c Hc). cbn [signed_inf].
    intros [= <- <- <-]. repeat split.
Qed.

Lemma light_travel_never_throws_witness :
  exists plan : LightSpeedTraveler.t,
    LightSpeedTraveler.new (Fin 299792458) (Fin (-5)) = Normal plan /\
    realDistance plan = Fin (-5) /\
    travelTime plan = div (Fin (-5)) (Fin 299792458) /\
    (animationDuration plan, isTimeLapsed plan, speedMultiplier plan) =
      calculateAnimationDuration (LIGHT_MAX ANIMATION_DURATION) (travelTime plan) /\
    (le (Fin (-5)) (Fin 0) = true ->
     lt (Fin 0) (Fin 299792458) = true -> is_finite (Fin 299792458) = true ->
     le (travelTime plan) (Fin 0) = true /\
     animationDuration plan = mul (travelTime plan) (Fin 1000) /\
     isTimeLapsed plan = false /\
     speedMultiplier plan = Fin 1).
Proof.
  apply (light_travel_never_throws (Fin 299792458) (Fin (-5))).
  left. reflexivity.
Defined.

End LightTravel.

(* ------------------------------------------------------------------ *)
(** ** ScaleCalculator.calculateSizeRatio *)

Section SizeRatio.
Import ScaleCalculator.
Local Open Scope Q_scope.

Lemma Math_max_comm (x y : number) : same (Math_max x y) (Math_max y x).
Proof.
  destruct x as [p| | |], y as [q| | |]; simpl; auto; try reflexivity.
  q_tests; simpl; lra.
Qed.

Lemma Math_min_comm (x y : number) : same (Math_min x y) (Math_min y x).
Proof.
  destruct x as [p| | |], y as [q| | |]; simpl; auto; try reflexivity.
  q_tests; simpl; lra.
Qed.

Lemma strict_eq_same (x x' y : number) :
  same x x' -> strict_eq x y = strict_eq x' y.
Proof.
  destruct x, x', y; simpl; try tauto. intros H.
  q_tests; auto; rewrite H in *; contradiction.
Qed.

Lemma div_same (x x' y y' : number) :
  same x x' -> same y y' -> same (div x y) (div x' y').
Proof.
  destruct x as [p| | |], x' as [p'| | |]; simpl; try tauto;
    destruct y as [q| | |], y' as [q'| | |]; simpl; try tauto; intros Hx Hy.
  - destruct (Qeqb_spec q 0), (Qeqb_spec q' 0); try (rewrite Hy in *; contradiction).
    + pose proof (Qsign_spec p). pose proof (Qsign_spec p').
      destruct (Qsign p), (Qsign p'); simpl; auto; lra.
    + simpl. rewrite !Qred_correct. now rewrite Hx, Hy.
  - reflexivity.
  - reflexivity.
  - pose proof (Qsign_spec q). pose proof (Qsign_spec q').
    destruct (Qsign q), (Qsign q'); simpl; auto; lra.
  - pose proof (Qsign_spec q). pose proof (Qsign_spec q').
    destruct (Qsign q), (Qsign q'); simpl; auto; lra.
Qed.

(** With both diameters 0 the guard returns Infinity where the quotient
    of the larger by the smaller, 0/0, is NaN. *)
Lemma calculateSizeRatio_zero_zero :
  calculateSizeRatio (Fin 0) (Fin 0) = PosInf /\
  div (Math_max (Fin 0) (Fin 0)) (Math_min (Fin 0) (Fin 0)) = NaN.
Proof. split; reflexivity. Qed.

(** C10 (as amended).  [calculateSizeRatio] is a total function of its two
    numbers and does not depend on their order.  When the smaller diameter
    is 0 it returns Infinity, so it does as soon as one diameter is 0 and
    the other is not negative, both being 0 included; otherwise it returns
    the quotient of the larger by the smaller, which is at least 1 for two
    positive finite diameters. *)
Theorem calculateSizeRatio_larger_over_smaller (diameter1 diameter2 : number) :
  same (calculateSizeRatio diameter1 diameter2) (calculateSizeRatio diameter2 diameter1) /\
  (strict_eq (Math_min diameter1 diameter2) (Fin 0) = true ->
   calculateSizeRatio diameter1 diameter2 = PosInf) /\
  (strict_eq (Math_min diameter1 diameter2) (Fin 0) = false ->
   calculateSizeRatio diameter1 diameter2 =
     div (Math_max diameter1 diameter2) (Math_min diameter1 diameter2)) /\
  (lt (Fin 0) diameter1 = true -> lt (Fin 0) diameter2 = true ->
   is_finite diameter1 = true -> is_finite diameter2 = true ->
   le (Fin 1) (calculateSizeRatio diameter1 diameter2) = true) /\
  (le (Fin 0) diameter1 = true ->
   calculateSizeRatio diameter1 (Fin 0) = PosInf /\
   calculateSizeRatio (Fin 0) diameter1 = PosInf).
Proof.
  unfold calculateSizeRatio.
  split; [|split; [|split; [|split]]].
  5:{ intros H. destruct diameter1 as [p| | |]; try discriminate.
      - apply le_Fin in H. cbn [Math_max Math_min lt strict_eq].
        destruct (Qltb_spec 0 p), (Qltb_spec p 0); try lra; cbv iota;
          cbn [strict_eq]; split; try reflexivity;
          destruct (Qeqb_spec p 0) as [E|E]; try reflexivity;
          exfalso; apply E; lra.
      - split; reflexivity. }
  - rewrite (strict_eq_same _ _ (Fin 0) (Math_min_comm diameter1 diameter2)).
    destruct (strict_eq (Math_min diameter2 diameter1) (Fin 0)); [exact I|].
    apply div_same; [apply Math_max_comm | apply Math_min_comm].
  - intros ->. reflexivity.
  - intros ->. reflexivity.
  - destruct diameter1 as [p| | |], diameter2 as [q| | |]; try discriminate.
    intros Hp Hq _ _. apply lt_Fin in Hp. apply lt_Fin in Hq.
    cbn [Math_max Math_min lt strict_eq].
    destruct (Qltb_spec p q), (Qltb_spec q p); try lra.
    all: cbv iota; cbn [strict_eq div].
    all: match goal with |- context [Qeq_bool ?a 0] => destruct (Qeqb_spec a 0); [lra|] end.
    all: apply le_Fin; rewrite Qred_correct; apply Qle_shift_div_l; lra.
Qed.

End SizeRatio.

(* ------------------------------------------------------------------ *)
(** ** The bounded first-in first-out selection *)

Section Selection.
Import Constants.
Local Open Scope list_scope.
Local Open Scope nat_scope.

(** Both classes update the selection in the same way. *)
Lemma selectObject_selection (objectId : string) (s : list string) :
  selection (StateManager.selectObject objectId s) =
    (if MAX_SELECTIONS <=? length s then snd (shift s) else s) ++ [objectId] /\
  selection (ObjectSelector.selectObject objectId s) =
    (if MAX_SELECTIONS <=? length s then snd (shift s) else s) ++ [objectId].
Proof.
  unfold StateManager.selectObject, ObjectSelector.selectObject,
    ObjectSelector.selectObject_with.
  destruct (MAX_SELECTIONS <=? length s); destruct (shift s); split; reflexivity.
Qed.

Lemma step_bounded (s : list string) (o : operation) :
  length s <= MAX_SELECTIONS ->
  length (StateManager_step s o) <= MAX_SELECTIONS /\
  length (ObjectSelector_step s o) <= MAX_SELECTIONS.
Proof.
  intros H. destruct o as [objectId|]; cbn [StateManager_step ObjectSelector_step].
  - destruct (selectObject_selection objectId s) as [-> ->].
    unfold MAX_SELECTIONS in *.
    destruct s as [|a [|b [|c r]]]; cbn in *; lia.
  - cbn. lia.
Qed.

Lemma steps_agree (s : list string) (o : operation) :
  StateManager_step s o = ObjectSelector_step s o.
Proof.
  destruct o as [objectId|]; cbn [StateManager_step ObjectSelector_step].
  - destruct (selectObject_selection objectId s) as [-> ->]. reflexivity.
  - reflexivity.
Qed.

Lemma runs_agree (ops : list operation) : StateManager_run ops = ObjectSelector_run ops.
Proof.
  unfold StateManager_run, ObjectSelector_run. generalize (@nil string).
  induction ops as [|o ops IH]; intros s; cbn [fold_left]; [reflexivity|].
  rewrite steps_agree. apply IH.
Qed.

Lemma fold_bounded (ops : list operation) (s : list string) :
  length s <= MAX_SELECTIONS ->
  length (fold_left StateManager_step ops s) <= MAX_SELECTIONS.
Proof.
  revert s. induction ops as [|o ops IH]; intros s H; cbn [fold_left]; [exact H|].
  apply IH. now apply step_bounded.
Qed.

Lemma run_bounded (ops : list operation) :
  length (StateManager_run ops) <= MAX_SELECTIONS.
Proof. apply fold_bounded. cbn. lia. Qed.

(** C6.  After any sequence of [selectObject] and [clearSelection] calls
    from the empty selection, in either class, the selection holds at most
    [MAX_SELECTIONS] = 2 ids.  A further [selectObject] on a full selection
    [oldest; newest] removes [oldest], the element at index 0, reports it,
    and leaves [newest; objectId]; on a selection that is not full it
    appends [objectId], whether or not the id is already there, so that
    selecting the same id twice keeps it twice. *)
Theorem selection_is_bounded_fifo (ops : list operation) :
  let s := StateManager_run ops in
  ObjectSelector_run ops = s /\
  length s <= MAX_SELECTIONS /\
  (forall objectId : string,
     length s = MAX_SELECTIONS ->
     exists oldest newest : string,
       s = [oldest; newest] /\
       selection (StateManager.selectObject objectId s) = [newest; objectId] /\
       selection (ObjectSelector.selectObject objectId s) = [newest; objectId] /\
       In (ConsoleLog ("[StateManager] Max selections reached. Removed: " ++ oldest)%string [])
          (effects (StateManager.selectObject objectId s)) /\
       In (DeselectCard oldest) (effects (ObjectSelector.selectObject objectId s))) /\
  (forall objectId : string,
     length s < MAX_SELECTIONS ->
     selection (StateManager.selectObject objectId s) = s ++ [objectId] /\
     selection (ObjectSelector.selectObject objectId s) = s ++ [objectId]) /\
  (forall objectId : string,
     StateManager_run [Select objectId; Select objectId] = [objectId; objectId] /\
     ObjectSelector_run [Select objectId; Select objectId] = [objectId; objectId]).
Proof.
  intros s. pose proof (run_bounded ops) as Hb. fold s in Hb.
  split; [symmetry; apply runs_agree|]. split; [exact Hb|].
  unfold MAX_SELECTIONS in *. repeat split.
  - intros objectId Hfull.
    destruct s as [|oldest [|newest [|x r]]]; try discriminate.
    exists oldest, newest. repeat split; cbn; auto.
  - destruct s as [|a [|b r]]; cbn in *; try lia; reflexivity.
  - destruct s as [|a [|b r]]; cbn in *; try lia; reflexivity.
Qed.

(** Neither [selectObject] has a [return] statement: in the scenario of
    the specification (earth, moon, sun) the third call leaves
    [moon; sun] and evaluates to [undefined], not to the evicted ["earth"]. *)
Lemma selectObject_returns_undefined :
  let s2 := StateManager_run [Select "earth"; Select "moon"] in
  selection (StateManager.selectObject "sun" s2) = ["moon"; "sun"] /\
  returned (StateManager.selectObject "sun" s2) = JSUndefined /\
  returned (ObjectSelector.selectObject "sun" s2) = JSUndefined.
Proof. repeat split. Qed.

(** C3 (as amended).  From the empty selection, [selectObject(A)],
    [selectObject(B)], [selectObject(C)] leave the selection [B; C].  The
    first two calls remove nothing; the third removes [A], which the
    StateManager logs and the ObjectSelector also hands to [deselectCard].
    Every call evaluates to [undefined]: the evicted id is not returned. *)
Theorem select_three_evicts_first (A B C : string) :
  let sm1 := StateManager.selectObject A [] in
  let sm2 := StateManager.selectObject B (selection sm1) in
  let sm3 := StateManager.selectObject C (selection sm2) in
  let os1 := ObjectSelector.selectObject A [] in
  let os2 := ObjectSelector.selectObject B (selection os1) in
  let os3 := ObjectSelector.selectObject C (selection os2) in
  (selection sm1 = [A] /\ selection sm2 = [A; B] /\ selection sm3 = [B; C]) /\
  (selection os1 = [A] /\ selection os2 = [A; B] /\ selection os3 = [B; C]) /\
  (returned sm1 = JSUndefined /\ returned sm2 = JSUndefined /\
   returned sm3 = JSUndefined) /\
  (returned os1 = JSUndefined /\ returned os2 = JSUndefined /\
   returned os3 = JSUndefined) /\
  effects sm1 =
    [ConsoleLog ("[StateManager] Object selected: " ++ A)%string [];
     ConsoleLog "[StateManager] Selected objects:" [A];
     Emit "objectSelected" [A]] /\
  effects sm2 =
    [ConsoleLog ("[StateManager] Object selected: " ++ B)%string [];
     ConsoleLog "[StateManager] Selected objects:" [A; B];
     Emit "objectSelected" [B];
     Emit "selectionComplete" [A; B]] /\
  effects sm3 =
    [ConsoleLog ("[StateManager] Max selections reached. Removed: " ++ A)%string [];
     ConsoleLog ("[StateManager] Object selected: " ++ C)%string [];
     ConsoleLog "[StateManager] Selected objects:" [B; C];
     Emit "objectSelected" [C];
     Emit "selectionComplete" [B; C]] /\
  effects os1 =
    [ConsoleLog ("[ObjectSelector] Selecting object: " ++ A)%string [];
     SelectCard A;
     ConsoleLog "[ObjectSelector] Current selection:" [A];
     Emit "objectSelected" [A]] /\
  effects os2 =
    [ConsoleLog ("[ObjectSelector] Selecting object: " ++ B)%string [];
     SelectCard B;
     ConsoleLog "[ObjectSelector] Current selection:" [A; B];
     Emit "objectSelected" [B];
     ConsoleLog "[ObjectSelector] Selection complete:" [A; B];
     Emit "selectionComplete" [A; B]] /\
  effects os3 =
    [ConsoleLog ("[ObjectSelector] Selecting object: " ++ C)%string [];
     ConsoleLog ("[ObjectSelector] Max selections reached. Removed: " ++ A)%string [];
     DeselectCard A;
     SelectCard C;
     ConsoleLog "[ObjectSelector] Current selection:" [B; C];
     Emit "objectSelected" [C];
     ConsoleLog "[ObjectSelector] Selection complete:" [B; C];
     Emit "selectionComplete" [B; C]].
Proof. cbn. repeat split. Qed.

End Selection.

(* ------------------------------------------------------------------ *)
(** ** DataManager: the distance index *)

Section DistanceIndex.
Import DataManager.
Local Open Scope list_scope.

Lemma distanceCache_load (data : CosmicObjects) :
  distanceCache (load data) = cache_of (distances data).
Proof. reflexivity. Qed.

(** The last record written under a key is the one kept. *)
Lemma cache_of_last (ds : list DistanceData) (r : DistanceData) :
  cache_of (ds ++ [r]) !! key (from r) (to r) = Some r.
Proof.
  unfold cache_of. rewrite foldl_app. cbn [foldl]. apply lookup_insert_eq.
Qed.

(** Whatever the cache holds under a key is a record of the list with
    that key. *)
Lemma foldl_lookup_Some (ds : list DistanceData) (m : gmap string DistanceData)
  (k : string) (r : DistanceData) :
  foldl (fun m dist => <[key (from dist) (to dist) := dist]> m) m ds !! k = Some r ->
  m !! k = Some r \/ (In r ds /\ key (from r) (to r) = k).
Proof.
  revert m. induction ds as [|d ds IH]; intros m H; cbn [foldl] in H.
  - now left.
  - apply IH in H. destruct H as [H|[H1 H2]].
    + destruct (decide (key (from d) (to d) = k)) as [E|N].
      * rewrite <- E, lookup_insert_eq in H. injection H as <-.
        right. split; [now left | exact E].
      * rewrite lookup_insert_ne in H by exact N. now left.
    + right. split; [now right | exact H2].
Qed.

Lemma cache_of_lookup_Some (ds : list DistanceData) (k : string) (r : DistanceData) :
  cache_of ds !! k = Some r -> In r ds /\ key (from r) (to r) = k.
Proof.
  intros H. apply foldl_lookup_Some in H. destruct H as [H|H]; [|exact H].
  rewrite lookup_empty in H. discriminate.
Qed.

(** The first component of a key is recovered when it has no hyphen. *)
Lemma key_inj (a b a' b' : string) :
  hyphen_free a = true -> hyphen_free a' = true ->
  key a b = key a' b' -> a = a' /\ b = b'.
Proof.
  unfold key. revert a'.
  induction a as [|c a IH]; intros [|c' a'] Ha Ha' H;
    repeat (rewrite append_nil_l in H || rewrite append_cons in H); cbn in Ha, Ha'.
  - injection H as ->. auto.
  - injection H as <- _. discriminate.
  - injection H as -> _. discriminate.
  - injection H as -> H. apply andb_prop in Ha as [_ Ha]. apply andb_prop in Ha' as [_ Ha'].
    destruct (IH a' Ha Ha' H) as [-> ->]. auto.
Qed.

Lemma single_direction_spec (ds : list DistanceData) (r1 r2 : DistanceData) :
  single_direction ds = true -> In r1 ds -> In r2 ds ->
  from r1 = to r2 -> to r1 = from r2 -> from r1 = to r1.
Proof.
  unfold single_direction. rewrite forallb_forall. intros H H1 H2 E1 E2.
  specialize (H r1 H1). rewrite forallb_forall in H. specialize (H r2 H2).
  unfold reverse_of in H. rewrite E1, E2, !String.eqb_refl in H. cbn in H.
  rewrite <- E2, <- E1 in H.
  destruct (String.eqb_spec (from r1) (to r1)); [assumption|discriminate].
Qed.

(** X1 (what holds of C4).  Between ids without hyphens, over records
    whose [from] has none and that store no pair in both directions, the
    lookup does not depend on the order of its two ids. *)
Theorem getDistance_symmetric_without_hyphens (data : CosmicObjects) (a b : string) :
  single_direction (distances data) = true ->
  (forall r, In r (distances data) -> hyphen_free (from r) = true) ->
  hyphen_free a = true -> hyphen_free b = true ->
  getDistance (load data) a b = getDistance (load data) b a.
Proof.
  intros Hsd Hfree Ha Hb. unfold getDistance. rewrite distanceCache_load.
  destruct (cache_of (distances data) !! key a b) as [r|] eqn:E1;
    destruct (cache_of (distances data) !! key b a) as [r'|] eqn:E2; try reflexivity.
  apply cache_of_lookup_Some in E1 as H1. destruct H1 as [In1 K1].
  apply cache_of_lookup_Some in E2 as H2. destruct H2 as [In2 K2].
  apply key_inj in K1 as [F1 T1]; [|now apply Hfree|exact Ha].
  apply key_inj in K2 as [F2 T2]; [|now apply Hfree|exact Hb].
  assert (Hab : from r = to r).
  { apply (single_direction_spec (distances data) r r'); auto; congruence. }
  assert (a = b) as -> by congruence.
  congruence.
Qed.

Lemma getDistance_symmetric_without_hyphens_witness :
  getDistance (load {| objects := []; distances := [earth_moon] |}) "earth" "moon" =
  getDistance (load {| objects := []; distances := [earth_moon] |}) "moon" "earth".
Proof.
  apply (getDistance_symmetric_without_hyphens
           {| objects := []; distances := [earth_moon] |} "earth" "moon").
  - reflexivity.
  - intros r [<-|[]]. reflexivity.
  - reflexivity.
  - reflexivity.
Defined.

(** C4, at ids with a hyphen.  The records above store each pair in one
    direction and under two different keys, yet the lookup of (x, y-x)
    finds the record of that pair and the lookup of (y-x, x) the record of
    the pair (y, x-x): ["y-x" ++ "-" ++ "x"] is also ["y" ++ "-" ++ "x-x"]. *)
Theorem getDistance_asymmetric_with_hyphens :
  let manager := load {| objects := []; distances := [x_to_yx; y_to_xx] |} in
  single_direction [x_to_yx; y_to_xx] = true /\
  key (from x_to_yx) (to x_to_yx) = "x-y-x" /\
  key (from y_to_xx) (to y_to_xx) = "y-x-x" /\
  key "y-x" "x" = "y-x-x" /\
  getDistance manager "x" "y-x" = Some x_to_yx /\
  getDistance manager "y-x" "x" = Some y_to_xx.
Proof. repeat split; vm_compute; reflexivity. Qed.

(** C9.  [getDistance] sees its two ids only through the two keys built
    from them.  The pairs (a-b, c) and (a, b-c) are different and share the
    key "a-b-c"; [buildIndexes] keeps under a key the last record written
    for it; and the lookup of (a-b, c) then returns the record stored for
    (a, b-c). *)
Theorem getDistance_depends_on_keys_only :
  (forall (self : DataManager.t) (a b a' b' : string),
     key a b = key a' b' -> key b a = key b' a' ->
     getDistance self a b = getDistance self a' b') /\
  (forall (objs : list CosmicObject) (ds : list DistanceData) (r : DistanceData),
     distanceCache (load {| objects := objs; distances := ds ++ [r] |})
       !! key (from r) (to r) = Some r) /\
  (("a-b" <> "a" /\ "a-b" <> "b-c") /\
   key "a-b" "c" = key "a" "b-c" /\
   let manager := load {| objects := []; distances := [ab_to_c; a_to_bc] |} in
   size (distanceCache manager) = 1%nat /\
   distanceCache manager !! key "a-b" "c" = Some a_to_bc /\
   getDistance manager "a-b" "c" = Some a_to_bc /\
   getDistance manager "c" "a-b" = Some a_to_bc).
Proof.
  split; [|split].
  - intros self a b a' b' E1 E2. unfold getDistance. now rewrite E1, E2.
  - intros objs ds r. rewrite distanceCache_load. apply cache_of_last.
  - repeat split; try discriminate; vm_compute; reflexivity.
Qed.

End DistanceIndex.

(* ------------------------------------------------------------------ *)
(** ** Powers of ten and the integer logarithm *)

Section Log10.
Local Open Scope Q_scope.

Lemma pow10_pos (e : Z) : 0 < pow10 e.
Proof. apply Qpower_0_lt. reflexivity. Qed.

Lemma pow10_plus (a b : Z) : pow10 (a + b) == pow10 a * pow10 b.
Proof. apply Qpower_plus. discriminate. Qed.

Lemma pow10_succ (e : Z) : pow10 (e + 1) == 10 * pow10 e.
Proof. rewrite pow10_plus. change (pow10 1) with (10 # 1). ring. Qed.

Lemma pow10_le (a b : Z) : (a <= b)%Z -> pow10 a <= pow10 b.
Proof. intros H. apply Qpower_le_compat_l; [exact H|discriminate]. Qed.

Lemma pow10_opp (e : Z) : pow10 (- e) == / pow10 e.
Proof. apply Qpower_opp. Qed.

(** A positive number lies in one decade only. *)
Lemma decade_unique (q : Q) (a b : Z) :
  pow10 a <= q -> q < pow10 (a + 1) ->
  pow10 b <= q -> q < pow10 (b + 1) -> a = b.
Proof.
  intros A1 A2 B1 B2.
  destruct (Z.lt_trichotomy a b) as [L|[E|L]]; [|exact E|]; exfalso.
  - pose proof (pow10_le (a + 1) b ltac:(lia)). lra.
  - pose proof (pow10_le (b + 1) a ltac:(lia)). lra.
Qed.

Lemma log10_up_spec (q : Q) (fuel : nat) (e : Z) :
  pow10 e <= q -> q < pow10 (e + Z.of_nat fuel) ->
  pow10 (log10_up fuel q e) <= q /\ q < pow10 (log10_up fuel q e + 1).
Proof.
  revert e. induction fuel as [|fuel IH]; intros e Hlo Hhi.
  - rewrite Z.add_0_r in Hhi. lra.
  - cbn [log10_up]. destruct (Qleb_spec (pow10 (e + 1)) q) as [L|L].
    + apply IH; [exact L|]. now replace (e + 1 + Z.of_nat fuel)%Z with (e + Z.of_nat (S fuel))%Z by lia.
    + split; [exact Hlo|lra].
Qed.

Lemma log10_down_spec (q : Q) (fuel : nat) (e : Z) :
  q < pow10 (e + 1) -> pow10 (e + 1 - Z.of_nat fuel) <= q ->
  pow10 (log10_down fuel q e) <= q /\ q < pow10 (log10_down fuel q e + 1).
Proof.
  revert e. induction fuel as [|fuel IH]; intros e Hhi Hlo.
  - rewrite Z.sub_0_r in Hlo. lra.
  - cbn [log10_down]. destruct (Qleb_spec (pow10 e) q) as [L|L].
    + split; [exact L|exact Hhi].
    + apply IH.
      * replace (e - 1 + 1)%Z with e by lia. lra.
      * now replace (e - 1 + 1 - Z.of_nat fuel)%Z with (e + 1 - Z.of_nat (S fuel))%Z by lia.
Qed.

(** An integer is below the power of ten its binary size gives. *)
Lemma below_pow10_log2 (n : Z) :
  (0 < n)%Z -> inject_Z n < pow10 (Z.of_nat (S (Z.to_nat (Z.log2 n)))).
Proof.
  intros Hn. pose proof (Z.log2_nonneg n) as H0.
  pose proof (Z.log2_spec n Hn) as [_ H2].
  replace (Z.of_nat (S (Z.to_nat (Z.log2 n)))) with (Z.succ (Z.log2 n)) by lia.
  unfold pow10. change (10 # 1) with (inject_Z 10).
  rewrite <- Zpower_Qpower by lia. rewrite <- Zlt_Qlt.
  eapply Z.lt_le_trans; [exact H2|].
  apply Z.pow_le_mono_l. lia.
Qed.

Theorem ilog10_spec (q : Q) :
  0 < q -> pow10 (ilog10 q) <= q /\ q < pow10 (ilog10 q + 1).
Proof.
  intros Hq. unfold ilog10. destruct q as [n d].
  assert (Hn : (0 < n)%Z) by (unfold Qlt in Hq; cbn in Hq; lia).
  cbn [Qnum Qden].
  destruct (Qleb_spec 1 (n # d)) as [L|L].
  - apply log10_up_spec; [exact L|]. rewrite Z.add_0_l.
    eapply Qle_lt_trans; [|apply below_pow10_log2; exact Hn].
    unfold Qle, inject_Z. cbn. nia.
  - apply log10_down_spec; [change (-1 + 1)%Z with 0%Z; change (pow10 0) with 1; lra|].
    replace (-1 + 1 - Z.of_nat (S (Z.to_nat (Z.log2 (Z.pos d)))))%Z
      with (- Z.of_nat (S (Z.to_nat (Z.log2 (Z.pos d)))))%Z by lia.
    rewrite pow10_opp.
    pose proof (below_pow10_log2 (Z.pos d) ltac:(lia)) as Hd.
    set (P := pow10 _) in *.
    assert (HP : 0 < P) by apply pow10_pos.
    apply Qle_shift_inv_r; [exact HP|].
    assert (1 <= (n # d) * inject_Z (Z.pos d)).
    { unfold Qle, Qmult, inject_Z. cbn. nia. }
    assert (0 <= n # d) by lra.
    nra.
Qed.

(** The decade of [m * 10^e] for a mantissa [1 <= m < 10]. *)
Lemma ilog10_mantissa (q m : Q) (e : Z) :
  1 <= m -> m < 10 -> q == m * pow10 e -> ilog10 q = e.
Proof.
  intros H1 H10 Hq. pose proof (pow10_pos e) as HP.
  assert (Hpos : 0 < q) by (rewrite Hq; nra).
  destruct (ilog10_spec q Hpos) as [A B].
  apply (decade_unique q); auto.
  - rewrite Hq. nra.
  - rewrite Hq, pow10_succ. nra.
Qed.

Lemma pow10_lt_inv (a b : Z) : pow10 a < pow10 b -> (a < b)%Z.
Proof.
  intros H. destruct (Z.lt_ge_cases a b) as [L|L]; [exact L|].
  pose proof (pow10_le b a L). lra.
Qed.

End Log10.

(* ------------------------------------------------------------------ *)
(** ** Fixed notation and the printing of integers *)

Section FixedNotation.
Local Open Scope Q_scope.

Lemma round_half_up_compat (p q : Q) : p == q -> round_half_up p = round_half_up q.
Proof. intros H. unfold round_half_up. now rewrite H. Qed.

(** Rounding moves a non-negative number by at most one half. *)
Lemma round_half_up_near (q : Q) :
  0 <= q -> Qabs (inject_Z (Z.of_N (round_half_up q)) - q) <= 1 # 2.
Proof.
  intros Hq. unfold round_half_up.
  pose proof (Qfloor_le (q + (1 # 2))) as Hlo.
  pose proof (Qlt_floor (q + (1 # 2))) as Hhi.
  assert (H0 : (0 <= Qfloor (q + (1 # 2)))%Z).
  { change 0%Z with (Qfloor 0). apply Qfloor_resp_le. lra. }
  rewrite Z2N.id by exact H0.
  rewrite inject_Z_plus in Hhi. change (inject_Z 1) with 1 in Hhi.
  apply Qabs_Qle_condition. split; lra.
Qed.

Lemma fixed_digits_compat (f : nat) (p q : Q) :
  p == q -> fixed_digits f p = fixed_digits f q.
Proof.
  intros H. unfold fixed_digits.
  rewrite (round_half_up_compat (p * pow10 (Z.of_nat f)) (q * pow10 (Z.of_nat f)));
    [reflexivity|now rewrite H].
Qed.

(** With at least one fractional digit the fixed notation is a non-empty
    run of digits, a point, and exactly [f] digits; read together the
    digits are the rounded multiple of [10^-f]. *)
Lemma fixed_digits_shape (f : nat) (q : Q) :
  (1 <= f)%nat ->
  exists ip fp : string,
    fixed_digits f q = (ip ++ "." ++ fp)%string /\
    all_digits ip = true /\ (1 <= String.length ip)%nat /\
    all_digits fp = true /\ String.length fp = f /\
    value (ip ++ fp) = Some (round_half_up (q * pow10 (Z.of_nat f))).
Proof.
  intros Hf. unfold fixed_digits. set (n := round_half_up _).
  destruct f as [|f]; [lia|]. clear Hf.
  set (m := if (String.length (dec n) <=? S f)%nat then _ else _).
  assert (Hm : exists j, m = (zeros j ++ dec n)%string /\ (S f < String.length m)%nat).
  { subst m. destruct (Nat.leb_spec (String.length (dec n)) (S f)) as [L|L].
    - eexists. split; [reflexivity|]. rewrite length_append, length_zeros. lia.
    - exists 0%nat. split; [reflexivity|exact L]. }
  destruct Hm as (j & Hj & Hlen).
  assert (Hd : all_digits m = true).
  { rewrite Hj, all_digits_append, all_digits_zeros, all_digits_dec. reflexivity. }
  exists (str_take (String.length m - S f) m), (str_drop (String.length m - S f) m).
  rewrite <- (take_drop (String.length m - S f) m) in Hd.
  rewrite all_digits_append in Hd. apply andb_prop in Hd as [Hd1 Hd2].
  repeat split; auto.
  - rewrite length_take; lia.
  - rewrite length_drop. lia.
  - rewrite take_drop, Hj. apply value_zeros_dec.
Qed.

Lemma pow10_inject (k : Z) : (0 <= k)%Z -> pow10 k == inject_Z (10 ^ k).
Proof. intros H. unfold pow10. now rewrite Zpower_Qpower. Qed.

(** An integer below 2^53 prints as its digits. *)
Lemma positive_toString_integer (k : Z) :
  (0 < k < 2 ^ 53)%Z -> positive_toString (inject_Z k) = dec (Z.to_N k).
Proof.
  intros [H0 H1]. unfold positive_toString, is_integer.
  rewrite Qfloor_Z.
  destruct (Qeqb_spec (inject_Z k) (inject_Z k)) as [_|N]; [|exfalso; apply N; reflexivity].
  destruct (Qltb_spec (inject_Z k) (pow2 53)) as [_|N]; [reflexivity|].
  exfalso. apply N. change (pow2 53) with (inject_Z (2 ^ 53)). now rewrite <- Zlt_Qlt.
Qed.

Lemma Number_toString_integer (e : Z) :
  (- 2 ^ 53 < e < 2 ^ 53)%Z ->
  Number_toString (Fin (inject_Z e)) =
    ((if (e <? 0)%Z then "-" else "") ++ dec (Z.abs_N e))%string.
Proof.
  intros He. unfold Number_toString, Qsign. cbn [Qnum inject_Z].
  destruct (Z.compare_spec e 0) as [->|L|L].
  - reflexivity.
  - destruct (Z.ltb_spec e 0); [|lia].
    change (- inject_Z e) with (inject_Z (- e)).
    rewrite positive_toString_integer by lia.
    f_equal. f_equal. lia.
  - destruct (Z.ltb_spec e 0); [lia|].
    rewrite positive_toString_integer by lia.
    rewrite append_nil_l. f_equal. lia.
Qed.

(** Below 10^21 [toFixed] is the fixed notation of the magnitude after
    the sign. *)
Lemma toFixed_in_range (f : nat) (q : Q) :
  Qabs q < pow10 21 ->
  toFixed f (Fin q) =
    ((if Qltb q 0 then "-" else "") ++ fixed_digits f (Qabs q))%string.
Proof.
  intros H. unfold toFixed.
  destruct (Qleb_spec (pow10 21) (Qabs q)); [lra|reflexivity].
Qed.

End FixedNotation.

(* ------------------------------------------------------------------ *)
(** ** Rounding to binary64 *)

Section Binary64Rounding.
Local Open Scope Q_scope.

Lemma pow2_pos (e : Z) : 0 < pow2 e.
Proof. apply Qpower_0_lt. reflexivity. Qed.

Lemma pow2_plus (a b : Z) : pow2 (a + b) == pow2 a * pow2 b.
Proof. apply Qpower_plus. discriminate. Qed.

Lemma pow2_succ (e : Z) : pow2 (e + 1) == 2 * pow2 e.
Proof. rewrite pow2_plus. change (pow2 1) with (2 # 1). ring. Qed.

Lemma pow2_le (a b : Z) : (a <= b)%Z -> pow2 a <= pow2 b.
Proof. intros H. apply Qpower_le_compat_l; [exact H|discriminate]. Qed.

Lemma pow2_opp (e : Z) : pow2 (- e) == / pow2 e.
Proof. apply Qpower_opp. Qed.

Lemma pow2_inject (k : Z) : (0 <= k)%Z -> pow2 k == inject_Z (2 ^ k).
Proof. intros H. unfold pow2. now rewrite Zpower_Qpower. Qed.

Lemma pow2_minus (a b : Z) : pow2 (a - b) == pow2 a / pow2 b.
Proof.
  unfold Z.sub. rewrite pow2_plus, pow2_opp. reflexivity.
Qed.

(** A positive number lies in one binade only. *)
Lemma binade_unique (q : Q) (a b : Z) :
  pow2 a <= q -> q < pow2 (a + 1) ->
  pow2 b <= q -> q < pow2 (b + 1) -> a = b.
Proof.
  intros A1 A2 B1 B2.
  destruct (Z.lt_trichotomy a b) as [L|[E|L]]; [|exact E|]; exfalso.
  - pose proof (pow2_le (a + 1) b ltac:(lia)). lra.
  - pose proof (pow2_le (b + 1) a ltac:(lia)). lra.
Qed.

Lemma ilog2_spec (q : Q) :
  0 < q -> pow2 (ilog2 q) <= q /\ q < pow2 (ilog2 q + 1).
Proof.
  intros Hq. unfold ilog2. destruct q as [n d].
  assert (Hn : (0 < n)%Z) by (unfold Qlt in Hq; cbn in Hq; lia).
  cbn [Qnum Qden].
  set (A := Z.log2 n). set (B := Z.log2 (Z.pos d)).
  pose proof (Z.log2_spec n Hn) as [HA1 HA2]. fold A in HA1, HA2.
  pose proof (Z.log2_spec (Z.pos d) ltac:(lia)) as [HB1 HB2]. fold B in HB1, HB2.
  pose proof (Z.log2_nonneg n) as A0. fold A in A0.
  pose proof (Z.log2_nonneg (Z.pos d)) as B0. fold B in B0.
  rewrite Z.pow_succ_r in HA2, HB2 by assumption.
  assert (Ea : pow2 A == inject_Z (2 ^ A)) by (apply pow2_inject; exact A0).
  assert (Eb : pow2 B == inject_Z (2 ^ B)) by (apply pow2_inject; exact B0).
  rewrite Zle_Qle in HA1, HB1. rewrite Zlt_Qlt in HA2, HB2.
  rewrite inject_Z_mult in HA2, HB2. change (inject_Z 2) with 2 in HA2, HB2.
  rewrite <- Ea in HA1, HA2. rewrite <- Eb in HB1, HB2.
  pose proof (pow2_pos A) as Pa. pose proof (pow2_pos B) as Pb.
  assert (Eq : n # d == inject_Z n / inject_Z (Z.pos d)) by apply Qmake_Qdiv.
  set (x := inject_Z n) in *. set (y := inject_Z (Z.pos d)) in *.
  assert (Hy : 0 < y) by lra.
  assert (E0 : pow2 (A - B) == pow2 A / pow2 B) by apply pow2_minus.
  destruct (Qleb_spec (pow2 (A - B)) (n # d)) as [L|L].
  - split; [exact L|]. rewrite pow2_succ, E0, Eq.
    apply Qlt_shift_div_r; [exact Hy|].
    assert (E : 2 * (pow2 A / pow2 B) * y == 2 * pow2 A * y / pow2 B) by (field; lra).
    rewrite E. apply Qlt_shift_div_l; [exact Pb|]. nra.
  - replace (A - B - 1 + 1)%Z with (A - B)%Z by lia. split; [|lra].
    assert (E1 : pow2 (A - B - 1) == pow2 A / (2 * pow2 B)).
    { replace (A - B - 1)%Z with (A - (B + 1))%Z by lia.
      rewrite pow2_minus, pow2_succ. reflexivity. }
    rewrite E1, Eq. apply Qle_shift_div_l; [exact Hy|].
    assert (E : pow2 A / (2 * pow2 B) * y == pow2 A * y / (2 * pow2 B)) by (field; lra).
    rewrite E. apply Qle_shift_div_r; [lra|]. nra.
Qed.

Lemma ilog2_compat (p q : Q) : 0 < p -> p == q -> ilog2 p = ilog2 q.
Proof.
  intros Hp E. assert (Hq : 0 < q) by lra.
  destruct (ilog2_spec p Hp) as [A1 A2]. destruct (ilog2_spec q Hq) as [B1 B2].
  apply (binade_unique p); auto; lra.
Qed.

Lemma ilog2_le (p q : Q) : 0 < p -> p <= q -> (ilog2 p <= ilog2 q)%Z.
Proof.
  intros Hp L. assert (Hq : 0 < q) by lra.
  destruct (ilog2_spec p Hp) as [A1 A2]. destruct (ilog2_spec q Hq) as [B1 B2].
  destruct (Z.le_gt_cases (ilog2 p) (ilog2 q)) as [H|H]; [exact H|exfalso].
  pose proof (pow2_le (ilog2 q + 1) (ilog2 p) ltac:(lia)). lra.
Qed.

(** *** Rounding to an integer *)

Lemma round_half_even_cases (q : Q) :
  let f := Qfloor q in
  (round_half_even q = f /\ q - inject_Z f <= 1 # 2) \/
  (round_half_even q = (f + 1)%Z /\ 1 # 2 <= q - inject_Z f).
Proof.
  intros f. unfold round_half_even. fold f.
  destruct (Qcompare_spec (q - inject_Z f) (1 # 2)).
  - destruct (Z.even f); [left|right]; split; auto; lra.
  - left. split; [reflexivity|lra].
  - right. split; [reflexivity|lra].
Qed.

Lemma floor_bounds (q : Q) :
  inject_Z (Qfloor q) <= q /\ q < inject_Z (Qfloor q) + 1.
Proof.
  split; [apply Qfloor_le|].
  pose proof (Qlt_floor q) as H. rewrite inject_Z_plus in H. exact H.
Qed.

Lemma round_half_even_near (q : Q) :
  Qabs (inject_Z (round_half_even q) - q) <= 1 # 2.
Proof.
  destruct (floor_bounds q) as [F1 F2].
  apply Qabs_Qle_condition.
  destruct (round_half_even_cases q) as [[-> H]|[-> H]].
  - split; lra.
  - rewrite inject_Z_plus. change (inject_Z 1) with 1. split; lra.
Qed.

Lemma round_half_even_compat (p q : Q) :
  p == q -> round_half_even p = round_half_even q.
Proof.
  intros E. unfold round_half_even. rewrite (Qfloor_comp p q E).
  assert (C : Qcompare (p - inject_Z (Qfloor q)) (1 # 2)
            = Qcompare (q - inject_Z (Qfloor q)) (1 # 2)).
  { apply Qcompare_comp; [now rewrite E|reflexivity]. }
  now rewrite C.
Qed.

Lemma round_half_even_Z (n : Z) : round_half_even (inject_Z n) = n.
Proof.
  unfold round_half_even. rewrite Qfloor_Z.
  assert (C : Qcompare (inject_Z n - inject_Z n) (1 # 2) = Lt).
  { apply (proj1 (Qlt_alt _ _)). lra. }
  now rewrite C.
Qed.

Lemma round_half_even_le (p q : Q) :
  p <= q -> (round_half_even p <= round_half_even q)%Z.
Proof.
  intros L.
  pose proof (Qfloor_resp_le p q L) as F.
  destruct (floor_bounds p) as [P1 P2]. destruct (floor_bounds q) as [Q1 Q2].
  destruct (Z.eq_dec (Qfloor p) (Qfloor q)) as [E|N].
  - unfold round_half_even. rewrite E in *.
    destruct (Qcompare_spec (p - inject_Z (Qfloor q)) (1 # 2));
      destruct (Qcompare_spec (q - inject_Z (Qfloor q)) (1 # 2));
      try lra; destruct (Z.even (Qfloor q)); lia.
  - assert (F' : (Qfloor p + 1 <= Qfloor q)%Z) by lia.
    destruct (round_half_even_cases p) as [[-> _]|[-> _]];
      destruct (round_half_even_cases q) as [[-> _]|[-> _]]; lia.
Qed.

Lemma round_half_even_nonneg (q : Q) : 0 <= q -> (0 <= round_half_even q)%Z.
Proof.
  intros H. rewrite <- (round_half_even_Z 0). now apply round_half_even_le.
Qed.

(** *** Rounding a rational *)

Lemma ulp_pos (q : Q) : 0 < ulp q.
Proof. apply pow2_pos. Qed.

Lemma ulp_compat (p q : Q) : 0 < p -> p == q -> ulp p = ulp q.
Proof. intros Hp E. unfold ulp. now rewrite (ilog2_compat p q Hp E). Qed.

Lemma nearest_compat (p q : Q) : 0 < p -> p == q -> nearest p = nearest q.
Proof.
  intros Hp E. unfold nearest. rewrite (ulp_compat p q Hp E).
  rewrite (round_half_even_compat (p / ulp q) (q / ulp q)); [reflexivity|].
  now rewrite E.
Qed.

Lemma nearest_nonneg (q : Q) : 0 <= q -> 0 <= nearest q.
Proof.
  intros H. unfold nearest. pose proof (ulp_pos q) as U.
  assert (H0 : 0 <= q / ulp q) by (apply Qle_shift_div_l; lra).
  pose proof (round_half_even_nonneg _ H0) as R. rewrite Zle_Qle in R.
  change (inject_Z 0) with 0 in R. nra.
Qed.

(** The nearest multiple is within half the spacing. *)
Lemma nearest_near (q : Q) : Qabs (nearest q - q) <= ulp q / 2.
Proof.
  unfold nearest. pose proof (ulp_pos q) as U. set (u := ulp q) in *.
  pose proof (round_half_even_near (q / u)) as H.
  apply Qabs_Qle_condition in H as [H1 H2].
  set (m := inject_Z (round_half_even (q / u))) in *.
  assert (E : q == q / u * u) by (field; lra).
  assert (E2 : u / 2 == (1 # 2) * u) by field.
  apply Qabs_Qle_condition. rewrite E2. split.
  - assert (- ((1 # 2) * u) <= (m - q / u) * u) by nra.
    assert (Ex : m * u - q == (m - q / u) * u) by (field; lra).
    rewrite Ex. assumption.
  - assert ((m - q / u) * u <= (1 # 2) * u) by nra.
    assert (Ex : m * u - q == (m - q / u) * u) by (field; lra).
    rewrite Ex. assumption.
Qed.

(** From 2^-1022 on the spacing is at most 2^-52 of the value. *)
Lemma ulp_normal (q : Q) : pow2 (-1022) <= q -> ulp q <= q * pow2 (-52).
Proof.
  intros H. pose proof (pow2_pos (-1022)) as P.
  assert (He : (-1022 <= ilog2 q)%Z).
  { destruct (Z.le_gt_cases (-1022) (ilog2 q)) as [L|L]; [exact L|exfalso].
    pose proof (pow2_le (ilog2 q + 1) (-1022) ltac:(lia)) as M.
    set (c := pow2 (-1022)) in *. clearbody c.
    destruct (ilog2_spec q ltac:(lra)) as [A B]. lra. }
  set (c := pow2 (-1022)) in *. clearbody c.
  assert (Hq : 0 < q) by lra.
  destruct (ilog2_spec q Hq) as [A B].
  unfold ulp. rewrite Z.max_l by lia.
  replace (ilog2 q - 52)%Z with (ilog2 q + -52)%Z by lia. rewrite pow2_plus.
  pose proof (pow2_pos (-52)). set (d := pow2 (-52)) in *. clearbody d. nra.
Qed.

Lemma nearest_le (p q : Q) : 0 < p -> p <= q -> nearest p <= nearest q.
Proof.
  intros Hp L. assert (Hq : 0 < q) by lra.
  pose proof (ilog2_le p q Hp L) as Hl.
  destruct (ilog2_spec p Hp) as [A1 A2]. destruct (ilog2_spec q Hq) as [B1 B2].
  unfold nearest, ulp.
  set (tp := Z.max (ilog2 p - 52) (-1074)). set (tq := Z.max (ilog2 q - 52) (-1074)).
  assert (Ht : (tp <= tq)%Z) by (unfold tp, tq; lia).
  pose proof (pow2_pos tp) as Up. pose proof (pow2_pos tq) as Uq.
  destruct (Z.eq_dec tp tq) as [E|N].
  - rewrite E in *.
    assert (D : p / pow2 tq <= q / pow2 tq).
    { unfold Qdiv. apply Qmult_le_compat_r; [exact L|]. apply Qlt_le_weak, Qinv_lt_0_compat, Uq. }
    pose proof (round_half_even_le _ _ D) as R. rewrite Zle_Qle in R. nra.
  - assert (Etq : tq = (ilog2 q - 52)%Z) by (unfold tp, tq in *; lia).
    assert (Hlt : (ilog2 p + 1 <= ilog2 q)%Z) by (unfold tp, tq in *; lia).
    set (B := pow2 (ilog2 q)) in *.
    assert (HpB : p <= B).
    { pose proof (pow2_le (ilog2 p + 1) (ilog2 q) Hlt). unfold B. lra. }
    (* the rounding of q is at least B *)
    assert (Lq : B <= inject_Z (round_half_even (q / pow2 tq)) * pow2 tq).
    { assert (EB : B == inject_Z (2 ^ 52) * pow2 tq).
      { unfold B. replace (ilog2 q) with (52 + tq)%Z by lia.
        rewrite pow2_plus, (pow2_inject 52) by lia. reflexivity. }
      assert (D : inject_Z (2 ^ 52) <= q / pow2 tq).
      { apply Qle_shift_div_l; [exact Uq|]. rewrite <- EB. exact B1. }
      pose proof (round_half_even_le _ _ D) as R. rewrite round_half_even_Z in R.
      rewrite Zle_Qle in R. rewrite EB. nra. }
    (* the rounding of p is at most B *)
    assert (Lp : inject_Z (round_half_even (p / pow2 tp)) * pow2 tp <= B).
    { assert (Hk : (0 <= ilog2 q - tp)%Z) by lia.
      assert (EB : B == inject_Z (2 ^ (ilog2 q - tp)) * pow2 tp).
      { unfold B. replace (ilog2 q) with ((ilog2 q - tp) + tp)%Z at 1 by lia.
        rewrite pow2_plus, (pow2_inject (ilog2 q - tp)) by lia. reflexivity. }
      assert (D : p / pow2 tp <= inject_Z (2 ^ (ilog2 q - tp))).
      { apply Qle_shift_div_r; [exact Up|]. rewrite <- EB. exact HpB. }
      pose proof (round_half_even_le _ _ D) as R. rewrite round_half_even_Z in R.
      rewrite Zle_Qle in R. rewrite EB. nra. }
    lra.
Qed.

Lemma Qsign_compat (p q : Q) : p == q -> Qsign p = Qsign q.
Proof.
  intros E. pose proof (Qsign_spec p) as Sp. pose proof (Qsign_spec q) as Sq.
  destruct (Qsign p), (Qsign q); auto; lra.
Qed.

(** Rounding does not depend on how the rational is written. *)
Lemma binary64_compat (p q : Q) : p == q -> binary64 p = binary64 q.
Proof.
  intros E. unfold binary64. rewrite (Qsign_compat p q E).
  pose proof (Qsign_spec q) as S.
  destruct (Qsign q); [reflexivity| |].
  - assert (Ha : Qabs p == Qabs q) by now rewrite E.
    assert (Hp : 0 < Qabs p) by (rewrite Ha, Qabs_neg; lra).
    now rewrite (nearest_compat _ _ Hp Ha).
  - assert (Ha : Qabs p == Qabs q) by now rewrite E.
    assert (Hp : 0 < Qabs p) by (rewrite Ha, Qabs_pos; lra).
    now rewrite (nearest_compat _ _ Hp Ha).
Qed.

(** What rounding makes of a positive rational. *)
Lemma binary64_positive (q : Q) :
  0 < q ->
  binary64 q = if Qle_bool (pow2 1024) (nearest q) then PosInf else Fin (Qred (nearest q)).
Proof.
  intros H. destruct q as [[|n|n] d]; try (exfalso; revert H; unfold Qlt; cbn; lia).
  reflexivity.
Qed.

Lemma binary64_negative (q : Q) :
  q < 0 ->
  binary64 q = if Qle_bool (pow2 1024) (nearest (- q)) then NegInf
               else Fin (Qred (- nearest (- q))).
Proof.
  intros H. destruct q as [[|n|n] d]; try (exfalso; revert H; unfold Qlt; cbn; lia).
  reflexivity.
Qed.

(** Rounding keeps the order of positive rationals. *)
Lemma binary64_le (p q : Q) :
  0 < p -> p <= q -> le (binary64 p) (binary64 q) = true.
Proof.
  intros Hp L. assert (Hq : 0 < q) by lra.
  pose proof (nearest_le p q Hp L) as N.
  rewrite (binary64_positive p Hp), (binary64_positive q Hq).
  destruct (Qleb_spec (pow2 1024) (nearest p)), (Qleb_spec (pow2 1024) (nearest q));
    try reflexivity; try lra.
  apply le_Fin. now rewrite !Qred_correct.
Qed.

(** A positive rational rounds to a number that is not negative. *)
Lemma binary64_nonneg (q : Q) : 0 < q -> le (Fin 0) (binary64 q) = true.
Proof.
  intros Hq. rewrite (binary64_positive q Hq).
  destruct (Qleb_spec (pow2 1024) (nearest q)); [reflexivity|].
  apply le_Fin. rewrite Qred_correct. apply nearest_nonneg. lra.
Qed.

(** Between 2^-1022 and 2^1023 rounding gives a finite number, within
    2^-53 of the rational, relatively. *)
Lemma binary64_normal (q : Q) :
  pow2 (-1022) <= q -> q <= pow2 1023 ->
  exists r : Q, binary64 q = Fin r /\ Qabs (r - q) <= q * pow2 (-53).
Proof.
  intros Hlo Hhi.
  assert (Hq : 0 < q).
  { pose proof (pow2_pos (-1022)) as P. set (c := pow2 (-1022)) in *. clearbody c. lra. }
  pose proof (nearest_near q) as N. pose proof (ulp_normal q Hlo) as U.
  clear Hlo.
  assert (E53 : pow2 (-52) / 2 == pow2 (-53)) by (vm_compute; reflexivity).
  assert (B : Qabs (nearest q - q) <= q * pow2 (-53)).
  { eapply Qle_trans; [exact N|]. rewrite <- E53.
    assert (Ex : q * (pow2 (-52) / 2) == q * pow2 (-52) / 2) by field.
    rewrite Ex. unfold Qdiv. apply Qmult_le_compat_r; [exact U|discriminate]. }
  rewrite (binary64_positive q Hq).
  destruct (Qleb_spec (pow2 1024) (nearest q)) as [O|_].
  - exfalso. apply Qabs_Qle_condition in B as [_ B2].
    assert (P53 : pow2 (-53) < 1) by reflexivity.
    assert (E24 : pow2 1024 == 2 * pow2 1023) by (apply (pow2_succ 1023)).
    rewrite E24 in O. clear E24 E53 N U.
    set (e := pow2 (-53)) in *. set (T := pow2 1023) in *. clearbody e T.
    assert (q * e < q * 1) by (apply Qmult_lt_l; assumption).
    lra.
  - exists (Qred (nearest q)). split; [reflexivity|]. now rewrite Qred_correct.
Qed.

End Binary64Rounding.

(* ------------------------------------------------------------------ *)
(** ** ScaleCalculator.formatScale and its reading back *)

Section FormatScale.
Import ScaleCalculator.
Local Open Scope Q_scope.

Lemma strip_minus_minus (t : string) : strip_minus ("-" ++ t) = (true, t).
Proof. reflexivity. Qed.

Lemma strip_minus_digits (a t : string) :
  all_digits a = true -> (1 <= String.length a)%nat ->
  strip_minus (a ++ t) = (false, (a ++ t)%string).
Proof.
  intros Ha Hl. destruct a as [|c a]; [cbn in Hl; lia|].
  rewrite append_cons. unfold strip_minus. cbn [strip_prefix].
  cbn in Ha. apply andb_prop in Ha as [Hc _].
  destruct (Ascii.eqb_spec "-" c) as [<-|_]; [discriminate|reflexivity].
Qed.

(** Reading back a rendering. *)
Lemma parseScale_rendering (neg : bool) (ip fp : string) (h : N) (e : Z) :
  all_digits ip = true -> (1 <= String.length ip)%nat ->
  all_digits fp = true -> String.length fp = 2%nat ->
  value (ip ++ fp) = Some h ->
  parseScale ((if neg then "-" else "") ++ (ip ++ "." ++ fp) ++ " × 10^"
              ++ ((if (e <? 0)%Z then "-" else "") ++ dec (Z.abs_N e)) ++ " m") =
    Some {| negative := neg; hundredths := h; exponent10 := e |}.
Proof.
  intros Hip Hlip Hfp Hlfp Hv. unfold parseScale.
  rewrite !append_assoc.
  assert (E1 : strip_minus ((if neg then "-" else "") ++ ip ++ "." ++ fp ++ " × 10^"
                 ++ (if (e <? 0)%Z then "-" else "") ++ dec (Z.abs_N e) ++ " m") =
               (neg, (ip ++ "." ++ fp ++ " × 10^"
                 ++ (if (e <? 0)%Z then "-" else "") ++ dec (Z.abs_N e) ++ " m")%string)).
  { destruct neg; [apply strip_minus_minus|].
    rewrite append_nil_l. now apply strip_minus_digits. }
  rewrite E1. rewrite span_digits_append by (auto; reflexivity).
  rewrite strip_prefix_append.
  rewrite span_digits_append by (auto; reflexivity).
  rewrite strip_prefix_append.
  assert (E2 : strip_minus ((if (e <? 0)%Z then "-" else "") ++ dec (Z.abs_N e) ++ " m") =
               ((e <? 0)%Z, (dec (Z.abs_N e) ++ " m")%string)).
  { destruct (e <? 0)%Z; [apply strip_minus_minus|].
    rewrite append_nil_l. apply strip_minus_digits;
      [apply all_digits_dec|apply dec_nonempty]. }
  rewrite E2. rewrite span_digits_append by (try apply all_digits_dec; reflexivity).
  destruct (Nat.ltb_spec 0 (String.length ip)); [|lia].
  rewrite Hlfp, Hv, value_dec. cbn.
  f_equal. f_equal. destruct (Z.ltb_spec e 0); lia.
Qed.

End FormatScale.

(* ------------------------------------------------------------------ *)
(** ** ScaleCalculator.formatScale in binary64 *)

Section FormatScaleBinary64.
Import Binary64 Binary64.ScaleCalculator.
Local Open Scope Q_scope.

Variable Math_log10 : number -> number.
Variable Math_pow : number -> number -> number.

Lemma Qabs_opp_eq (v : Q) : Qabs (- v) = Qabs v.
Proof. destruct v as [n d]. unfold Qabs, Qopp. cbn. f_equal. apply Z.abs_opp. Qed.

Lemma Qabs_Qabs_eq (v : Q) : Qabs (Qabs v) = Qabs v.
Proof. destruct v as [[|n|n] d]; reflexivity. Qed.

Lemma literal_1e_100_value :
  exists d : Q, literal_1e_100 = Fin d /\ pow10 (-101) <= d.
Proof. eexists. split; [vm_compute; reflexivity|vm_compute; discriminate]. Qed.

(** The rounded quotient of [A] by an approximation [p] of [T], against
    the quotient of [A] by [T], for [A] between [T / 10] and [10 T]. *)
Lemma quotient_error (A T p r : Q) :
  0 < T -> T / 10 <= A -> A < 10 * T ->
  Qabs (p - T) <= T * pow2 (-51) ->
  Qabs (r - A / p) <= A / p * pow2 (-53) ->
  0 < p /\ 0 <= r /\ r <= 12 /\ Qabs (r - A / T) <= 1 / 10 ^ 14.
Proof.
  intros HT Hlo Hhi Hp Hr.
  assert (E51 : 0 < pow2 (-51) /\ pow2 (-51) <= 5 / 10 ^ 16)
    by (split; [reflexivity|vm_compute; discriminate]).
  assert (E53 : 0 < pow2 (-53) /\ pow2 (-53) <= 2 / 10 ^ 16)
    by (split; [reflexivity|vm_compute; discriminate]).
  assert (C16 : 5 / 10 ^ 16 == 5 # 10000000000000000) by reflexivity.
  assert (D16 : 2 / 10 ^ 16 == 2 # 10000000000000000) by reflexivity.
  assert (C14 : 1 / 10 ^ 14 == 1 # 100000000000000) by reflexivity.
  rewrite C16 in E51. rewrite D16 in E53. rewrite C14. clear C16 D16 C14.
  set (e := pow2 (-51)) in *. set (f := pow2 (-53)) in *. clearbody e f.
  destruct E51 as [e0 e1]. destruct E53 as [f0 f1].
  apply Qabs_Qle_condition in Hp as [Hp1 Hp2].
  assert (Te : T * e <= T * (5 # 10000000000000000)) by nra.
  assert (P0 : 0 < p) by nra.
  assert (HA : 0 < A).
  { assert (T / 10 == T * (1 # 10)) as E by field. rewrite E in Hlo. nra. }
  assert (HT10 : T * (1 # 10) <= A).
  { assert (T / 10 == T * (1 # 10)) as E by field. now rewrite E in Hlo. }
  set (y := A / p) in *. set (a := A / T).
  assert (Ey : y * p == A) by (unfold y; field; lra).
  assert (Ea : a * T == A) by (unfold a; field; lra).
  assert (Y0 : 0 < y) by (unfold y; apply Qlt_shift_div_l; lra).
  assert (Y11 : y <= 11).
  { destruct (Qlt_le_dec 11 y) as [G|G]; [exfalso|exact G].
    assert (11 * p < y * p) by nra. nra. }
  apply Qabs_Qle_condition in Hr as [Hr1 Hr2].
  assert (Yf : y * f <= 11 * (2 # 10000000000000000)) by nra.
  (* (y - a) T = y (T - p) *)
  assert (Eya : (y - a) * T == y * (T - p)) by lra.
  assert (B1 : (y - a) * T <= 11 * (T * (5 # 10000000000000000))) by nra.
  assert (B2 : - (11 * (T * (5 # 10000000000000000))) <= (y - a) * T) by nra.
  assert (D1 : y - a <= 11 * (5 # 10000000000000000)) by nra.
  assert (D2 : - (11 * (5 # 10000000000000000)) <= y - a) by nra.
  split; [exact P0|]. split; [nra|]. split; [nra|].
  apply Qabs_Qle_condition. fold a. split; lra.
Qed.


Lemma quotient_range (A T p : Q) :
  0 < T -> T / 10 <= A -> A < 10 * T ->
  Qabs (p - T) <= T * pow2 (-51) ->
  0 < p /\ 1 # 20 <= A / p /\ A / p <= 11.
Proof.
  intros HT Hlo Hhi Hp.
  assert (E51 : 0 < pow2 (-51) /\ pow2 (-51) <= 5 # 10000000000000000)
    by (split; [reflexivity|vm_compute; discriminate]).
  set (e := pow2 (-51)) in *. clearbody e. destruct E51 as [e0 e1].
  apply Qabs_Qle_condition in Hp as [Hp1 Hp2].
  assert (Te : T * e <= T * (5 # 10000000000000000)) by nra.
  assert (P0 : 0 < p) by nra.
  assert (HT10 : T * (1 # 10) <= A).
  { assert (T / 10 == T * (1 # 10)) as E by field. now rewrite E in Hlo. }
  split; [exact P0|]. split.
  - apply Qle_shift_div_l; [exact P0|]. lra.
  - apply Qle_shift_div_r; [exact P0|]. lra.
Qed.

Lemma is_binary64_range (v : Q) : is_binary64 (Fin v) = true -> Qabs v < pow2 1024.
Proof.
  unfold is_binary64. intros H. set (c := pow2 1024) in *.
  destruct (Qlt_le_dec 0 v) as [P|N].
  - rewrite (binary64_positive v P) in H. fold c in H.
    set (n := nearest v) in *. clearbody n c.
    destruct (Qleb_spec c n) as [_|L]; [discriminate|].
    cbn [strict_eq] in H. apply Qeq_bool_iff in H. rewrite Qred_correct in H.
    rewrite Qabs_pos by lra. lra.
  - destruct (Qlt_le_dec v 0) as [P|Z].
    + rewrite (binary64_negative v P) in H. fold c in H.
      set (n := nearest (- v)) in *. clearbody n c.
      destruct (Qleb_spec c n) as [_|L]; [discriminate|].
      cbn [strict_eq] in H. apply Qeq_bool_iff in H. rewrite Qred_correct in H.
      rewrite Qabs_neg by lra. lra.
    + assert (E : v == 0) by lra. rewrite E. vm_compute. reflexivity.
Qed.

(** The decimal exponents of the binary64 values from 1e-100 on. *)
Lemma exponent_range (A d : Q) (k : Z) :
  pow10 (-101) <= d -> d <= A -> A < pow2 1024 ->
  pow10 (k - 1) <= A -> A < pow10 (k + 1) -> (-102 < k < 310)%Z.
Proof.
  intros Hd HA R Hlo Hhi.
  assert (H1 : (-101 < k + 1)%Z).
  { apply pow10_lt_inv. eapply Qle_lt_trans; [exact Hd|].
    eapply Qle_lt_trans; [exact HA|exact Hhi]. }
  assert (H2 : (k - 1 < 309)%Z).
  { apply pow10_lt_inv. eapply Qle_lt_trans; [exact Hlo|].
    eapply Qlt_le_trans; [exact R|]. vm_compute. discriminate. }
  clear - H1 H2. lia.
Qed.

(** What [formatScale] prints, read back, when the exponent it computes
    is [k] and the value lies within a decade of [10^k]. *)
Lemma formatScale_reading (v : Q) (k : Z) :
  lt (Math_abs (Fin v)) literal_1e_100 = false ->
  Qabs v < pow2 1024 ->
  Math_floor (Math_log10 (Math_abs (Fin v))) = Fin (inject_Z k) ->
  pow_accurate Math_pow k ->
  pow10 (k - 1) <= Qabs v -> Qabs v < pow10 (k + 1) ->
  exists r : scale_reading,
    parseScale (formatScale Math_log10 Math_pow (Fin v)) = Some r /\
    negative r = Qltb v 0 /\ exponent10 r = k /\
    Qabs (mantissa_of r - Qabs v / pow10 k) <= 1 / 200 + 1 / 10 ^ 14.
Proof.
  intros G R HL (p & Ep & Hp) Hlo Hhi.
  destruct literal_1e_100_value as (d & Ed & Hd).
  pose proof (pow10_pos k) as HT. pose proof (pow10_pos (k - 1)) as HT1.
  assert (E10 : pow10 (k - 1) == pow10 k / 10).
  { pose proof (pow10_succ (k - 1)) as E. replace (k - 1 + 1)%Z with k in E by lia.
    rewrite E. field. }
  assert (Hk : (-102 < k < 310)%Z).
  { rewrite Ed in G. cbn [Math_abs lt] in G.
    destruct (Qltb_spec (Qabs v) d) as [|G']; [discriminate|].
    apply Qnot_lt_le in G'.
    exact (exponent_range (Qabs v) d k Hd G' R Hlo Hhi). }
  assert (Hpos : 0 < Qabs v) by (eapply Qlt_le_trans; [exact HT1|exact Hlo]).
  clear R Hd HT1.
  rewrite E10 in Hlo. rewrite pow10_succ in Hhi.
  destruct (quotient_range (Qabs v) (pow10 k) p HT Hlo Hhi Hp) as (P0 & Y1 & Y2).
  destruct (binary64_normal (Qabs v / p)) as (r & Er & Hr).
  { eapply Qle_trans; [|exact Y1]. vm_compute. discriminate. }
  { eapply Qle_trans; [exact Y2|]. vm_compute. discriminate. }
  destruct (quotient_error (Qabs v) (pow10 k) p r HT Hlo Hhi Hp Hr) as (_ & R0 & R12 & Rm).
  clear Hp Hr Y1 Y2.
  unfold formatScale. cbn [strict_eq].
  destruct (Qeqb_spec v 0) as [E|_].
  { rewrite E in Hpos. change (Qabs 0) with 0 in Hpos. lra. }
  rewrite G. cbv zeta. rewrite HL, Ep.
  change (Math_abs (Fin v)) with (Fin (Qabs v)).
  unfold Binary64.div. rewrite (div_Fin_pos p (Qabs v) P0).
  rewrite (binary64_compat (Qred (Qabs v / p)) (Qabs v / p)) by apply Qred_correct.
  rewrite Er. cbn [lt].
  assert (Habs : Qabs r == r) by (apply Qabs_pos; exact R0).
  rewrite toFixed_in_range.
  2:{ rewrite Habs. pose proof (pow10_le 2 21 ltac:(lia)) as P.
      change (pow10 2) with (100 # 1) in P. lra. }
  destruct (Qltb_spec r 0) as [L|_]; [lra|].
  rewrite append_nil_l. rewrite (fixed_digits_compat 2 _ _ Habs).
  rewrite Number_toString_integer by lia.
  destruct (fixed_digits_shape 2 r ltac:(lia)) as (ip & fp & -> & Hip & Hlip & Hfp & Hlfp & Hv).
  rewrite (parseScale_rendering (Qltb v 0) ip fp _ k Hip Hlip Hfp Hlfp Hv).
  eexists. split; [reflexivity|]. cbn [negative exponent10 hundredths].
  split; [reflexivity|]. split; [reflexivity|].
  unfold mantissa_of. cbn [hundredths].
  pose proof (round_half_up_near (r * pow10 (Z.of_nat 2)) ltac:(change (pow10 (Z.of_nat 2)) with 100; lra)) as Hn.
  change (pow10 (Z.of_nat 2)) with 100 in *.
  set (h := inject_Z (Z.of_N (round_half_up (r * 100)))) in *.
  apply Qabs_Qle_condition in Hn as [Hn1 Hn2].
  apply Qabs_Qle_condition in Rm as [Rm1 Rm2].
  assert (Eh : h / 100 == h * (1 # 100)) by field.
  assert (C14 : 1 / 10 ^ 14 == 1 # 100000000000000) by reflexivity.
  assert (C200 : 1 / 200 == 1 # 200) by reflexivity.
  rewrite C14 in *. rewrite C200. rewrite Eh.
  apply Qabs_Qle_condition. split; lra.
Qed.


(** The hundredths read back, from bounds of the mantissa. *)
Lemma hundredths_between (h : N) (m : Q) (lo hi : Z) :
  inject_Z lo - (4 # 10) <= m * 100 -> m * 100 <= inject_Z hi + (4 # 10) ->
  Qabs (inject_Z (Z.of_N h) / 100 - m) <= 1 / 200 + 1 / 10 ^ 14 ->
  (Z.to_N lo <= h <= Z.to_N hi)%N.
Proof.
  intros Hlo Hhi H.
  assert (C : 1 / 200 + 1 / 10 ^ 14 == 500000000001 # 100000000000000) by reflexivity.
  rewrite C in H. apply Qabs_Qle_condition in H as [H1 H2].
  set (x := inject_Z (Z.of_N h)) in *.
  assert (Ex : x / 100 == x * (1 # 100)) by field. rewrite Ex in H1, H2.
  assert (L : inject_Z (lo - 1) < x).
  { replace (lo - 1)%Z with (lo + -1)%Z by lia. rewrite inject_Z_plus.
    change (inject_Z (-1)) with (-1 # 1). lra. }
  assert (U : x < inject_Z (hi + 1)).
  { rewrite inject_Z_plus. change (inject_Z 1) with 1. lra. }
  unfold x in L, U. rewrite <- Zlt_Qlt in L, U. lia.
Qed.


End FormatScaleBinary64.

Section FormatScaleBoundary.
Local Open Scope Q_scope.



End FormatScaleBoundary.

(* ------------------------------------------------------------------ *)
(** ** ScaleCalculator.formatTime *)

Section FormatTime.
Import ScaleCalculator.
Local Open Scope Q_scope.


(** What [decimal_places] prints: after the sign, digits, a point and
    exactly [f] digits, which read together are within half a unit of the
    last place of the magnitude of [q]. *)
Lemma decimal_places_shape (f : nat) (q : Q) :
  (1 <= f)%nat ->
  exists (ip fp : string) (h : N),
    decimal_places f q = ((if Qltb q 0 then "-" else "") ++ ip ++ "." ++ fp)%string /\
    all_digits ip = true /\ (1 <= String.length ip)%nat /\
    all_digits fp = true /\ String.length fp = f /\
    value (ip ++ fp) = Some h /\
    Qabs (inject_Z (Z.of_N h) - Qabs q * pow10 (Z.of_nat f)) <= 1 # 2.
Proof.
  intros Hf. unfold decimal_places.
  destruct (fixed_digits_shape f (Qabs q) Hf) as (ip & fp & -> & H1 & H2 & H3 & H4 & H5).
  exists ip, fp, (round_half_up (Qabs q * pow10 (Z.of_nat f))).
  repeat split; auto.
  apply round_half_up_near.
  apply Qmult_le_0_compat; [apply Qabs_nonneg|apply Qlt_le_weak, pow10_pos].
Qed.

Lemma toFixed_decimal_places (f : nat) (q : Q) :
  - pow10 21 < q -> q < pow10 21 -> toFixed f (Fin q) = decimal_places f q.
Proof.
  intros Hlo Hhi. apply toFixed_in_range. apply Qabs_Qlt_condition. split; assumption.
Qed.


End FormatTime.

(* ------------------------------------------------------------------ *)
(** ** ScaleCalculator.formatTime in binary64 *)

Section FormatTimeBinary64.
Import Binary64 Binary64.ScaleCalculator.
Local Open Scope Q_scope.

(** The quotient of two positive numbers, when a bound of it rounds to a
    finite number. *)
Lemma div_bounded (s d c c' : Q) :
  0 < d -> 0 < s -> s / d <= c -> binary64 c = Fin c' ->
  exists r : Q, Binary64.div (Fin s) (Fin d) = Fin r /\ 0 <= r /\ r <= c'.
Proof.
  intros Hd Hs Hc Ec. unfold Binary64.div. rewrite (div_Fin_pos d s Hd).
  rewrite (binary64_compat (Qred (s / d)) (s / d)) by apply Qred_correct.
  assert (Hq : 0 < s / d) by (apply Qlt_shift_div_l; lra).
  pose proof (binary64_le (s / d) c Hq Hc) as L. rewrite Ec in L.
  pose proof (binary64_nonneg (s / d) Hq) as N.
  destruct (binary64 (s / d)) as [r| | |]; try discriminate.
  exists r. split; [reflexivity|]. split; [now apply le_Fin in N|now apply le_Fin in L].
Qed.

Lemma div_accurate (s d : Q) :
  0 < d -> pow2 (-1022) <= s / d -> s / d <= pow2 1023 ->
  exists r : Q, Binary64.div (Fin s) (Fin d) = Fin r /\
                Qabs (r - s / d) <= s / d * pow2 (-53).
Proof.
  intros Hd Hlo Hhi. unfold Binary64.div. rewrite (div_Fin_pos d s Hd).
  rewrite (binary64_compat (Qred (s / d)) (s / d)) by apply Qred_correct.
  now apply binary64_normal.
Qed.

Lemma toFixed_quotient64 (f : nat) (s d c c' : Q) :
  0 < d -> 0 < s -> s / d <= c -> binary64 c = Fin c' -> c' < pow10 21 ->
  toFixed f (Binary64.div (Fin s) (Fin d)) = decimal_places f (quotient s d).
Proof.
  intros Hd Hs Hc Ec Hc'.
  destruct (div_bounded s d c c' Hd Hs Hc Ec) as (r & E & R0 & R1).
  unfold quotient. rewrite E. apply toFixed_decimal_places.
  - pose proof (pow10_pos 21). lra.
  - lra.
Qed.


(** From 10^21 on [toFixed] leaves the fixed notation.  The literal
    [31536000e21] denotes the binary64 value 31535999999999998998467313664,
    below 31536000 * 10^21, and its quotient by 31536000 rounds to 10^21:
    this number of seconds prints in exponential notation; the binary64
    value before it is [last_fixed_years].  So does -10^21, in seconds.
    NaN falls through every comparison into the last band. *)
Lemma formatTime_exponential_notation :
  is_binary64 (Fin 31535999999999998998467313664) = true /\
  is_binary64 (Fin last_fixed_years) = true /\
  last_fixed_years + ulp last_fixed_years == 31535999999999998998467313664 /\
  31535999999999998998467313664 < 31536000 * 10 ^ 21 /\
  formatTime (Fin 31535999999999998998467313664) = "1e+21 years" /\
  formatTime (Fin (- 10 ^ 21)) = "-1e+21 seconds" /\
  formatTime NaN = "NaN years".
Proof. repeat split; vm_compute; reflexivity. Qed.

(** C8 (as amended).  For a finite number of seconds above -10^21 and up
    to [last_fixed_years], [formatTime] prints the seconds to 3 decimal
    places below 60, the minutes to 2 below 3600, the hours to 2 below
    86400, the days to 2 below 31536000 and otherwise the years to 2, a
    year being 31,536,000 seconds.  What is printed from 60 on is the
    quotient as binary64 rounds it, within 2^-53 of the exact quotient,
    relatively.  [formatTime(1.282)] is ["1.282 seconds"] and
    [formatTime(500)] is ["8.33 minutes"]. *)
Theorem formatTime_bands (seconds : Q) :
  - 10 ^ 21 < seconds -> seconds <= last_fixed_years ->
  (seconds < 60 ->
   formatTime (Fin seconds) = (decimal_places 3 seconds ++ " seconds")%string) /\
  (60 <= seconds -> seconds < 3600 ->
   formatTime (Fin seconds) =
     (decimal_places 2 (quotient seconds 60) ++ " minutes")%string) /\
  (3600 <= seconds -> seconds < 86400 ->
   formatTime (Fin seconds) =
     (decimal_places 2 (quotient seconds 3600) ++ " hours")%string) /\
  (86400 <= seconds -> seconds < 31536000 ->
   formatTime (Fin seconds) =
     (decimal_places 2 (quotient seconds 86400) ++ " days")%string) /\
  (31536000 <= seconds ->
   formatTime (Fin seconds) =
     (decimal_places 2 (quotient seconds 31536000) ++ " years")%string) /\
  (60 <= seconds ->
   forall d : Q, In d [60; 3600; 86400; 31536000] ->
     Qabs (quotient seconds d - seconds / d) <= seconds / d * pow2 (-53)) /\
  formatTime (binary64 1.282) = "1.282 seconds" /\
  formatTime (Fin 500) = "8.33 minutes".
Proof.
  change (10 ^ 21) with (pow10 21).
  pose proof (pow10_le 3 21 ltac:(lia)) as HT. change (pow10 3) with (1000 # 1) in HT.
  intros Hlo Hhi. unfold formatTime. cbn [lt].
  split; [|split; [|split; [|split; [|split; [|split]]]]].
  - intros H. destruct (Qltb_spec seconds 60); [|lra].
    cbv iota. rewrite toFixed_decimal_places; [reflexivity| |]; lra.
  - intros H1 H2.
    destruct (Qltb_spec seconds 60); [lra|]. destruct (Qltb_spec seconds 3600); [|lra].
    cbv iota. rewrite (toFixed_quotient64 2 seconds 60 60 60); try reflexivity; try lra.
    apply Qle_shift_div_r; lra.
  - intros H1 H2.
    destruct (Qltb_spec seconds 60); [lra|]. destruct (Qltb_spec seconds 3600); [lra|].
    destruct (Qltb_spec seconds 86400); [|lra].
    cbv iota. rewrite (toFixed_quotient64 2 seconds 3600 24 24); try reflexivity; try lra.
    apply Qle_shift_div_r; lra.
  - intros H1 H2.
    destruct (Qltb_spec seconds 60); [lra|]. destruct (Qltb_spec seconds 3600); [lra|].
    destruct (Qltb_spec seconds 86400); [lra|].
    destruct (Qltb_spec seconds 31536000); [|lra].
    cbv iota. rewrite (toFixed_quotient64 2 seconds 86400 365 365); try reflexivity; try lra.
    apply Qle_shift_div_r; lra.
  - intros H1.
    destruct (Qltb_spec seconds 60); [lra|]. destruct (Qltb_spec seconds 3600); [lra|].
    destruct (Qltb_spec seconds 86400); [lra|].
    destruct (Qltb_spec seconds 31536000); [lra|].
    cbv iota.
    rewrite (toFixed_quotient64 2 seconds 31536000 (last_fixed_years / 31536000)
               999999999999999868928); try lra.
    + reflexivity.
    + unfold Qdiv. apply Qmult_le_compat_r; [exact Hhi|discriminate].
    + vm_compute. reflexivity.
    + reflexivity.
  - intros H1 d Hd.
    assert (Hd' : 60 <= d /\ d <= 31536000).
    { simpl in Hd. destruct Hd as [<-|[<-|[<-|[<-|[]]]]]; split; try lra;
        unfold Qle; simpl; lia. }
    destruct Hd' as [D1 D2].
    assert (Q1 : 1 # 1000000 <= seconds / d) by (apply Qle_shift_div_l; lra).
    assert (Q2 : seconds / d <= last_fixed_years)
      by (apply Qle_shift_div_r; [lra|]; unfold last_fixed_years in *; nra).
    destruct (div_accurate seconds d) as (r & E & A).
    + lra.
    + eapply Qle_trans; [|exact Q1]. vm_compute. discriminate.
    + eapply Qle_trans; [exact Q2|]. vm_compute. discriminate.
    + unfold quotient. rewrite E. exact A.
  - split; vm_compute; reflexivity.
Qed.

Lemma formatTime_bands_witness :
  (40000000 < 60 ->
   formatTime (Fin 40000000) = (decimal_places 3 40000000 ++ " seconds")%string) /\
  (60 <= 40000000 -> 40000000 < 3600 ->
   formatTime (Fin 40000000) =
     (decimal_places 2 (quotient 40000000 60) ++ " minutes")%string) /\
  (3600 <= 40000000 -> 40000000 < 86400 ->
   formatTime (Fin 40000000) =
     (decimal_places 2 (quotient 40000000 3600) ++ " hours")%string) /\
  (86400 <= 40000000 -> 40000000 < 31536000 ->
   formatTime (Fin 40000000) =
     (decimal_places 2 (quotient 40000000 86400) ++ " days")%string) /\
  (31536000 <= 40000000 ->
   formatTime (Fin 40000000) =
     (decimal_places 2 (quotient 40000000 31536000) ++ " years")%string) /\
  (60 <= 40000000 ->
   forall d : Q, In d [60; 3600; 86400; 31536000] ->
     Qabs (quotient 40000000 d - 40000000 / d) <= 40000000 / d * pow2 (-53)) /\
  formatTime (binary64 1.282) = "1.282 seconds" /\
  formatTime (Fin 500) = "8.33 minutes".
Proof.
  apply (formatTime_bands 40000000); [reflexivity|unfold last_fixed_years, Qle; simpl; lia].
Defined.

End FormatTimeBinary64.

(* ------------------------------------------------------------------ *)
(** ** The examples of the documentation *)

Section DocumentedExamples.
Import ScaleCalculator LightSpeedTraveler.
Local Open Scope Q_scope.

(** [formatScale] prints a zero as ["0 m"] and any other value of
    magnitude below 1e-100 as ["~0 m"], whatever its sign. *)
Theorem formatScale_insignificant (meters : Q) :
  (meters == 0 -> formatScale (Fin meters) = "0 m") /\
  (~ meters == 0 -> Qabs meters < 1 / 10 ^ 100 -> formatScale (Fin meters) = "~0 m").
Proof.
  unfold formatScale. cbn [strict_eq Math_abs lt]. split.
  - intros H. destruct (Qeqb_spec meters 0); [reflexivity|contradiction].
  - intros H0 H. destruct (Qeqb_spec meters 0); [contradiction|].
    destruct (Qltb_spec (Qabs meters) (1 / 10 ^ 100)); [reflexivity|contradiction].
Qed.

(** The header of [formatScale] and section 8 of the specification. *)
Example formatScale_examples :
  formatScale (Fin 150000000) = "1.50 × 10^8 m" /\
  formatScale (Fin 0) = "0 m" /\
  formatScale (Fin (1 / 10 ^ 150)) = "~0 m" /\
  formatScale (Fin (-1500)) = "-1.50 × 10^3 m".
Proof. repeat split; vm_compute; reflexivity. Qed.

Example formatTime_examples :
  formatTime (Fin 40000000) = "1.27 years" /\
  formatTime (Fin 3600) = "1.00 hours" /\
  formatTime (Fin (-5)) = "-5.000 seconds".
Proof. repeat split; vm_compute; reflexivity. Qed.

(** Earth to Moon (384,400 km) plays at real speed, about 1.282 s
    in 1282 ms; Earth to Sun (149.6 million km), about 499 s, is capped at
    10000 ms and time-lapsed about 49.9 times. *)
Example light_travel_examples :
  (exists plan,
     LightSpeedTraveler.new (Fin 299792458) (Fin 384400000) = Normal plan /\
     toFixed 3 (travelTime plan) = "1.282" /\
     isTimeLapsed plan = false /\
     toFixed 0 (animationDuration plan) = "1282") /\
  (exists plan,
     LightSpeedTraveler.new (Fin 299792458) (Fin 149600000000) = Normal plan /\
     toFixed 1 (travelTime plan) = "499.0" /\
     isTimeLapsed plan = true /\
     animationDuration plan = Fin 10000 /\
     toFixed 1 (speedMultiplier plan) = "49.9").
Proof. split; eexists; repeat split; vm_compute; reflexivity. Qed.

Example calculateSizeRatio_examples :
  calculateSizeRatio (Fin 5) (Fin 15) = Fin 3 /\
  calculateSizeRatio (Fin 15) (Fin 5) = Fin 3 /\
  calculateSizeRatio (Fin 5) (Fin 0) = PosInf.
Proof. repeat split; vm_compute; reflexivity. Qed.

End DocumentedExamples.

(* ================================================================== *)
(** * Further properties of the code *)

(* ------------------------------------------------------------------ *)
(** ** DataManager: what the two indexes hold *)

Section Indexes.
Local Open Scope list_scope.

(** An index filled in list order under the key [k]. *)
Context {A : Type} (k : A -> string).

Let index (m : gmap string A) (l : list A) : gmap string A :=
  foldl (fun m x => <[k x := x]> m) m l.

Lemma index_lookup_Some (l : list A) (m : gmap string A) (i : string) (x : A) :
  index m l !! i = Some x -> m !! i = Some x \/ (In x l /\ k x = i).
Proof.
  revert m. induction l as [|d l IH]; intros m H; cbn [index foldl] in H.
  - now left.
  - apply IH in H. destruct H as [H|[H1 H2]].
    + destruct (decide (k d = i)) as [E|N].
      * rewrite <- E, lookup_insert_eq in H. injection H as <-.
        right. split; [now left | exact E].
      * rewrite lookup_insert_ne in H by exact N. now left.
    + right. split; [now right | exact H2].
Qed.

Lemma index_lookup_None (l : list A) (m : gmap string A) (i : string) :
  index m l !! i = None <-> m !! i = None /\ forall x, In x l -> k x <> i.
Proof.
  revert m. induction l as [|d l IH]; intros m; cbn [index foldl].
  - split; [intros H; split; [exact H|intros x []]|intros [H _]; exact H].
  - fold (index (<[k d := d]> m) l). rewrite IH, lookup_insert_None. split.
    + intros [[Hm Hd] Hl]. split; [exact Hm|]. intros x [<-|Hx]; auto.
    + intros [Hm Hl]. split; [split; [exact Hm|apply Hl; now left]|].
      intros x Hx. apply Hl. now right.
Qed.

Lemma index_lookup_untouched (l : list A) (m : gmap string A) (i : string) :
  (forall x, In x l -> k x <> i) -> index m l !! i = m !! i.
Proof.
  revert m. induction l as [|d l IH]; intros m H; cbn [index foldl]; [reflexivity|].
  fold (index (<[k d := d]> m) l). rewrite IH by (intros x Hx; apply H; now right).
  apply lookup_insert_ne. apply H. now left.
Qed.

Lemma index_lookup_NoDup (l : list A) (m : gmap string A) (x : A) :
  NoDup (map k l) -> In x l -> index m l !! k x = Some x.
Proof.
  revert m. induction l as [|d l IH]; intros m Hnd Hx; [destruct Hx|].
  cbn [map] in Hnd. inversion Hnd as [|? ? Hd Hl]; subst.
  cbn [index foldl]. fold (index (<[k d := d]> m) l).
  destruct Hx as [->|Hx].
  - rewrite index_lookup_untouched; [apply lookup_insert_eq|].
    intros y Hy E. apply Hd. rewrite <- E. apply list_elem_of_In. now apply in_map.
  - now apply IH.
Qed.

End Indexes.

Section Lookups.
Import DataManager.
Local Open Scope list_scope.

Lemma objectsById_load (data : CosmicObjects) :
  objectsById (load data) = foldl (fun m obj => <[id obj := obj]> m) ∅ (objects data).
Proof. reflexivity. Qed.

Lemma distanceCache_index (data : CosmicObjects) :
  distanceCache (load data) = foldl (fun m r => <[key_of r := r]> m) ∅ (distances data).
Proof. reflexivity. Qed.

(** X2.  [getDistance(a, b)] is [undefined] exactly when no record of the
    file is stored under the key of (a, b) or under the key of (b, a);
    and a record it returns is a record of the file, stored under one of
    these two keys. *)
Theorem getDistance_hit_or_miss (data : CosmicObjects) (a b : string) :
  (getDistance (load data) a b = None <->
   forall r, In r (distances data) -> key_of r <> key a b /\ key_of r <> key b a) /\
  (forall r, getDistance (load data) a b = Some r ->
     In r (distances data) /\ (key_of r = key a b \/ key_of r = key b a)).
Proof.
  unfold getDistance. rewrite distanceCache_index. split.
  - destruct (foldl _ ∅ (distances data) !! key a b) as [r|] eqn:E1.
    + split; [discriminate|]. intros H.
      apply (index_lookup_Some key_of) in E1 as [E1|[Hin Hk]].
      * rewrite lookup_empty in E1. discriminate.
      * destruct (H r Hin) as [N _]. contradiction.
    + apply (index_lookup_None key_of) in E1 as [_ N1].
      rewrite (index_lookup_None key_of). split.
      * intros [_ N2] r Hr. split; auto.
      * intros H. split; [apply lookup_empty|]. intros r Hr. now apply H.
  - intros r H.
    destruct (foldl _ ∅ (distances data) !! key a b) as [r'|] eqn:E1.
    + injection H as ->. apply (index_lookup_Some key_of) in E1 as [E1|[Hin Hk]].
      * rewrite lookup_empty in E1. discriminate.
      * auto.
    + apply (index_lookup_Some key_of) in H as [H|[Hin Hk]].
      * rewrite lookup_empty in H. discriminate.
      * auto.
Qed.

(** X3.  When no two records of the file have the same key, every record
    is returned by the lookup of its own pair, in the order it is written
    in ([from], [to]); it is returned in the other order too as soon as no
    record is stored under the key of that order. *)
Theorem getDistance_finds_stored_record (data : CosmicObjects) (r : DistanceData) :
  NoDup (map key_of (distances data)) ->
  In r (distances data) ->
  getDistance (load data) (from r) (to r) = Some r /\
  ((forall r', In r' (distances data) -> key_of r' <> key (to r) (from r)) ->
   getDistance (load data) (to r) (from r) = Some r).
Proof.
  intros Hnd Hin. unfold getDistance. rewrite distanceCache_index.
  pose proof (index_lookup_NoDup key_of (distances data) ∅ r Hnd Hin) as H.
  cbn beta in H. change (key_of r) with (key (from r) (to r)) in H. split.
  - now rewrite H.
  - intros Hrev.
    pose proof (proj2 (index_lookup_None key_of (distances data) ∅ (key (to r) (from r)))
                  (conj (lookup_empty _) Hrev)) as N.
    cbn beta in N. now rewrite N, H.
Qed.

Lemma getDistance_finds_stored_record_witness :
  getDistance (load sample_data) (from earth_sun) (to earth_sun) = Some earth_sun /\
  ((forall r', In r' (distances sample_data) ->
      key_of r' <> key (to earth_sun) (from earth_sun)) ->
   getDistance (load sample_data) (to earth_sun) (from earth_sun) = Some earth_sun).
Proof.
  apply (getDistance_finds_stored_record sample_data earth_sun).
  - apply (bool_decide_unpack _). vm_compute. reflexivity.
  - simpl. tauto.
Defined.

(** An index filled in list order holds, under a key, the last element
    that has it. *)
Lemma foldl_insert_last {A : Type} (k : A -> string) (pre post : list A) (x : A)
  (m : gmap string A) :
  (forall y, In y post -> k y <> k x) ->
  foldl (fun m y => <[k y := y]> m) m (pre ++ x :: post) !! k x = Some x.
Proof.
  intros H. rewrite foldl_app. cbn [foldl].
  rewrite (index_lookup_untouched k post _ (k x) H). apply lookup_insert_eq.
Qed.

(** X4.  [getObjectById] returns only objects of the file, under their
    own id, and [undefined] exactly for an id no object has.  Of the
    objects that share an id the last one of the file is returned; when
    the ids of the file are pairwise different every object is returned
    for its id.  [getAllObjects] is the array of the file. *)
Theorem getObjectById_finds_every_object (data : CosmicObjects) :
  (forall i o, getObjectById (load data) i = Some o -> In o (objects data) /\ id o = i) /\
  (forall i, getObjectById (load data) i = None <-> ~ In i (map id (objects data))) /\
  (forall pre o post,
     objects data = pre ++ o :: post -> (forall o', In o' post -> id o' <> id o) ->
     getObjectById (load data) (id o) = Some o) /\
  (NoDup (map id (objects data)) ->
   forall o, In o (objects data) -> getObjectById (load data) (id o) = Some o) /\
  getAllObjects (load data) = objects data.
Proof.
  unfold getObjectById. rewrite objectsById_load.
  split; [|split; [|split; [|split]]].
  - intros i o H. apply (index_lookup_Some id) in H as [H|H]; [|exact H].
    rewrite lookup_empty in H. discriminate.
  - intros i. rewrite (index_lookup_None id). split.
    + intros [_ H] Hi. apply in_map_iff in Hi as (o & E & Ho). now apply (H o).
    + intros H. split; [apply lookup_empty|]. intros o Ho E. apply H.
      rewrite <- E. now apply in_map.
  - intros pre o post -> H. now apply (foldl_insert_last id).
  - intros Hnd o Ho. now apply (index_lookup_NoDup id).
  - reflexivity.
Qed.

Lemma getObjectById_finds_every_object_witness :
  getObjectById (load sample_data) (id moon) = Some moon.
Proof.
  apply (proj1 (proj2 (proj2 (proj2 (getObjectById_finds_every_object sample_data))))).
  - apply (bool_decide_unpack _). vm_compute. reflexivity.
  - simpl. tauto.
Defined.

End Lookups.

(* ------------------------------------------------------------------ *)
(** ** DataManager.validateData *)

Section Validation.
Import DataManager.
Local Open Scope list_scope.

Lemma truthy_spec (x : json) : truthy (Some x) = true <-> is_truthy x.
Proof.
  split.
  - destruct x as [|[|]|[q| | |]|[|c s]|items|members]; cbn; try discriminate;
      intros H; try constructor.
    destruct (Qeqb_spec q 0) as [E|N]; [discriminate|exact N].
  - intros H. destruct H; cbn; try reflexivity.
    destruct (Qeqb_spec q 0) as [E|N]; [contradiction|reflexivity].
Qed.

Lemma truthy_member (k : string) (v : option json) :
  truthy (v ≫= member k) = true <->
  exists file x, v = Some file /\ member k file = Some x /\ is_truthy x.
Proof.
  destruct v as [file|]; cbn.
  - destruct (member k file) as [x|] eqn:E.
    + rewrite truthy_spec. split.
      * intros H. exists file, x. auto.
      * intros (f & y & Ef & Ey & Hy). injection Ef as <-. rewrite E in Ey.
        now injection Ey as <-.
    + split; [discriminate|]. intros (f & y & Ef & Ey & _). injection Ef as <-.
      rewrite E in Ey. discriminate.
  - split; [discriminate|]. intros (f & y & Ef & _). discriminate.
Qed.

Lemma truthy_option (v : option json) :
  truthy v = true <-> exists x, v = Some x /\ is_truthy x.
Proof.
  destruct v as [x|].
  - rewrite truthy_spec. split.
    + intros H. exists x. auto.
    + intros (y & E & H). now injection E as ->.
  - split; [discriminate|]. intros (y & E & _). discriminate.
Qed.

(** The test of the [forEach] on an entry that is not null. *)
Lemma entry_test (obj : json) :
  negb (truthy (member "id" obj)) || negb (truthy (member "name" obj))
    || match member "diameter" obj with None => true | Some _ => false end = false
  <-> has_required_fields obj.
Proof.
  unfold has_required_fields. rewrite <- !truthy_option.
  destruct (truthy (member "id" obj)); cbn [negb orb].
  2:{ split; [discriminate|]. intros (H & _). discriminate. }
  destruct (truthy (member "name" obj)); cbn [negb orb].
  2:{ split; [discriminate|]. intros (_ & H & _). discriminate. }
  destruct (member "diameter" obj) as [d|].
  - split; [|reflexivity]. intros _. repeat split; eauto.
  - split; [discriminate|]. intros (_ & _ & (x & E)). discriminate.
Qed.

Lemma null_has_no_field : ~ has_required_fields JNull.
Proof. intros ((x & E & _) & _). discriminate. Qed.

Lemma validateObjects_Returns (items : list json) (index : nat) :
  validateObjects index items = Returns <-> Forall has_required_fields items.
Proof.
  revert index. induction items as [|obj items IH]; intros index.
  - split; [constructor|reflexivity].
  - destruct (entry_test obj) as [T1 T2].
    assert (Hstep : validateObjects index (obj :: items) = Returns <->
                    has_required_fields obj /\ validateObjects (S index) items = Returns).
    { destruct obj; cbn [validateObjects];
        try (destruct (negb _ || negb _ || _) eqn:E;
             [split; [discriminate|intros [H _]; apply T2 in H; congruence]
             |split; [intros H; split; [now apply T1|exact H]|intros [_ H]; exact H]]).
      split; [discriminate|]. intros [H _]. destruct (null_has_no_field H). }
    rewrite Hstep, IH. split.
    + intros [H1 H2]. now constructor.
    + intros H. inversion H; subst. split; assumption.
Qed.

Lemma validateObjects_first_failure (pre post : list json) (obj : json) (index : nat) :
  Forall has_required_fields pre -> ~ has_required_fields obj ->
  validateObjects index (pre ++ obj :: post) =
    Throws (match obj with
            | JNull => TypeError
            | _ => Error (invalid_object_message (index + length pre))
            end).
Proof.
  revert index. induction pre as [|p pre IH]; intros index Hpre Hobj.
  - cbn [app length]. rewrite Nat.add_0_r.
    destruct (entry_test obj) as [T1 _].
    destruct obj; cbn [validateObjects]; try reflexivity;
      (destruct (negb _ || negb _ || _) eqn:E; [reflexivity|destruct (Hobj (T1 eq_refl))]).
  - inversion Hpre as [|? ? Hp Hpre']; subst.
    destruct (entry_test p) as [_ T2]. pose proof (T2 Hp) as E.
    cbn [app length]. replace (index + S (length pre))%nat with (S index + length pre)%nat by lia.
    rewrite <- (IH (S index) Hpre' Hobj).
    destruct p; cbn [validateObjects]; try (rewrite E; reflexivity).
    destruct (null_has_no_field Hp).
Qed.


Lemma member_of_object (k : string) (v x : json) :
  member k v = Some x -> truthy (Some v) = true.
Proof. destruct v; cbn; try discriminate. reflexivity. Qed.

(** The three guards of [validateData], when they pass. *)
Lemma guards_pass (file consts objects distances speed : json) :
  member "objects" file = Some objects -> is_truthy objects ->
  member "distances" file = Some distances -> is_truthy distances ->
  member "speedOfLight" consts = Some speed -> is_truthy speed ->
  validateData (Some file) (Some consts) =
    match objects with
    | JArray items => validateObjects 0 items
    | _ => Throws TypeError
    end.
Proof.
  intros Eo To Ed Td Es Ts. unfold validateData.
  rewrite (member_of_object _ _ _ Eo), (member_of_object _ _ _ Es).
  cbn [mbind option_bind]. rewrite Eo, Ed, Es.
  apply truthy_spec in To, Td, Ts. rewrite To, Td, Ts. reflexivity.
Qed.

(** X5.  [validateData] returns normally exactly when [cosmicObjects] has
    an array for [objects] and truthy [distances], [constants] has a
    truthy [speedOfLight], and every entry of the array has a truthy
    [id], a truthy [name] and a [diameter]: neither the types of the
    fields nor that [distances] is an array are checked, as the last
    part shows on a file that passes.  With the three parts
    in place, the entries before the first one that fails having passed,
    it throws the message that carries the index of that entry, or a
    TypeError when that entry is null; and a TypeError when [objects] is
    truthy and not an array.  A part that is missing throws its message,
    the objects first, then the distances, then the speed of light. *)
Theorem validateData_accepts_exactly (cosmicObjects constants : option json) :
  (validateData cosmicObjects constants = Returns <->
   exists file consts items distances speed,
     cosmicObjects = Some file /\ constants = Some consts /\
     member "objects" file = Some (JArray items) /\
     member "distances" file = Some distances /\ is_truthy distances /\
     member "speedOfLight" consts = Some speed /\ is_truthy speed /\
     Forall has_required_fields items) /\
  (forall file consts pre obj post distances speed,
     cosmicObjects = Some file -> constants = Some consts ->
     member "objects" file = Some (JArray (pre ++ obj :: post)) ->
     member "distances" file = Some distances -> is_truthy distances ->
     member "speedOfLight" consts = Some speed -> is_truthy speed ->
     Forall has_required_fields pre -> ~ has_required_fields obj ->
     validateData cosmicObjects constants =
       Throws (match obj with
               | JNull => TypeError
               | _ => Error (invalid_object_message (length pre))
               end)) /\
  (forall file consts objects distances speed,
     cosmicObjects = Some file -> constants = Some consts ->
     member "objects" file = Some objects -> is_truthy objects ->
     (forall items, objects <> JArray items) ->
     member "distances" file = Some distances -> is_truthy distances ->
     member "speedOfLight" consts = Some speed -> is_truthy speed ->
     validateData cosmicObjects constants = Throws TypeError) /\
  (truthy (cosmicObjects ≫= member "objects") = false ->
   validateData cosmicObjects constants =
     Throws (Error "Invalid cosmic-objects.json: missing objects array")) /\
  (truthy (cosmicObjects ≫= member "objects") = true ->
   truthy (cosmicObjects ≫= member "distances") = false ->
   validateData cosmicObjects constants =
     Throws (Error "Invalid cosmic-objects.json: missing distances array")) /\
  (truthy (cosmicObjects ≫= member "objects") = true ->
   truthy (cosmicObjects ≫= member "distances") = true ->
   truthy (constants ≫= member "speedOfLight") = false ->
   validateData cosmicObjects constants =
     Throws (Error "Invalid physical-constants.json: missing speedOfLight")) /\
  validateData (Some loosely_typed_objects) (Some loosely_typed_constants) = Returns.
Proof.
  split; [|split; [|split; [|split; [|split; [|split]]]]].
  - split.
    + unfold validateData.
      destruct (truthy cosmicObjects) eqn:T0; cbn [negb orb]; [|discriminate].
      destruct (truthy (cosmicObjects ≫= member "objects")) eqn:T1;
        cbn [negb orb]; [|discriminate].
      destruct (truthy (cosmicObjects ≫= member "distances")) eqn:T2;
        cbn [negb orb]; [|discriminate].
      destruct (truthy constants) eqn:T3; cbn [negb orb]; [|discriminate].
      destruct (truthy (constants ≫= member "speedOfLight")) eqn:T4;
        cbn [negb orb]; [|discriminate].
      apply truthy_member in T1 as (file & objects & -> & Eo & To).
      apply truthy_member in T2 as (file' & distances & Ef & Ed & Td).
      injection Ef as <-.
      apply truthy_member in T4 as (consts & speed & -> & Es & Ts).
      cbn [mbind option_bind]. rewrite Eo.
      destruct objects as [| | | |items|]; try discriminate.
      intros H. apply validateObjects_Returns in H.
      exists file, consts, items, distances, speed. repeat split; assumption.
    + intros (file & consts & items & distances & speed
              & -> & -> & Eo & Ed & Td & Es & Ts & H).
      rewrite (guards_pass file consts (JArray items) distances speed Eo
                 (truthy_array items) Ed Td Es Ts).
      now apply validateObjects_Returns.
  - intros file consts pre obj post distances speed -> -> Eo Ed Td Es Ts Hpre Hobj.
    rewrite (guards_pass file consts _ distances speed Eo (truthy_array _) Ed Td Es Ts).
    apply (validateObjects_first_failure pre post obj 0 Hpre Hobj).
  - intros file consts objects distances speed -> -> Eo To Hna Ed Td Es Ts.
    rewrite (guards_pass file consts objects distances speed Eo To Ed Td Es Ts).
    destruct objects; try reflexivity. destruct (Hna items eq_refl).
  - intros T1. unfold validateData. rewrite T1. cbn [negb].
    now rewrite orb_true_r.
  - intros T1 T2. unfold validateData. rewrite T1, T2.
    apply truthy_member in T1 as (file & x & -> & E & _).
    now rewrite (member_of_object _ _ _ E).
  - intros T1 T2 T3. unfold validateData. rewrite T1, T2, T3.
    apply truthy_member in T1 as (file & x & -> & E & _).
    rewrite (member_of_object _ _ _ E). cbn [negb orb]. now rewrite orb_true_r.
  - reflexivity.
Qed.

End Validation.

(* ------------------------------------------------------------------ *)
(** ** The selection in closed form, and when it is complete *)

Section SelectionClosedForm.
Import Constants.
Local Open Scope list_scope.

Lemma last_two_snoc (acc : list string) (objectId : string) :
  last_two (acc ++ [objectId]) = rev (firstn 1 (rev acc)) ++ [objectId].
Proof. unfold last_two. rewrite rev_app_distr. reflexivity. Qed.

Lemma step_last_two (acc : list string) (objectId : string) :
  StateManager_step (last_two acc) (Select objectId) = last_two (acc ++ [objectId]).
Proof.
  cbn [StateManager_step]. destruct (selectObject_selection objectId (last_two acc)) as [-> _].
  rewrite last_two_snoc. unfold last_two.
  destruct (rev acc) as [|a [|b r]]; reflexivity.
Qed.

Lemma fold_last_two (ops : list operation) (acc : list string) :
  fold_left StateManager_step ops (last_two acc) =
  last_two (fold_left (fun acc o => match o with
                                    | Select objectId => acc ++ [objectId]
                                    | Clear => []
                                    end) ops acc).
Proof.
  revert acc. induction ops as [|o ops IH]; intros acc; cbn [fold_left]; [reflexivity|].
  destruct o as [objectId|].
  - rewrite step_last_two. apply IH.
  - cbn [StateManager_step StateManager.clearSelection selection]. apply (IH []).
Qed.

Lemma selection_is_last_two_selected_aux (ops : list operation) :
  StateManager_run ops = last_two (selected_since_clear ops) /\
  ObjectSelector_run ops = last_two (selected_since_clear ops).
Proof.
  rewrite <- runs_agree. split; apply (fold_last_two ops []).
Qed.

(** X6.  After any sequence of [selectObject] and [clearSelection] calls
    from the empty selection, the selection of either class is the last
    two ids selected since the last [clearSelection] (all of them when
    there are fewer than two), in the order they were selected. *)
Theorem selection_is_last_two_selected (ops : list operation) :
  StateManager_run ops = last_two (selected_since_clear ops) /\
  ObjectSelector_run ops = last_two (selected_since_clear ops).
Proof. exact (selection_is_last_two_selected_aux ops). Qed.

(** X7.  Every [selectObject(objectId)] emits ['objectSelected'] once,
    with the id.  It emits ['selectionComplete'] exactly when an id was
    already selected since the last [clearSelection], that is from the
    second selection on and then at every further one, and the payload is
    the last two ids selected, the new one last. *)
Theorem selectionComplete_from_second_selection (ops : list operation) (objectId : string) :
  let before := selected_since_clear ops in
  let complete := match before with
                  | [] => []
                  | _ => [last_two (before ++ [objectId])]
                  end in
  emitted_with "objectSelected"
    (StateManager.selectObject objectId (StateManager_run ops)) = [[objectId]] /\
  emitted_with "objectSelected"
    (ObjectSelector.selectObject objectId (ObjectSelector_run ops)) = [[objectId]] /\
  emitted_with "selectionComplete"
    (StateManager.selectObject objectId (StateManager_run ops)) = complete /\
  emitted_with "selectionComplete"
    (ObjectSelector.selectObject objectId (ObjectSelector_run ops)) = complete.
Proof.
  intros before complete. subst complete.
  destruct (selection_is_last_two_selected_aux ops) as [-> ->]. fold before.
  clearbody before. rewrite last_two_snoc. unfold last_two.
  pose proof (rev_involutive before) as Hb.
  destruct (rev before) as [|a [|b r]]; cbn in Hb; subst before; cbn.
  - repeat split.
  - repeat split.
  - destruct (rev r); cbn; repeat split.
Qed.

End SelectionClosedForm.

(* ------------------------------------------------------------------ *)
(** ** ScaleCalculator.calculateScreenDiameter and ScaleDisplay *)

Section ScreenSizes.
Import Constants ScaleCalculator.
Local Open Scope Q_scope.

(** The diameter on finite arguments: the proportional size [s], cut at
    the ceiling [w * 0.4], then raised to the floor 10. *)
Lemma calculateScreenDiameter_value (d w r : Q) :
  ~ r == 0 ->
  exists v t : Q,
    calculateScreenDiameter (Fin d) (Fin w) (Fin r) = Fin v /\
    (w * 0.4 < w * 0.4 * (d / r) /\ t == w * 0.4 \/
     w * 0.4 * (d / r) <= w * 0.4 /\ t == w * 0.4 * (d / r)) /\
    (10 < t /\ v == t \/ t <= 10 /\ v == 10).
Proof.
  intros Hr. unfold calculateScreenDiameter.
  cbn [MIN_SIZE MAX_SCREEN_RATIO SCALE_DISPLAY mul div].
  destruct (Qeqb_spec r 0) as [E|_]; [contradiction|].
  cbn [Math_min Math_max lt].
  set (m := Qred (w * 0.4)). set (s := Qred (m * Qred (d / r))).
  assert (Hm : m == w * 0.4) by apply Qred_correct.
  assert (Hs : s == w * 0.4 * (d / r)).
  { unfold s. rewrite !Qred_correct. now rewrite Hm. }
  destruct (Qltb_spec m s) as [L|L].
  - destruct (Qltb_spec 10 m) as [L'|L'].
    + exists m, m. split; [reflexivity|]. split; [left|left]; split; lra.
    + exists 10, m. split; [reflexivity|]. split; [left|right]; split; lra.
  - destruct (Qltb_spec 10 s) as [L'|L'].
    + exists s, s. split; [reflexivity|]. split; [right|left]; split; lra.
    + exists 10, s. split; [reflexivity|]. split; [right|right]; split; lra.
Qed.

Lemma scaled_le (m a b r : Q) :
  0 <= m -> 0 < r -> a <= b -> m * (a / r) <= m * (b / r).
Proof.
  intros Hm Hr Hab.
  assert (H : a / r <= b / r).
  { unfold Qdiv. apply Qmult_le_compat_r; [exact Hab|].
    apply Qinv_le_0_compat. lra. }
  rewrite (Qmult_comm m (a / r)), (Qmult_comm m (b / r)).
  now apply Qmult_le_compat_r.
Qed.

Lemma scaled_le_ceiling (m a r : Q) :
  0 <= m -> 0 < r -> a <= r -> m * (a / r) <= m.
Proof.
  intros Hm Hr Ha.
  assert (H : a / r <= 1) by (apply Qle_shift_div_r; lra).
  rewrite <- (Qmult_1_r m) at 2.
  rewrite (Qmult_comm m (a / r)), (Qmult_comm m 1).
  now apply Qmult_le_compat_r.
Qed.

(** X8.  On a screen of positive width and against a positive reference,
    [calculateScreenDiameter] keeps the order of the real diameters: an
    object that is not smaller is not drawn smaller.  Where neither clamp
    applies (the smaller object reaches 10 px and the larger does not
    exceed the reference) both are drawn exactly to scale,
    [screenWidth * 0.4 * realDiameter / referenceSize]. *)
Theorem calculateScreenDiameter_keeps_order (d1 d2 screenWidth referenceSize : Q) :
  0 < screenWidth -> 0 < referenceSize -> d1 <= d2 ->
  exists v1 v2 : Q,
    calculateScreenDiameter (Fin d1) (Fin screenWidth) (Fin referenceSize) = Fin v1 /\
    calculateScreenDiameter (Fin d2) (Fin screenWidth) (Fin referenceSize) = Fin v2 /\
    v1 <= v2 /\
    (10 <= screenWidth * 0.4 * (d1 / referenceSize) -> d2 <= referenceSize ->
     v1 == screenWidth * 0.4 * (d1 / referenceSize) /\
     v2 == screenWidth * 0.4 * (d2 / referenceSize)).
Proof.
  intros Hw Hr H12.
  destruct (calculateScreenDiameter_value d1 screenWidth referenceSize) as
    (v1 & t1 & E1 & Ht1 & Hv1); [lra|].
  destruct (calculateScreenDiameter_value d2 screenWidth referenceSize) as
    (v2 & t2 & E2 & Ht2 & Hv2); [lra|].
  exists v1, v2. split; [exact E1|]. split; [exact E2|].
  pose proof (scaled_le (screenWidth * 0.4) d1 d2 referenceSize ltac:(lra) Hr H12) as Hs.
  set (s1 := screenWidth * 0.4 * (d1 / referenceSize)) in *.
  set (s2 := screenWidth * 0.4 * (d2 / referenceSize)) in *.
  split.
  - destruct Ht1 as [[? ?]|[? ?]], Ht2 as [[? ?]|[? ?]],
      Hv1 as [[? ?]|[? ?]], Hv2 as [[? ?]|[? ?]]; lra.
  - intros Hlo Hhi.
    pose proof (scaled_le_ceiling (screenWidth * 0.4) d2 referenceSize ltac:(lra) Hr Hhi) as Hc.
    fold s2 in Hc.
    destruct Ht1 as [[? ?]|[? ?]], Ht2 as [[? ?]|[? ?]],
      Hv1 as [[? ?]|[? ?]], Hv2 as [[? ?]|[? ?]]; split; lra.
Qed.

Lemma calculateScreenDiameter_keeps_order_witness :
  exists v1 v2 : Q,
    calculateScreenDiameter (Fin 3474800) (Fin 1280) (Fin 12742000) = Fin v1 /\
    calculateScreenDiameter (Fin 12742000) (Fin 1280) (Fin 12742000) = Fin v2 /\
    v1 <= v2 /\
    (10 <= 1280 * 0.4 * (3474800 / 12742000) -> 12742000 <= 12742000 ->
     v1 == 1280 * 0.4 * (3474800 / 12742000) /\
     v2 == 1280 * 0.4 * (12742000 / 12742000)).
Proof.
  apply (calculateScreenDiameter_keeps_order 3474800 12742000 1280 12742000).
  - reflexivity.
  - reflexivity.
  - unfold Qle. simpl. lia.
Defined.

End ScreenSizes.

Section ScaleDisplayLayout.
Import Constants ScaleCalculator DataManager ScaleDisplay.
Local Open Scope Q_scope.

(** The two sizes [displayObjects] computes, on a screen at least 25 px
    wide: the larger object against itself, the smaller against it. *)
Lemma display_sizes (dl ds w : Q) :
  0 < ds -> ds <= dl -> 25 <= w ->
  exists v1 v2 : Q,
    calculateScreenDiameter (Fin dl) (Fin w) (Fin dl) = Fin v1 /\
    calculateScreenDiameter (Fin ds) (Fin w) (Fin dl) = Fin v2 /\
    v1 == w * 0.4 /\ 10 <= v2 /\ v2 <= v1.
Proof.
  intros Hs Hsl Hw.
  destruct (calculateScreenDiameter_value dl w dl) as (v1 & t1 & E1 & Ht1 & Hv1); [lra|].
  destruct (calculateScreenDiameter_value ds w dl) as (v2 & t2 & E2 & Ht2 & Hv2); [lra|].
  exists v1, v2. split; [exact E1|]. split; [exact E2|].
  assert (H1 : w * 0.4 * (dl / dl) == w * 0.4) by (field; lra).
  pose proof (scaled_le_ceiling (w * 0.4) ds dl ltac:(lra) ltac:(lra) Hsl) as H2.
  set (s1 := w * 0.4 * (dl / dl)) in *. set (s2 := w * 0.4 * (ds / dl)) in *.
  destruct Ht1 as [[? ?]|[? ?]], Ht2 as [[? ?]|[? ?]],
    Hv1 as [[? ?]|[? ?]], Hv2 as [[? ?]|[? ?]]; repeat split; lra.
Qed.

(** The ratio [displayObjects] prints, the larger diameter first: the
    quotient as binary64 rounds it, which is not below 1. *)
Lemma display_ratio (dl ds : Q) :
  0 < ds -> ds <= dl ->
  Binary64.ScaleCalculator.calculateSizeRatio (Fin dl) (Fin ds) = binary64 (dl / ds) /\
  le (Fin 1) (binary64 (dl / ds)) = true.
Proof.
  intros Hs Hsl. split.
  - unfold Binary64.ScaleCalculator.calculateSizeRatio. cbn [Math_max Math_min lt].
    destruct (Qltb_spec dl ds) as [L|_]; [lra|].
    destruct (Qltb_spec ds dl) as [L|L]; cbn [strict_eq]; unfold Binary64.div.
    + destruct (Qeqb_spec ds 0) as [E|_]; [lra|].
      rewrite (div_Fin_pos ds dl Hs). apply binary64_compat, Qred_correct.
    + destruct (Qeqb_spec dl 0) as [E|_]; [lra|].
      rewrite (div_Fin_pos dl dl ltac:(lra)). apply binary64_compat.
      rewrite Qred_correct. assert (E : dl == ds) by lra. now rewrite E at 2.
  - assert (Hq : 1 <= dl / ds) by (apply Qle_shift_div_l; lra).
    apply (binary64_le 1 (dl / ds)); [reflexivity|exact Hq].
Qed.

(** X9.  [displayObjects] on two objects of the index with positive
    finite diameters, on a screen at least 25 px wide.  The object with
    the greater diameter is [obj1Data] and is drawn on the left, at a
    third of the width; the other is [obj2Data], at two thirds (on a tie
    the second id is taken as the larger).  The larger circle always has
    the full diameter [screenWidth * 0.4]; the smaller has a diameter of
    at least 10 and at most that of the larger; the text gives, with two
    decimals, the quotient of the greater diameter by the smaller as
    binary64 rounds it, which is at least 1.  When the two diameters
    differ the result does not depend on the order of the two ids.  When
    an id is not in the index nothing is displayed. *)
Theorem displayObjects_layout (dataManager : DataManager.t) (screenWidth screenHeight : Q)
  (obj1Id obj2Id : string) (obj1 obj2 : CosmicObject) (d1 d2 : Q) (self : ScaleDisplay.t) :
  getObjectById dataManager obj1Id = Some obj1 ->
  getObjectById dataManager obj2Id = Some obj2 ->
  diameter obj1 = Fin d1 -> diameter obj2 = Fin d2 ->
  0 < d1 -> 0 < d2 -> 25 <= screenWidth ->
  let shown :=
    displayObjects dataManager (Fin screenWidth) (Fin screenHeight) obj1Id obj2Id self in
  let larger := if Qltb d2 d1 then obj1 else obj2 in
  let smaller := if Qltb d2 d1 then obj2 else obj1 in
  obj1Data shown = Some larger /\ obj2Data shown = Some smaller /\
  (exists (s1 s2 : circle) (r1 r2 : Q) (ratio : number),
     obj1Sprite shown = Some s1 /\ obj2Sprite shown = Some s2 /\
     same (x s1) (Fin (screenWidth / 3)) /\ same (x s2) (Fin (2 * screenWidth / 3)) /\
     same (y s1) (Fin (screenHeight / 2)) /\ y s2 = y s1 /\
     radius s1 = Fin r1 /\ radius s2 = Fin r2 /\
     r1 == screenWidth * 0.4 / 2 /\ 5 <= r2 /\ r2 <= r1 /\
     ratioText shown =
       Some (name larger ++ " is " ++ toFixed 2 ratio ++ "× larger than "
             ++ name smaller)%string /\
     ratio = binary64 (if Qltb d2 d1 then d1 / d2 else d2 / d1) /\
     le (Fin 1) ratio = true) /\
  (~ d1 == d2 ->
   displayObjects dataManager (Fin screenWidth) (Fin screenHeight) obj2Id obj1Id self
     = shown) /\
  (forall missing other : string,
     getObjectById dataManager missing = None ->
     displayObjects dataManager (Fin screenWidth) (Fin screenHeight) missing other self
       = self /\
     displayObjects dataManager (Fin screenWidth) (Fin screenHeight) other missing self
       = self).
Proof.
  intros H1 H2 Hd1 Hd2 P1 P2 Hw shown larger smaller.
  assert (Hshown : shown =
    displayObjects dataManager (Fin screenWidth) (Fin screenHeight) obj1Id obj2Id self)
    by reflexivity.
  clearbody shown. unfold displayObjects in Hshown. rewrite H1, H2, Hd1, Hd2 in Hshown.
  change (gt (Fin d1) (Fin d2)) with (Qltb d2 d1) in Hshown.
  split; [|split; [|split; [|split]]].
  - subst shown. reflexivity.
  - subst shown. reflexivity.
  - assert (Hsizes : exists dl ds : Q,
              diameter larger = Fin dl /\ diameter smaller = Fin ds /\
              0 < ds /\ ds <= dl /\ dl / ds = (if Qltb d2 d1 then d1 / d2 else d2 / d1)).
    { subst larger smaller. destruct (Qltb_spec d2 d1).
      - exists d1, d2. repeat split; auto; try lra.
      - exists d2, d1. repeat split; auto; try lra. }
    destruct Hsizes as (dl & ds & El & Es & Hs & Hsl & Hq).
    fold larger smaller in Hshown. rewrite El, Es in Hshown.
    destruct (display_sizes dl ds screenWidth Hs Hsl Hw) as (v1 & v2 & E1 & E2 & Hv1 & Hlo & Hhi).
    destruct (display_ratio dl ds Hs Hsl) as (Er & Hr1).
    rewrite E1, E2, Er in Hshown.
    eexists _, _, (Qred (v1 / 2)), (Qred (v2 / 2)), (binary64 (dl / ds)).
    subst shown. cbn [obj1Sprite obj2Sprite ratioText x y radius].
    split; [reflexivity|]. split; [reflexivity|].
    split; [simpl; apply Qred_correct|].
    split; [simpl; rewrite !Qred_correct; reflexivity|].
    split; [simpl; apply Qred_correct|].
    split; [reflexivity|]. split; [reflexivity|]. split; [reflexivity|].
    rewrite !Qred_correct.
    split; [rewrite Hv1; reflexivity|].
    split; [apply Qle_shift_div_l; lra|].
    split; [unfold Qdiv; apply Qmult_le_compat_r; [exact Hhi|discriminate]|].
    split; [reflexivity|]. split; [now rewrite Hq|exact Hr1].
  - intros Hne. subst shown. unfold displayObjects. rewrite H1, H2, Hd1, Hd2.
    change (gt (Fin d1) (Fin d2)) with (Qltb d2 d1).
    change (gt (Fin d2) (Fin d1)) with (Qltb d1 d2).
    destruct (Qltb_spec d2 d1), (Qltb_spec d1 d2); try reflexivity; lra.
  - intros missing other Hm. unfold displayObjects. rewrite Hm.
    split; [reflexivity|]. now destruct (getObjectById dataManager other).
Qed.

Lemma displayObjects_layout_witness :
  let shown :=
    displayObjects (load sample_data) (Fin 1280) (Fin 720) "moon" "earth" ScaleDisplay.new in
  let larger := if Qltb 12742000 3474800 then moon else earth in
  let smaller := if Qltb 12742000 3474800 then earth else moon in
  obj1Data shown = Some larger /\ obj2Data shown = Some smaller /\
  (exists (s1 s2 : circle) (r1 r2 : Q) (ratio : number),
     obj1Sprite shown = Some s1 /\ obj2Sprite shown = Some s2 /\
     same (x s1) (Fin (1280 / 3)) /\ same (x s2) (Fin (2 * 1280 / 3)) /\
     same (y s1) (Fin (720 / 2)) /\ y s2 = y s1 /\
     radius s1 = Fin r1 /\ radius s2 = Fin r2 /\
     r1 == 1280 * 0.4 / 2 /\ 5 <= r2 /\ r2 <= r1 /\
     ratioText shown =
       Some (name larger ++ " is " ++ toFixed 2 ratio ++ "× larger than "
             ++ name smaller)%string /\
     ratio = binary64 (if Qltb 12742000 3474800
                       then 3474800 / 12742000 else 12742000 / 3474800) /\
     le (Fin 1) ratio = true) /\
  (~ 3474800 == 12742000 ->
   displayObjects (load sample_data) (Fin 1280) (Fin 720) "earth" "moon" ScaleDisplay.new
     = shown) /\
  (forall missing other : string,
     getObjectById (load sample_data) missing = None ->
     displayObjects (load sample_data) (Fin 1280) (Fin 720) missing other ScaleDisplay.new
       = ScaleDisplay.new /\
     displayObjects (load sample_data) (Fin 1280) (Fin 720) other missing ScaleDisplay.new
       = ScaleDisplay.new).
Proof.
  apply (displayObjects_layout (load sample_data) 1280 720 "moon" "earth" moon earth
           3474800 12742000 ScaleDisplay.new).
  - vm_compute. reflexivity.
  - vm_compute. reflexivity.
  - reflexivity.
  - reflexivity.
  - reflexivity.
  - reflexivity.
  - unfold Qle. simpl. lia.
Defined.

(** The quotient is rounded before it is printed: 41 / 40 is below 1.025
    in binary64. *)
Example displayObjects_rounds_the_ratio :
  toFixed 2 (Binary64.ScaleCalculator.calculateSizeRatio (Fin 41) (Fin 40)) = "1.02" /\
  toFixed 2 (Binary64.ScaleCalculator.calculateSizeRatio (Fin 200) (Fin 201)) = "1.00".
Proof. split; vm_compute; reflexivity. Qed.

End ScaleDisplayLayout.

(* ------------------------------------------------------------------ *)
(** ** The logarithmic distance scale *)

Section LogarithmicScale.
Import Constants ScaleCalculator.
Local Open Scope Q_scope.

Lemma le_Fin_false (p q : Q) : q < p -> le (Fin p) (Fin q) = false.
Proof.
  intros H. destruct (le (Fin p) (Fin q)) eqn:E; [|reflexivity].
  apply le_Fin in E. lra.
Qed.


Lemma log1p_upper_bound_positive : log1p_positive log1p_upper_bound.
Proof. intros q Hq. exists q. split; [reflexivity|exact Hq]. Qed.

Lemma log1p_upper_bound_monotone : log1p_monotone log1p_upper_bound.
Proof. intros p q r s _ H [= <-] [= <-]. exact H. Qed.

(** [realToScreen] on finite positive distances. *)
Lemma realToScreen_Fin (f : number -> number) (d m w r s : Q) :
  0 < d -> 0 < m -> f (Fin d) = Fin r -> f (Fin m) = Fin s -> 0 < s ->
  exists v : Q, realToScreen f (Fin d) (Fin m) (Fin w) = Fin v /\ v == r / s * w.
Proof.
  intros Hd Hm Er Es Hs. unfold realToScreen.
  rewrite (le_Fin_false d 0 Hd), (le_Fin_false m 0 Hm), Er, Es.
  cbn [div mul]. destruct (Qeqb_spec s 0) as [E|_]; [lra|].
  eexists. split; [reflexivity|]. now rewrite !Qred_correct.
Qed.


(** X11.  Whatever [Math.log1p] is, provided it is positive and finite
    on positive finite numbers and does not decrease: for distances
    [0 < d <= d' <= max] and a width [w >= 0], [realToScreen] returns
    finite pixels in [[0, w]], does not decrease with the distance, is
    positive when [w] is, and gives the whole width to the maximum
    distance.  It returns 0 as soon as the distance or the maximum is not
    positive. *)
Theorem realToScreen_within_width (f : number -> number) (d d' max w : Q) :
  log1p_positive f -> log1p_monotone f ->
  0 < d -> d <= d' -> d' <= max -> 0 <= w ->
  (exists v v' : Q,
     realToScreen f (Fin d) (Fin max) (Fin w) = Fin v /\
     realToScreen f (Fin d') (Fin max) (Fin w) = Fin v' /\
     0 <= v /\ v <= v' /\ v' <= w /\
     (0 < w -> 0 < v) /\
     (d' == max -> v' == w)) /\
  (forall x m z : number,
     le x (Fin 0) = true \/ le m (Fin 0) = true -> realToScreen f x m z = Fin 0).
Proof.
  intros Hpos Hmono Hd Hdd Hdm Hw. split.
  - destruct (Hpos d Hd) as (r & Er & Hr).
    destruct (Hpos d' ltac:(lra)) as (r' & Er' & Hr').
    destruct (Hpos max ltac:(lra)) as (s & Es & Hs).
    destruct (realToScreen_Fin f d max w r s Hd ltac:(lra) Er Es Hs) as (v & Ev & Hv).
    destruct (realToScreen_Fin f d' max w r' s ltac:(lra) ltac:(lra) Er' Es Hs)
      as (v' & Ev' & Hv').
    pose proof (Hmono d d' r r' Hd Hdd Er Er') as M1.
    pose proof (Hmono d' max r' s ltac:(lra) Hdm Er' Es) as M2.
    exists v, v'. split; [exact Ev|]. split; [exact Ev'|].
    assert (K0 : 0 < r / s) by (apply Qlt_shift_div_l; lra).
    assert (K1 : r / s <= r' / s).
    { unfold Qdiv. apply Qmult_le_compat_r; [exact M1|]. apply Qinv_le_0_compat. lra. }
    assert (K2 : r' / s <= 1) by (apply Qle_shift_div_r; lra).
    rewrite Hv, Hv'. clear Hv Hv' Ev Ev'.
    set (k := r / s) in *. set (k' := r' / s) in *.
    split; [nra|]. split; [nra|]. split; [nra|]. split; [intros Hw'; nra|].
    intros E.
    assert (M3 : s <= r').
    { apply (Hmono max d' s r'); [lra| |exact Es|exact Er']. rewrite E. lra. }
    assert (E' : k' == 1).
    { unfold k'. assert (Ers : r' == s) by lra. rewrite Ers. field. lra. }
    rewrite E'. ring.
  - intros x m z [H|H]; unfold realToScreen; rewrite H; [reflexivity|].
    now destruct (le x (Fin 0)).
Qed.

Lemma realToScreen_within_width_witness :
  (exists v v' : Q,
     realToScreen log1p_upper_bound (Fin 384400000) (Fin 149600000000) (Fin 896) = Fin v /\
     realToScreen log1p_upper_bound (Fin 149600000000) (Fin 149600000000) (Fin 896)
       = Fin v' /\
     0 <= v /\ v <= v' /\ v' <= 896 /\
     (0 < 896 -> 0 < v) /\
     (149600000000 == 149600000000 -> v' == 896)) /\
  (forall x m z : number,
     le x (Fin 0) = true \/ le m (Fin 0) = true ->
     realToScreen log1p_upper_bound x m z = Fin 0).
Proof.
  apply (realToScreen_within_width log1p_upper_bound 384400000 149600000000
           149600000000 896).
  - intros q Hq. exists q. split; [reflexivity|exact Hq].
  - intros p q r s _ H [= <-] [= <-]. exact H.
  - reflexivity.
  - unfold Qle. simpl. lia.
  - unfold Qle. simpl. lia.
  - unfold Qle. simpl. lia.
Defined.




End LogarithmicScale.

(* ------------------------------------------------------------------ *)
(** ** DistanceAnimator.animateSeparation *)

Section Separation.
Import Constants ScaleCalculator DataManager DistanceAnimator.
Local Open Scope Q_scope.



End Separation.

(* ------------------------------------------------------------------ *)
(** ** LightSpeedTraveler: the timer shows real time *)

Section Timer.
Import Constants ScaleCalculator LightSpeedTraveler.
Local Open Scope Q_scope.



End Timer.

(* ------------------------------------------------------------------ *)
(** ** ScaleCalculator.formatScale on every value it prints in full *)

Section FormatScaleReading.
Import ScaleCalculator.
Local Open Scope Q_scope.


End FormatScaleReading.

Section FormatScaleReadingBinary64.
Import Binary64 Binary64.ScaleCalculator.
Local Open Scope Q_scope.

Variable Math_log10 : number -> number.
Variable Math_pow : number -> number -> number.

(** X15.  Whatever exponent [k] [Math.floor(Math.log10(|v|))] gives for a
    binary64 value [v] of magnitude at least [1e-100], the decade of
    [|v|] or the next one ([10^(k-1) <= |v| < 10^(k+1)]), when
    [Math.pow(10, k)] is within 2^-51 of [10^k]: [formatScale v] reads
    back as the sign of [v], the exponent [k] and a mantissa with two
    decimals between 0.10 and 10.00, and the number read back is within
    (0.005 + 10^-14) * 10^k of [|v|].  When the logarithm has rounded up
    to [k], the value being below [10^k] and at least 0.999 * 10^k, the
    mantissa is 1.00.  A negative value prints as the minus sign followed
    by what its opposite prints. *)
Theorem formatScale_reads_back (v : Q) (k : Z) :
  is_binary64 (Fin v) = true ->
  lt (Math_abs (Fin v)) literal_1e_100 = false ->
  Math_floor (Math_log10 (Math_abs (Fin v))) = Fin (inject_Z k) ->
  pow_accurate Math_pow k ->
  pow10 (k - 1) <= Qabs v -> Qabs v < pow10 (k + 1) ->
  exists r : scale_reading,
    parseScale (formatScale Math_log10 Math_pow (Fin v)) = Some r /\
    negative r = Qltb v 0 /\
    exponent10 r = k /\
    (10 <= hundredths r <= 1000)%N /\
    Qabs (mantissa_of r * pow10 k - Qabs v) <= (1 / 200 + 1 / 10 ^ 14) * pow10 k /\
    ((999 # 1000) * pow10 k <= Qabs v -> Qabs v < pow10 k -> hundredths r = 100%N) /\
    formatScale Math_log10 Math_pow (Fin (- Qabs v)) =
      ("-" ++ formatScale Math_log10 Math_pow (Fin (Qabs v)))%string.
Proof.
  intros Hb G HL HP Hlo Hhi.
  pose proof (pow10_pos k) as HT. pose proof (pow10_pos (k - 1)) as HT1.
  assert (E1 : pow10 (k - 1) * 10 == pow10 k).
  { pose proof (pow10_succ (k - 1)) as E. replace (k - 1 + 1)%Z with k in E by lia.
    rewrite E. ring. }
  pose proof (pow10_succ k) as E2.
  destruct (formatScale_reading Math_log10 Math_pow v k G (is_binary64_range v Hb) HL HP Hlo Hhi)
    as (r & Er & Hn & He & Hm).
  set (m := Qabs v / pow10 k) in *.
  assert (Ev : Qabs v == m * pow10 k) by (unfold m; field; lra).
  assert (M1 : 1 # 10 <= m) by (apply Qle_shift_div_l; lra).
  assert (M2 : m < 10) by (apply Qlt_shift_div_r; lra).
  exists r. split; [exact Er|]. split; [exact Hn|]. split; [exact He|].
  split; [|split; [|split]].
  - apply (hundredths_between (hundredths r) m 10 1000); [| |exact Hm].
    + change (inject_Z 10) with 10. lra.
    + change (inject_Z 1000) with 1000. lra.
  - rewrite Ev. set (c := 1 / 200 + 1 / 10 ^ 14) in *.
    assert (c0 : 0 <= c) by (unfold c; vm_compute; discriminate).
    clearbody c. apply Qabs_Qle_condition in Hm as [Hm1 Hm2].
    assert (Ex : mantissa_of r * pow10 k - m * pow10 k == (mantissa_of r - m) * pow10 k)
      by ring.
    rewrite Ex. set (x := mantissa_of r - m) in *. clearbody x.
    apply Qabs_Qle_condition. split; nra.
  - intros L U.
    assert (M3 : 999 # 1000 <= m) by (apply Qle_shift_div_l; lra).
    assert (M4 : m < 1) by (apply Qlt_shift_div_r; lra).
    assert (B : (Z.to_N 100 <= hundredths r <= Z.to_N 100)%N).
    { apply (hundredths_between (hundredths r) m); [| |exact Hm].
      - change (inject_Z 100) with 100. lra.
      - change (inject_Z 100) with 100. lra. }
    change (Z.to_N 100) with 100%N in B. lia.
  - assert (Hpos : 0 < Qabs v) by lra.
    unfold formatScale. cbn [strict_eq Math_abs].
    rewrite Qabs_opp_eq, Qabs_Qabs_eq.
    destruct (Qeqb_spec (- Qabs v) 0) as [E|_]; [lra|].
    destruct (Qeqb_spec (Qabs v) 0) as [E|_]; [lra|].
    change (Math_abs (Fin v)) with (Fin (Qabs v)) in G. rewrite G. cbn [lt].
    destruct (Qltb_spec (- Qabs v) 0); [|lra].
    destruct (Qltb_spec (Qabs v) 0); [lra|]. reflexivity.
Qed.

End FormatScaleReadingBinary64.

Section FormatScaleReadingWitness.
Local Open Scope Q_scope.

Lemma formatScale_reads_back_witness :
  exists r : scale_reading,
    parseScale (Binary64.ScaleCalculator.formatScale (fun _ => Fin 3) pow10_nearest
                  (Fin (8796093022207999 # 8796093022208))) = Some r /\
    negative r = Qltb (8796093022207999 # 8796093022208) 0 /\
    exponent10 r = 3%Z /\
    (10 <= hundredths r <= 1000)%N /\
    Qabs (mantissa_of r * pow10 3 - Qabs (8796093022207999 # 8796093022208))
      <= (1 / 200 + 1 / 10 ^ 14) * pow10 3 /\
    ((999 # 1000) * pow10 3 <= Qabs (8796093022207999 # 8796093022208) ->
     Qabs (8796093022207999 # 8796093022208) < pow10 3 -> hundredths r = 100%N) /\
    Binary64.ScaleCalculator.formatScale (fun _ => Fin 3) pow10_nearest
        (Fin (- Qabs (8796093022207999 # 8796093022208))) =
      ("-" ++ Binary64.ScaleCalculator.formatScale (fun _ => Fin 3) pow10_nearest
                (Fin (Qabs (8796093022207999 # 8796093022208))))%string.
Proof.
  apply (formatScale_reads_back (fun _ => Fin 3) pow10_nearest
           (8796093022207999 # 8796093022208) 3).
  - vm_compute. reflexivity.
  - vm_compute. reflexivity.
  - reflexivity.
  - exists 1000. split; [vm_compute; reflexivity|vm_compute; discriminate].
  - vm_compute. discriminate.
  - vm_compute. reflexivity.
Defined.

End FormatScaleReadingWitness.

(* ------------------------------------------------------------------ *)
(** ** ScaleCalculator.formatTime at the end of a band *)

Section FormatTimeRounding.
Import ScaleCalculator.
Local Open Scope Q_scope.



End FormatTimeRounding.

(* ------------------------------------------------------------------ *)
(** ** StateManager.setAnimating *)

Section AnimationState.
Import StateManager.
Local Open Scope list_scope.
Local Open Scope nat_scope.

Lemma setAnimating_spec (value : bool) (s : state) :
  let (s', e) := setAnimating value s in
  isAnimating (app s') = value /\
  currentMode (app s') = currentMode (app s) /\ isPaused (app s') = isPaused (app s) /\
  comparison s' = comparison s /\ powersOfTen s' = powersOfTen s /\ ui s' = ui s /\
  e = (if Bool.eqb (isAnimating (app s)) value then []
       else [{| event := "animationStateChanged"; args := [ABool value] |}]).
Proof.
  unfold setAnimating.
  destruct (isAnimating (app s)) eqn:E, value; cbn; rewrite ?E; repeat split.
Qed.

(** X17.  Over any sequence of [setAnimating] calls from any state:
    every event emitted is ['animationStateChanged'], there is at most one
    per call, and the payloads alternate, the first one differing from the
    value the state had, so that a listener is never told the value it was
    told last; the state ends with the value of the last call; the rest of
    the state is not touched. *)
Theorem setAnimating_notifies_changes_only (values : list bool) (s : state) :
  let (s', events) := setAnimating_run values s in
  Forall (fun e => event e = "animationStateChanged") events /\
  length events <= length values /\
  length (payloads_of "animationStateChanged" events) = length events /\
  alternating (isAnimating (app s)) (payloads_of "animationStateChanged" events) = true /\
  isAnimating (app s') = List.last values (isAnimating (app s)) /\
  currentMode (app s') = currentMode (app s) /\ isPaused (app s') = isPaused (app s) /\
  comparison s' = comparison s /\ powersOfTen s' = powersOfTen s /\ ui s' = ui s.
Proof.
  revert s. induction values as [|value rest IH]; intros s; cbn [setAnimating_run].
  - cbn. repeat split; auto.
  - pose proof (setAnimating_spec value s) as H1.
    destruct (setAnimating value s) as [s1 e1].
    destruct H1 as (A1 & A2 & A3 & A4 & A5 & A6 & A7).
    specialize (IH s1). destruct (setAnimating_run rest s1) as [s2 e2].
    destruct IH as (B1 & B2 & B3 & B4 & B5 & B6 & B7 & B8 & B9 & B10).
    rewrite A1 in B4, B5.
    assert (Hlast : forall (l : list bool) (a d : bool),
              List.last (a :: l) d = List.last l a).
    { induction l as [|b l IHl]; intros a d; [reflexivity|].
      change (List.last (a :: b :: l) d) with (List.last (b :: l) d).
      now rewrite !IHl. }
    rewrite Hlast.
    destruct (Bool.eqb (isAnimating (app s)) value) eqn:E; subst e1; cbn [app length].
    + apply Bool.eqb_prop in E. rewrite E.
      repeat split; try congruence; auto.
    + change ([{| event := "animationStateChanged"; args := [ABool value] |}] ++ e2)
        with ({| event := "animationStateChanged"; args := [ABool value] |} :: e2).
      change (payloads_of "animationStateChanged"
                ({| event := "animationStateChanged"; args := [ABool value] |} :: e2))
        with (value :: payloads_of "animationStateChanged" e2).
      cbn [alternating length].
      assert (N : negb (Bool.eqb value (isAnimating (app s))) = true).
      { destruct value, (isAnimating (app s)); cbn in *; congruence. }
      rewrite N, B4.
      repeat split; try congruence; auto; lia.
Qed.

Lemma toggleHelp_spec (s : state) :
  let (s', e) := toggleHelp s in
  helpVisible (ui s') = negb (helpVisible (ui s)) /\
  infoPanelOpen (ui s') = infoPanelOpen (ui s) /\
  selectedInfoObject (ui s') = selectedInfoObject (ui s) /\
  app s' = app s /\ comparison s' = comparison s /\ powersOfTen s' = powersOfTen s /\
  e = [{| event := "helpVisibilityChanged"; args := [ABool (negb (helpVisible (ui s)))] |}].
Proof. cbn. repeat split. Qed.

Lemma state_eq (s s' : state) :
  app s' = app s -> comparison s' = comparison s -> powersOfTen s' = powersOfTen s ->
  infoPanelOpen (ui s') = infoPanelOpen (ui s) ->
  selectedInfoObject (ui s') = selectedInfoObject (ui s) ->
  helpVisible (ui s') = helpVisible (ui s) -> s' = s.
Proof.
  destruct s as [a c p [i o v]], s' as [a' c' p' [i' o' v']]. cbn. congruence.
Qed.

(** X18.  [n] calls of [toggleHelp] in a row emit [n] events
    ['helpVisibilityChanged'], whose payloads alternate and start with the
    opposite of the visibility the state had; the help ends visible
    exactly when [n] is odd and it was hidden, or [n] is even and it was
    visible; nothing else in the state changes, so that an even number of
    calls gives the state back as it was. *)
Theorem toggleHelp_parity (n : nat) (s : state) :
  let (s', events) := toggleHelp_run n s in
  length events = n /\
  Forall (fun e => event e = "helpVisibilityChanged") events /\
  length (payloads_of "helpVisibilityChanged" events) = n /\
  alternating (helpVisible (ui s)) (payloads_of "helpVisibilityChanged" events) = true /\
  helpVisible (ui s') = xorb (Nat.odd n) (helpVisible (ui s)) /\
  infoPanelOpen (ui s') = infoPanelOpen (ui s) /\
  selectedInfoObject (ui s') = selectedInfoObject (ui s) /\
  app s' = app s /\ comparison s' = comparison s /\ powersOfTen s' = powersOfTen s /\
  (Nat.even n = true -> s' = s).
Proof.
  revert s. induction n as [|n IH]; intros s; cbn [toggleHelp_run].
  - cbn. repeat split; auto.
  - pose proof (toggleHelp_spec s) as H1. destruct (toggleHelp s) as [s1 e1].
    destruct H1 as (A1 & A2 & A3 & A4 & A5 & A6 & ->).
    specialize (IH s1). destruct (toggleHelp_run n s1) as [s2 e2].
    destruct IH as (B1 & B2 & B3 & B4 & B5 & B6 & B7 & B8 & B9 & B10 & B11).
    change ([{| event := "helpVisibilityChanged";
                args := [ABool (negb (helpVisible (ui s)))] |}] ++ e2)
      with ({| event := "helpVisibilityChanged";
               args := [ABool (negb (helpVisible (ui s)))] |} :: e2).
    change (payloads_of "helpVisibilityChanged"
              ({| event := "helpVisibilityChanged";
                  args := [ABool (negb (helpVisible (ui s)))] |} :: e2))
      with (negb (helpVisible (ui s)) :: payloads_of "helpVisibilityChanged" e2).
    cbn [length alternating]. rewrite A1 in B4, B5. rewrite B4.
    assert (Hx : helpVisible (ui s2) = xorb (Nat.odd (S n)) (helpVisible (ui s))).
    { rewrite B5, Nat.odd_succ, <- Nat.negb_odd.
      destruct (Nat.odd n), (helpVisible (ui s)); reflexivity. }
    repeat split; try congruence; auto.
    + now destruct (helpVisible (ui s)).
    + intros He. apply state_eq; try congruence.
      rewrite Hx. rewrite <- Nat.negb_even, He. reflexivity.
Qed.

End AnimationState.

(* ------------------------------------------------------------------ *)
(** ** ObjectSelector: the cards and the selection *)

Section Cards.
Import Constants DataManager ObjectSelector.
Local Open Scope list_scope.
Local Open Scope nat_scope.

Variable objects : list CosmicObject.

Lemma has_card_In (l : list CosmicObject) (i : string) :
  has_card l i = true <-> In i (map id l).
Proof.
  unfold has_card, findObject. induction l as [|o l IH]; cbn [List.find map In].
  - split; [discriminate|tauto].
  - destruct (String.eqb_spec (id o) i) as [E|N].
    + split; auto.
    + rewrite IH. split; [auto|intros [E|H]; [contradiction|exact H]].
Qed.

Lemma createCards_lookup (l : list CosmicObject) (m : gmap string bool) (i : string) :
  (is_Some (foldl (fun m obj => <[id obj := false]> m) m l !! i) <->
   is_Some (m !! i) \/ In i (map id l)) /\
  ((forall j, highlighted m j = false) ->
   highlighted (foldl (fun m obj => <[id obj := false]> m) m l) i = false).
Proof.
  revert m. induction l as [|o l IH]; intros m; cbn [foldl map In].
  - split; [tauto|auto].
  - destruct (IH (<[id o := false]> m)) as [IH1 IH2]. split.
    + rewrite IH1, lookup_insert_is_Some. split.
      * intros [[E|[N H]]|H]; auto.
      * intros [H|[E|H]]; auto.
        destruct (decide (id o = i)); auto.
    + intros H. apply IH2. intros j. unfold highlighted.
      destruct (decide (id o = j)) as [<-|N].
      * now rewrite lookup_insert_eq.
      * rewrite lookup_insert_ne by exact N. apply H.
Qed.

Lemma createCards_cards : cards_of_objects objects (createCards objects).
Proof.
  intros i. unfold createCards.
  rewrite (proj1 (createCards_lookup objects ∅ i)), has_card_In, lookup_empty.
  split; [intros [[x H]|H]; [discriminate|exact H]|auto].
Qed.

Lemma createCards_none_highlighted (i : string) :
  highlighted (createCards objects) i = false.
Proof.
  apply createCards_lookup. intros j. unfold highlighted. now rewrite lookup_empty.
Qed.

Lemma setCard_spec (v : bool) (i : string) (objectCards : gmap string bool) :
  cards_of_objects objects objectCards ->
  cards_of_objects objects (setCard v objects i objectCards) /\
  forall j, highlighted (setCard v objects i objectCards) j =
            (if String.eqb i j && has_card objects i then v
             else highlighted objectCards j).
Proof.
  intros Hc. pose proof (Hc i) as Hi. unfold setCard.
  unfold has_card in Hi |- *.
  destruct (objectCards !! i) as [w|] eqn:E; destruct (findObject objects i) eqn:F.
  - split.
    + intros j. rewrite lookup_insert_is_Some, <- (Hc j). split.
      * intros [<-|[_ H]]; [rewrite E; eauto|exact H].
      * intros H. destruct (decide (i = j)); auto.
    + intros j. unfold highlighted. destruct (String.eqb_spec i j) as [<-|N].
      * rewrite lookup_insert_eq. now destruct v.
      * now rewrite lookup_insert_ne.
  - exfalso. destruct Hi as [Hi _]. specialize (Hi ltac:(eauto)). discriminate.
  - exfalso. destruct Hi as [_ Hi]. destruct (Hi eq_refl). discriminate.
  - split; [exact Hc|]. intros j. now rewrite andb_false_r.
Qed.

Lemma highlighted_has_card (objectCards : gmap string bool) (j : string) :
  cards_of_objects objects objectCards ->
  highlighted objectCards j = true -> has_card objects j = true.
Proof.
  intros Hc H. apply Hc. unfold highlighted in H.
  destruct (objectCards !! j); [eauto|discriminate].
Qed.

Lemma deselect_highlighted (a j : string) (objectCards : gmap string bool) :
  cards_of_objects objects objectCards ->
  highlighted (deselectCard objects a objectCards) j = true ->
  highlighted objectCards j = true /\ a <> j.
Proof.
  intros Hc H. unfold deselectCard in H.
  rewrite (proj2 (setCard_spec false a objectCards Hc)) in H.
  destruct (String.eqb_spec a j) as [<-|N]; cbn [andb] in H; [|auto].
  destruct (has_card objects a) eqn:K; [discriminate|].
  rewrite (highlighted_has_card objectCards a Hc H) in K. discriminate.
Qed.

Lemma select_highlighted (i j : string) (objectCards : gmap string bool) :
  cards_of_objects objects objectCards ->
  highlighted (selectCard objects i objectCards) j =
    (String.eqb i j && has_card objects i) || highlighted objectCards j.
Proof.
  intros Hc. unfold selectCard.
  rewrite (proj2 (setCard_spec true i objectCards Hc)).
  now destruct (String.eqb i j && has_card objects i).
Qed.

(** The cards after each of the two methods. *)
Lemma cards_after_selectObject (objectId : string) (sel : list string)
  (objectCards : gmap string bool) :
  cards_after objects (selectObject objectId sel) objectCards =
    selectCard objects objectId
      (match sel with
       | removed :: _ :: _ => deselectCard objects removed objectCards
       | _ => objectCards
       end).
Proof.
  unfold cards_after, selectObject, selectObject_with, MAX_SELECTIONS.
  destruct sel as [|a [|b rest]]; cbn [length Nat.leb shift effects]; try reflexivity.
  destruct (length ((b :: rest) ++ [objectId]) =? 2); reflexivity.
Qed.

Lemma cards_after_clearSelection (sel : list string) (objectCards : gmap string bool) :
  cards_after objects (clearSelection sel) objectCards =
    fold_left (fun c removed => deselectCard objects removed c) sel objectCards.
Proof.
  unfold cards_after, clearSelection. cbn [effects List.app fold_left card_effect].
  rewrite fold_left_app. cbn [fold_left card_effect].
  revert objectCards. induction sel as [|a sel IH]; intros c; [reflexivity|].
  cbn [map fold_left card_effect]. apply IH.
Qed.

Lemma deselect_all (sel : list string) (objectCards : gmap string bool) :
  cards_of_objects objects objectCards ->
  cards_of_objects objects
    (fold_left (fun c removed => deselectCard objects removed c) sel objectCards) /\
  forall j,
    highlighted (fold_left (fun c removed => deselectCard objects removed c) sel objectCards) j
      = true ->
    highlighted objectCards j = true /\ ~ In j sel.
Proof.
  revert objectCards. induction sel as [|a sel IH]; intros c Hc; cbn [fold_left].
  - split; [exact Hc|]. intros j H. split; [exact H|intros []].
  - pose proof (proj1 (setCard_spec false a c Hc)) as Hc'.
    destruct (IH _ Hc') as [IH1 IH2]. split; [exact IH1|].
    intros j H. apply IH2 in H as [H Hn].
    apply (deselect_highlighted a j c Hc) in H as [H Na].
    split; [exact H|]. intros [E|E]; contradiction.
Qed.

Lemma step_select (i : string) (sel : list string) (cards : gmap string bool) :
  ObjectSelector_step_cards objects (sel, cards) (Select i) =
    ((if MAX_SELECTIONS <=? length sel then snd (shift sel) else sel) ++ [i],
     selectCard objects i
       (match sel with
        | removed :: _ :: _ => deselectCard objects removed cards
        | _ => cards
        end)).
Proof.
  unfold ObjectSelector_step_cards. cbn [fst snd].
  now rewrite cards_after_selectObject, (proj2 (selectObject_selection i sel)).
Qed.

Lemma step_clear (sel : list string) (cards : gmap string bool) :
  ObjectSelector_step_cards objects (sel, cards) Clear =
    ([], fold_left (fun c removed => deselectCard objects removed c) sel cards).
Proof.
  unfold ObjectSelector_step_cards. cbn [fst snd].
  now rewrite cards_after_clearSelection.
Qed.

(** Every highlighted card is selected. *)
Lemma step_highlighted_selected (st : list string * gmap string bool) (o : operation) :
  cards_of_objects objects (snd st) ->
  (forall j, highlighted (snd st) j = true -> In j (fst st)) ->
  cards_of_objects objects (snd (ObjectSelector_step_cards objects st o)) /\
  (forall j, highlighted (snd (ObjectSelector_step_cards objects st o)) j = true ->
             In j (fst (ObjectSelector_step_cards objects st o))).
Proof.
  destruct st as [sel cards]. cbn [fst snd]. intros Hc Hh.
  destruct o as [i|].
  - rewrite step_select. cbn [fst snd].
    assert (Hd : cards_of_objects objects
              (match sel with
               | removed :: _ :: _ => deselectCard objects removed cards
               | _ => cards
               end)).
    { destruct sel as [|a [|b rest]]; auto. apply setCard_spec, Hc. }
    split; [apply setCard_spec, Hd|].
    intros j. rewrite (select_highlighted i j _ Hd).
    intros H. apply orb_prop in H as [H|H].
    + apply andb_prop in H as [H _]. apply String.eqb_eq in H. subst j.
      apply in_or_app. right. now left.
    + apply in_or_app. left.
      destruct sel as [|a [|b rest]]; unfold MAX_SELECTIONS; cbn [length Nat.leb shift snd].
      * now apply Hh.
      * now apply Hh.
      * apply (deselect_highlighted a j cards Hc) in H as [H Na].
        destruct (Hh j H) as [E|E]; [contradiction|exact E].
  - rewrite step_clear. cbn [fst snd].
    destruct (deselect_all sel cards Hc) as [H1 H2]. split; [exact H1|].
    intros j H. apply H2 in H as [H Hn]. exfalso. apply Hn. now apply Hh.
Qed.

Lemma run_highlighted_selected (ops : list operation) (st : list string * gmap string bool) :
  cards_of_objects objects (snd st) ->
  (forall j, highlighted (snd st) j = true -> In j (fst st)) ->
  cards_of_objects objects (snd (fold_left (ObjectSelector_step_cards objects) ops st)) /\
  (forall j,
     highlighted (snd (fold_left (ObjectSelector_step_cards objects) ops st)) j = true ->
     In j (fst (fold_left (ObjectSelector_step_cards objects) ops st))).
Proof.
  revert st. induction ops as [|o ops IH]; intros st Hc Hh; cbn [fold_left]; [auto|].
  destruct (step_highlighted_selected st o Hc Hh) as [Hc' Hh']. now apply IH.
Qed.

(** Without an immediate repeat every selected id that has a card is
    highlighted. *)
Lemma run_selected_highlighted (ops : list operation) (previous : option string)
  (sel : list string) (cards : gmap string bool) :
  cards_of_objects objects cards ->
  (forall j, In j sel -> has_card objects j = true -> highlighted cards j = true) ->
  (sel = [] /\ previous = None \/
   (exists a, sel = [a] /\ previous = Some a) \/
   (exists a b, sel = [a; b] /\ a <> b /\ previous = Some b)) ->
  no_repeat_from previous ops = true ->
  forall j,
    In j (fst (fold_left (ObjectSelector_step_cards objects) ops (sel, cards))) ->
    has_card objects j = true ->
    highlighted (snd (fold_left (ObjectSelector_step_cards objects) ops (sel, cards))) j
      = true.
Proof.
  revert previous sel cards.
  induction ops as [|o ops IH]; intros previous sel cards Hc Hh Hshape Hops;
    cbn [fold_left fst snd]; [exact Hh|].
  destruct o as [i|]; cbn [no_repeat_from] in Hops.
  - apply andb_prop in Hops as [Hne Hops].
    rewrite step_select.
    apply (IH (Some i)); [| | |exact Hops].
    + destruct sel as [|a [|b rest]]; apply setCard_spec; auto. apply setCard_spec, Hc.
    + assert (Hd : cards_of_objects objects
                (match sel with
                 | removed :: _ :: _ => deselectCard objects removed cards
                 | _ => cards
                 end)).
      { destruct sel as [|a [|b rest]]; auto. apply setCard_spec, Hc. }
      intros j Hj Hcard. rewrite (select_highlighted i j _ Hd).
      destruct (String.eqb_spec i j) as [<-|N]; [now rewrite Hcard|].
      cbn [andb orb].
      apply in_app_or in Hj as [Hj|[E|[]]]; [|contradiction].
      destruct Hshape as [[-> _]|[(a & -> & _)|(a & b & -> & Hab & _)]];
        unfold MAX_SELECTIONS in Hj; cbn [length Nat.leb shift snd] in Hj.
      * destruct Hj.
      * now apply Hh.
      * destruct Hj as [<-|[]]. unfold deselectCard.
        rewrite (proj2 (setCard_spec false a cards Hc)).
        destruct (String.eqb_spec a b) as [E|_]; [contradiction|].
        cbn [andb]. apply Hh; [right; now left|exact Hcard].
    + destruct Hshape as [[-> ->]|[(a & -> & ->)|(a & b & -> & Hab & ->)]];
        unfold MAX_SELECTIONS; cbn [length Nat.leb shift snd List.app].
      * right. left. now exists i.
      * right. right. exists a, i. repeat split.
        cbn in Hne. destruct (String.eqb_spec a i); [discriminate|assumption].
      * right. right. exists b, i. repeat split.
        cbn in Hne. destruct (String.eqb_spec b i); [discriminate|assumption].
  - rewrite step_clear.
    apply (IH None); [apply deselect_all, Hc|intros j []|now left|exact Hops].
Qed.

(** X19.  After any sequence of clicks and clears on the selector, from
    the cards as [create()] makes them: a card that shows as selected
    belongs to a selected id.  The converse needs that no id is selected
    twice in a row: then every selected id that has a card shows as
    selected.  It fails otherwise: after [a], [a], [b] the selection is
    [[a; b]], and the card of [a] does not show as selected, the second
    eviction of [a] having reset the card while [a] stays selected. *)
Theorem highlighted_cards_and_selection (ops : list operation) :
  let (sel, cards) := ObjectSelector_run_cards objects ops in
  (forall i, highlighted cards i = true -> In i sel /\ has_card objects i = true) /\
  (no_repeat_from None ops = true ->
   forall i, In i sel -> has_card objects i = true -> highlighted cards i = true) /\
  (forall a b : string, a <> b ->
     let (sel3, cards3) :=
       ObjectSelector_run_cards objects [Select a; Select a; Select b] in
     sel3 = [a; b] /\ highlighted cards3 a = false /\
     highlighted cards3 b = has_card objects b).
Proof.
  unfold ObjectSelector_run_cards.
  pose proof (run_highlighted_selected ops ([], createCards objects) createCards_cards) as H1.
  pose proof (run_selected_highlighted ops None [] (createCards objects) createCards_cards)
    as H2.
  destruct (fold_left (ObjectSelector_step_cards objects) ops ([], createCards objects))
    as [sel cards].
  cbn [fst snd] in H1, H2.
  destruct H1 as [Hc Hh].
  { intros j H. rewrite createCards_none_highlighted in H. discriminate. }
  split; [|split].
  - intros i Hi. split; [now apply Hh|now apply (highlighted_has_card cards)].
  - intros Hops. apply H2; [intros j []|now left|exact Hops].
  - intros a b Hab. cbn [fold_left]. rewrite !step_select.
    cbn [MAX_SELECTIONS length Nat.leb shift snd List.app].
    set (c1 := selectCard objects a (createCards objects)).
    set (c2 := selectCard objects a c1). set (c3 := deselectCard objects a c2).
    assert (C1 : cards_of_objects objects c1) by apply setCard_spec, createCards_cards.
    assert (C2 : cards_of_objects objects c2) by apply setCard_spec, C1.
    assert (C3 : cards_of_objects objects c3) by apply setCard_spec, C2.
    assert (H3 : forall j, highlighted c3 j =
                   (if String.eqb a j && has_card objects a then false
                    else highlighted c2 j))
      by (intros j; apply (setCard_spec false a c2 C2)).
    assert (H2' : forall j, highlighted c2 j =
                    (String.eqb a j && has_card objects a) || highlighted c1 j)
      by (intros j; apply select_highlighted, C1).
    assert (H1' : forall j, highlighted c1 j =
                    (String.eqb a j && has_card objects a) || false).
    { intros j. unfold c1. rewrite select_highlighted by apply createCards_cards.
      now rewrite createCards_none_highlighted. }
    split; [reflexivity|].
    rewrite !(select_highlighted b _ c3 C3), !H3, !H2', !H1', !String.eqb_refl.
    destruct (String.eqb_spec b a); [congruence|].
    destruct (String.eqb_spec a b); [congruence|].
    destruct (has_card objects a), (has_card objects b); split; reflexivity.
Qed.

End Cards.

(* ------------------------------------------------------------------ *)
(** ** What a listener of ['selectionComplete'] holds *)

Section Sharing.
Import Constants SharedArrays.
Local Open Scope list_scope.
Local Open Scope nat_scope.

Lemma read_write_eq (h : heap) (r : ref) (a : list string) :
  r < length h -> read (write h r a) r = a.
Proof. intros H. unfold read, write, ref, heap in *. now rewrite list_lookup_insert_eq. Qed.

Lemma read_write_ne (h : heap) (r q : ref) (a : list string) :
  r <> q -> read (write h r a) q = read h q.
Proof. intros H. unfold read, write, ref, heap in *. now rewrite list_lookup_insert_ne. Qed.

Lemma length_write (h : heap) (r : ref) (a : list string) :
  length (write h r a) = length h.
Proof. apply length_insert. Qed.

Lemma read_alloc_old (h : heap) (a : list string) (q : ref) :
  q < length h -> read (snd (alloc h a)) q = read h q.
Proof.
  intros H. unfold read, alloc, ref, heap in *. cbn [snd]. now rewrite lookup_app_l.
Qed.

Lemma read_alloc_new (h : heap) (a : list string) :
  read (snd (alloc h a)) (fst (alloc h a)) = a.
Proof.
  unfold read, alloc, ref, heap in *. cbn [fst snd]. now rewrite list_lookup_middle.
Qed.

(** The update in place both [selectObject] methods start with. *)
Lemma update_in_place (objectId : string) (this : ref) (h : heap) :
  this < length h ->
  let h2 := push (if MAX_SELECTIONS <=? length (read h this)
                  then shift_in_place h this else h) this objectId in
  length h2 = length h /\
  read h2 this = selection (StateManager.selectObject objectId (read h this)) /\
  read h2 this = selection (ObjectSelector.selectObject objectId (read h this)) /\
  forall q, q <> this -> read h2 q = read h q.
Proof.
  intros Hthis h2. subst h2.
  destruct (selectObject_selection objectId (read h this)) as [-> ->].
  unfold push, shift_in_place.
  destruct (MAX_SELECTIONS <=? length (read h this)).
  - rewrite !length_write, !read_write_eq by (rewrite ?length_write; exact Hthis).
    repeat split. intros q Hq. rewrite !read_write_ne by auto. reflexivity.
  - rewrite !length_write, !read_write_eq by exact Hthis.
    repeat split. intros q Hq. rewrite !read_write_ne by auto. reflexivity.
Qed.

(** A step of either class leaves the arrays it does not hold as they
    are. *)
Lemma step_frame (o : operation) (this : ref) (h : heap) (p : ref) :
  this < length h -> p < length h -> p <> this ->
  (let st := StateManager_step_shared (this, h) o in
   fst st < length (snd st) /\ p < length (snd st) /\ p <> fst st /\
   read (snd st) p = read h p) /\
  (let st := ObjectSelector_step_shared (this, h) o in
   fst st < length (snd st) /\ p < length (snd st) /\ p <> fst st /\
   read (snd st) p = read h p).
Proof.
  intros Hthis Hp Hne.
  destruct o as [objectId|]; cbn [StateManager_step_shared ObjectSelector_step_shared fst snd].
  - destruct (update_in_place objectId this h Hthis) as (L & _ & _ & F).
    unfold StateManager_selectObject, ObjectSelector_selectObject.
    set (h2 := push _ this objectId) in *. cbv zeta. split.
    + cbn [fst snd]. rewrite L. repeat split; auto.
    + destruct (length (read h2 this) =? MAX_SELECTIONS).
      * unfold alloc. cbn [fst snd]. rewrite length_app, L. cbn [length].
        repeat split; try lia.
        change (h2 ++ [read h2 this]) with (snd (alloc h2 (read h2 this))).
        rewrite read_alloc_old by lia. now apply F.
      * cbn [fst snd]. rewrite L. repeat split; auto.
  - unfold StateManager_clearSelection, ObjectSelector_clearSelection, alloc.
    cbn [fst snd]. rewrite length_app. cbn [length].
    change (h ++ [[]]) with (snd (alloc h [])).
    rewrite read_alloc_old by exact Hp. repeat split; lia.
Qed.

Lemma run_frame (ops : list operation) (this : ref) (h : heap) (p : ref) :
  this < length h -> p < length h -> p <> this ->
  read (snd (fold_left StateManager_step_shared ops (this, h))) p = read h p /\
  read (snd (fold_left ObjectSelector_step_shared ops (this, h))) p = read h p.
Proof.
  revert this h. induction ops as [|o ops IH]; intros this h Hthis Hp Hne;
    cbn [fold_left]; [split; reflexivity|].
  destruct (step_frame o this h p Hthis Hp Hne) as [(A1 & A2 & A3 & A4) (B1 & B2 & B3 & B4)].
  split.
  - destruct (StateManager_step_shared (this, h) o) as [r1 h1]. cbn [fst snd] in *.
    rewrite <- A4. now apply IH.
  - destruct (ObjectSelector_step_shared (this, h) o) as [r1 h1]. cbn [fst snd] in *.
    rewrite <- B4. now apply IH.
Qed.

(** The array a StateManager holds follows its selection. *)
Lemma run_selects (ids : list string) (this : ref) (h : heap) :
  this < length h ->
  read (snd (fold_left StateManager_step_shared (map Select ids) (this, h))) this =
  fold_left StateManager_step (map Select ids) (read h this).
Proof.
  revert h. induction ids as [|i ids IH]; intros h Hthis; cbn [map fold_left]; [reflexivity|].
  destruct (update_in_place i this h Hthis) as (L & E & _ & _).
  cbn [StateManager_step_shared StateManager_step fst snd].
  unfold StateManager_selectObject. cbv zeta. cbn [fst snd].
  rewrite <- E. apply IH. now rewrite L.
Qed.

(** X20.  On a heap that holds the array of the selection:
    [StateManager.selectObject] updates that array in place as the
    selection is updated, and the array it hands to the listeners of
    ['selectionComplete'] is that very array, so that it goes on following
    the selection at every further [selectObject];
    [ObjectSelector.selectObject] hands over a new array with the same
    content, which no later [selectObject] or [clearSelection] changes;
    and the array [StateManager.getSelectedObjects] returns is a new one
    too, which no later call changes. *)
Theorem selectionComplete_payload_sharing (h : heap) (this : ref) (objectId : string) :
  this < length h ->
  (let '(this', h', events) := StateManager_selectObject objectId this h in
   this' = this /\
   read h' this = selection (StateManager.selectObject objectId (read h this)) /\
   forall p, In (selectionComplete_with p) events ->
     p = this /\
     forall ids : list string,
       read (snd (fold_left StateManager_step_shared (map Select ids) (this', h'))) p =
       fold_left StateManager_step (map Select ids) (read h' p)) /\
  (let '(this', h', events) := ObjectSelector_selectObject objectId this h in
   this' = this /\
   read h' this = selection (ObjectSelector.selectObject objectId (read h this)) /\
   forall p, In (selectionComplete_with p) events ->
     p <> this /\ read h' p = read h' this /\
     forall ops : list operation,
       read (snd (fold_left ObjectSelector_step_shared ops (this', h'))) p = read h' p) /\
  (let '(copy, h') := StateManager_getSelectedObjects this h in
   copy <> this /\ read h' copy = read h this /\ read h' this = read h this /\
   forall ops : list operation,
     read (snd (fold_left StateManager_step_shared ops (this, h'))) copy = read h this).
Proof.
  intros Hthis.
  destruct (update_in_place objectId this h Hthis) as (L & E1 & E2 & F).
  unfold StateManager_selectObject, ObjectSelector_selectObject,
    StateManager_getSelectedObjects.
  set (h2 := push _ this objectId) in *. cbv zeta.
  split; [|split].
  - split; [reflexivity|]. split; [exact E1|].
    intros p Hp.
    assert (p = this) as ->.
    { destruct Hp as [Hp|Hp]; [discriminate|].
      destruct (length (read h2 this) =? MAX_SELECTIONS); [|destruct Hp].
      destruct Hp as [Hp|[]]. now injection Hp. }
    split; [reflexivity|]. intros ids. apply run_selects. now rewrite L.
  - destruct (length (read h2 this) =? MAX_SELECTIONS).
    + unfold alloc.
      change (h2 ++ [read h2 this]) with (snd (alloc h2 (read h2 this))).
      assert (Hr : read (snd (alloc h2 (read h2 this))) this = read h2 this)
        by (apply read_alloc_old; lia).
      split; [reflexivity|]. split; [now rewrite Hr|].
      intros p [Hp|[Hp|[]]]; [discriminate|]. injection Hp as <-.
      split; [lia|]. 
      pose proof (read_alloc_new h2 (read h2 this)) as Hn. cbn [fst alloc] in Hn.
      split; [now rewrite Hr|].
      intros ops. apply run_frame; unfold alloc; cbn [snd]; rewrite ?length_app; cbn [length]; lia.
    + split; [reflexivity|]. split; [exact E2|].
      intros p [Hp|[]]. discriminate.
  - unfold alloc.
    change (h ++ [read h this]) with (snd (alloc h (read h this))).
    pose proof (read_alloc_new h (read h this)) as Hn. cbn [fst alloc] in Hn.
    split; [lia|]. split; [exact Hn|]. split; [now apply read_alloc_old|].
    intros ops. rewrite <- Hn at 2.
    apply run_frame; unfold alloc; cbn [snd]; rewrite ?length_app; cbn [length]; lia.
Qed.

Lemma selectionComplete_payload_sharing_witness :
  (let '(this', h', events) := StateManager_selectObject "moon" 0 [["earth"]] in
   this' = 0 /\
   read h' 0 = selection (StateManager.selectObject "moon" (read [["earth"]] 0)) /\
   forall p, In (selectionComplete_with p) events ->
     p = 0 /\
     forall ids : list string,
       read (snd (fold_left StateManager_step_shared (map Select ids) (this', h'))) p =
       fold_left StateManager_step (map Select ids) (read h' p)) /\
  (let '(this', h', events) := ObjectSelector_selectObject "moon" 0 [["earth"]] in
   this' = 0 /\
   read h' 0 = selection (ObjectSelector.selectObject "moon" (read [["earth"]] 0)) /\
   forall p, In (selectionComplete_with p) events ->
     p <> 0 /\ read h' p = read h' 0 /\
     forall ops : list operation,
       read (snd (fold_left ObjectSelector_step_shared ops (this', h'))) p = read h' p) /\
  (let '(copy, h') := StateManager_getSelectedObjects 0 [["earth"]] in
   copy <> 0 /\ read h' copy = read [["earth"]] 0 /\ read h' 0 = read [["earth"]] 0 /\
   forall ops : list operation,
     read (snd (fold_left StateManager_step_shared ops (0, h'))) copy = read [["earth"]] 0).
Proof.
  apply (selectionComplete_payload_sharing [["earth"]] 0 "moon").
  simpl. lia.
Defined.

End Sharing.

(* ------------------------------------------------------------------ *)
(** ** ObjectOverlay: creating and moving *)

Section Overlay.
Import Constants ObjectOverlay.
Local Open Scope Q_scope.

(** X21.  For an overlay with a finite size and offset: moving a created
    overlay with [updatePosition] gives the elements, coordinate by
    coordinate and text by text, that [create] gives at the new position,
    the layout written twice in the source being the same; in it the
    connector is vertical, runs from 5 px above the object to 5 px below
    the overlay circle, whose centre is [overlayOffsetY] above the object.
    Before [create], [updatePosition] changes nothing. *)
Theorem updatePosition_agrees_with_create (self : ObjectOverlay.t)
  (size offset actualSize px py px' py' : Q) (objectName : string) :
  overlaySize self = Fin size -> overlayOffsetY self = Fin offset ->
  (exists moved made : elements,
     created (updatePosition (Fin px') (Fin py')
                (create (Fin actualSize) (Fin px) (Fin py) objectName self)) = Some moved /\
     created (create (Fin actualSize) (Fin px') (Fin py') objectName self) = Some made /\
     same_elements moved made /\
     same (x1 (connectorLine made)) (Fin px') /\ same (x2 (connectorLine made)) (Fin px') /\
     same (y1 (connectorLine made)) (Fin (py' - actualSize / 2 - 5)) /\
     same (y2 (connectorLine made)) (Fin (py' - offset + size / 2 + 5)) /\
     same (y (overlaySprite made)) (Fin (py' - offset)) /\
     same (radius (overlaySprite made)) (Fin (size / 2))) /\
  (created self = None -> updatePosition (Fin px') (Fin py') self = self).
Proof.
  intros Hs Ho. split.
  - unfold updatePosition, create. cbn [created overlaySize overlayOffsetY].
    rewrite Hs, Ho. eexists _, _. split; [reflexivity|]. split; [reflexivity|].
    cbn [actualSprite overlaySprite connectorLine connectorArrow actualLabel overlayLabel
         x y radius x1 y1 x2 y2 label_x label_y text].
    change (div (Fin size) (Fin 2)) with (Fin (Qred (size / 2))).
    change (div (Fin actualSize) (Fin 2)) with (Fin (Qred (actualSize / 2))).
    cbn [mul]. 
    change (div (Fin (Qred (Qred (actualSize / 2) * 2))) (Fin 2))
      with (Fin (Qred (Qred (Qred (actualSize / 2) * 2) / 2))).
    unfold same_elements, same_circle, same_line, same_label.
    cbn [actualSprite overlaySprite connectorLine connectorArrow actualLabel overlayLabel
         x y radius x1 y1 x2 y2 label_x label_y text fst snd sub add neg same].
    rewrite !Qred_correct.
    repeat split; try reflexivity; try field.
  - intros H. unfold updatePosition. now rewrite H.
Qed.

Lemma updatePosition_agrees_with_create_witness :
  (exists moved made : elements,
     created (updatePosition (Fin 192) (Fin 360)
                (create (Fin 1) (Fin 640) (Fin 360) "Earth" (new no_config))) = Some moved /\
     created (create (Fin 1) (Fin 192) (Fin 360) "Earth" (new no_config)) = Some made /\
     same_elements moved made /\
     same (x1 (connectorLine made)) (Fin 192) /\ same (x2 (connectorLine made)) (Fin 192) /\
     same (y1 (connectorLine made)) (Fin (360 - 1 / 2 - 5)) /\
     same (y2 (connectorLine made)) (Fin (360 - 120 + 60 / 2 + 5)) /\
     same (y (overlaySprite made)) (Fin (360 - 120)) /\
     same (radius (overlaySprite made)) (Fin (60 / 2))) /\
  (created (new no_config) = None ->
   updatePosition (Fin 192) (Fin 360) (new no_config) = new no_config).
Proof.
  apply (updatePosition_agrees_with_create (new no_config) 60 120 1 640 360 192 360 "Earth");
    reflexivity.
Defined.

End Overlay.

(* ------------------------------------------------------------------ *)
(** ** The singletons *)

Section Singletons.
Import Singleton.
Local Open Scope list_scope.
Local Open Scope nat_scope.

Variable className : string.

Lemma statics_step (st : statics) (c : construction) :
  (forall object, instance st = Some object -> object < constructed st) ->
  let st' := construction_step className st c in
  (forall object, instance st' = Some object -> object < constructed st') /\
  constructed st <= constructed st' /\
  (forall object, instance st = Some object -> instance st' = Some object) /\
  (c = GetInstance -> instance st' <> None) /\
  (c = New -> instance st' = instance st).
Proof.
  intros Hinv. unfold construction_step, getInstance, construct.
  destruct c; destruct (instance st) as [o|] eqn:E; cbn [instance constructed];
    rewrite ?E; (split; [|split; [|split; [|split]]]).
  all: try lia.
  all: try (intros object H; first [now apply Hinv | discriminate H | exact H
                                    | injection H as <-; lia]).
  all: intros H; first [discriminate H | reflexivity | discriminate].
Qed.

Lemma statics_run (calls : list construction) (st : statics) :
  (forall object, instance st = Some object -> object < constructed st) ->
  let st' := fold_left (construction_step className) calls st in
  (forall object, instance st' = Some object -> object < constructed st') /\
  constructed st <= constructed st' /\
  (forall object, instance st = Some object -> instance st' = Some object) /\
  (In GetInstance calls -> instance st' <> None) /\
  (~ In GetInstance calls -> instance st' = instance st).
Proof.
  revert st. induction calls as [|c calls IH]; intros st Hinv; cbn [fold_left].
  - cbn [In]. repeat split; auto; contradiction.
  - destruct (statics_step st c Hinv) as (A1 & A2 & A3 & A4 & A5).
    destruct (IH _ A1) as (B1 & B2 & B3 & B4 & B5).
    split; [exact B1|]. split; [lia|]. split; [auto|]. split.
    + intros [->|H]; [|auto].
      destruct (instance (construction_step className st GetInstance)) as [o|] eqn:E;
        [|now destruct (A4 eq_refl)].
      rewrite (B3 o eq_refl). discriminate.
    + intros H. rewrite B5 by (intros K; apply H; now right).
      apply A5. destruct c; [reflexivity|]. exfalso. apply H. now left.
Qed.

Lemma getInstance_spec (st : statics) :
  exists (object : nat) (st1 : statics),
    getInstance className st = Normal (object, st1) /\
    instance st1 = Some object /\
    construction_step className st GetInstance = st1.
Proof.
  unfold construction_step, getInstance, construct.
  destruct (instance st) as [o|] eqn:E.
  - exists o, st. repeat split. exact E.
  - eexists _, _. repeat split.
Qed.

Lemma getInstance_when_set (st : statics) (object : nat) :
  instance st = Some object -> getInstance className st = Normal (object, st).
Proof. intros H. unfold getInstance. now rewrite H. Qed.

(** X22.  Over any sequence of [new C()] and [C.getInstance()] calls, C
    being DataManager or StateManager: once [getInstance] has been called,
    [new C()] throws ['C already instantiated. Use getInstance()'] and a
    further [getInstance] returns the object the first one returned,
    whatever was called in between; as long as [getInstance] has not been
    called, [new C()] does not throw and returns an object that was not
    there before, so the constructor alone does not keep the class to one
    instance. *)
Theorem singleton_only_through_getInstance (calls : list construction) :
  (In GetInstance calls ->
   construct className (statics_after className calls) =
     Throw (className ++ " already instantiated. Use getInstance()")%string) /\
  (~ In GetInstance calls ->
   construct className (statics_after className calls) =
     Normal (length calls,
             {| instance := None; constructed := S (length calls) |})) /\
  (forall later : list construction,
     exists object : nat,
       object_of (getInstance className (statics_after className calls)) = Some object /\
       object_of (getInstance className
                    (statics_after className (calls ++ GetInstance :: later)))
         = Some object).
Proof.
  unfold statics_after.
  assert (H0 : forall object, instance initial = Some object -> object < constructed initial)
    by (intros object H; discriminate).
  destruct (statics_run calls initial H0) as (A1 & A2 & A3 & A4 & A5).
  split; [|split].
  - intros H. unfold construct.
    destruct (instance (fold_left (construction_step className) calls initial)) eqn:E;
      [reflexivity|]. now destruct (A4 H).
  - intros H. unfold construct. rewrite (A5 H). cbn [instance initial].
    assert (L : constructed (fold_left (construction_step className) calls initial)
                = length calls).
    { clear -H. 
      assert (G : forall st, instance st = None -> ~ In GetInstance calls ->
                  instance (fold_left (construction_step className) calls st) = None /\
                  constructed (fold_left (construction_step className) calls st)
                    = constructed st + length calls).
      { induction calls as [|c calls IH]; intros st Hst Hn; cbn [fold_left length].
        - split; [exact Hst|lia].
        - destruct c; [|exfalso; apply Hn; now left].
          unfold construction_step at 2 4, construct. rewrite Hst.
          destruct (IH ltac:(intros K; apply H; now right)
                      {| instance := None; constructed := S (constructed st) |}
                      eq_refl ltac:(intros K; apply Hn; now right)) as [I1 I2].
          split; [exact I1|]. rewrite I2. cbn [constructed]. lia. }
      destruct (G initial eq_refl H) as [_ G2]. rewrite G2. reflexivity. }
    now rewrite L.
  - intros later. rewrite fold_left_app. cbn [fold_left].
    set (st := fold_left (construction_step className) calls initial) in *.
    destruct (getInstance_spec st) as (o & st1 & G & I & S).
    destruct (statics_step st GetInstance A1) as (B1 & _). rewrite S in B1 |- *.
    destruct (statics_run later st1 B1) as (_ & _ & C3 & _ & _).
    exists o. rewrite G. split; [reflexivity|].
    now rewrite (getInstance_when_set _ o (C3 o I)).
Qed.

End Singletons.
